(** * benford-law: a shallow embedding of [src/benford.ts]

    The library has three exported operations, [generateBenfordLawNumber],
    [generateBenfordLawNumbers] and [processBenfordLaw], and one private
    helper, [getFirstDigit].  The file holds two embeddings of the analysis
    and one of the sampler.

    Exact numbers.  A JavaScript number is NaN, one of the two infinities,
    or a finite binary64 value.  Every finite binary64 value is a rational,
    so the finite numbers are embedded in [Q].  Arithmetic on them is exact;
    the one magnitude effect that is kept is that a product or a power whose
    magnitude reaches 2^1024 is an infinity.  Rounding to 53 bits is not
    modelled, an object is the finite map of its own properties, and this
    embedding is used for what does not depend on rounding: the validation,
    the numbers from 1 upwards, and what holds of every returned report.

    Binary64.  In the module [Double] every number is a binary64 value and
    every operation is the rounded one; the functions that the language
    leaves to the engine are parameters, and a property read goes through
    [Object.prototype].  It is used for the values that a report holds and
    for the verdict.

    The sampler goes through [Math.exp] and [Math.log]; its values are real
    numbers, and [Math.random] is a stream of draws.

    Arrays are dense lists; an array has at most 2^32 - 1 elements, and the
    constructor and [push] throw a [RangeError] beyond.  [numbers] is typed
    as an array, so [Array.isArray(numbers)] holds.

    Exceptions.  Every [throw new Error(msg)] is a [Throw msg]; a function
    that can throw returns a [completion]. *)

From Stdlib Require Import ZArith QArith Qabs Qround Qpower Lia Ascii String Reals Lra.
From Stdlib Require Import PrimFloat FloatOps SpecFloat FloatAxioms.
From stdpp Require Import gmap strings pretty.

#[local] Set Warnings "-inexact-float".

Local Open Scope Z_scope.

(** ** Completions: a function either returns or throws *)

Definition Error := string.

Inductive completion (A : Type) : Type :=
| Return (a : A)
| Throw (e : Error).
Arguments Return {A} a.
Arguments Throw {A} e.

Definition bind {A B} (c : completion A) (k : A -> completion B) : completion B :=
  match c with
  | Return a => k a
  | Throw e => Throw e
  end.

Notation "'let*' x ':=' c 'in' k" := (bind c (fun x => k))
  (at level 10, x name, c at level 100, k at level 200).

(** The messages of the six [throw] statements. *)
Definition NotFiniteError : Error := "Number must be finite".
Definition NonPositiveError : Error := "Number must be positive and non-zero".
Definition InvalidDigitError : Error := "Invalid first digit extracted".
Definition InvalidLengthError : Error := "Length must be a positive integer".
Definition EmptyInputError : Error := "Numbers array must be non-empty".
Definition InvalidThresholdError : Error := "Threshold must be between 0 and 1".

(** The message of the [RangeError] that the engine throws for an array of
    more than 2^32 - 1 elements. *)
Definition InvalidArrayLengthError : Error := "Invalid array length".

(** ** Numbers *)

Inductive number : Type :=
| NaN
| Infinity
| NegInfinity
| Fin (q : Q).

Definition Qlt_bool (x y : Q) : bool := negb (Qle_bool y x).

(** [a < b], [a <= b], [a > b], [a >= b]: every comparison with NaN is
    false. *)
Definition js_lt (a b : number) : bool :=
  match a, b with
  | NaN, _ | _, NaN => false
  | _, NegInfinity => false
  | NegInfinity, _ => true
  | Infinity, _ => false
  | _, Infinity => true
  | Fin x, Fin y => Qlt_bool x y
  end.

Definition js_le (a b : number) : bool :=
  match a, b with
  | NaN, _ | _, NaN => false
  | NegInfinity, _ => true
  | _, Infinity => true
  | _, NegInfinity => false
  | Infinity, _ => false
  | Fin x, Fin y => Qle_bool x y
  end.

Definition js_gt (a b : number) : bool := js_lt b a.
Definition js_ge (a b : number) : bool := js_le b a.

Definition Number_isFinite (n : number) : bool :=
  match n with
  | Fin _ => true
  | _ => false
  end.

Definition Number_isInteger (n : number) : bool :=
  match n with
  | Fin q => Qeq_bool (inject_Z (Qfloor q)) q
  | _ => false
  end.

Definition Math_abs (n : number) : number :=
  match n with
  | NaN => NaN
  | Infinity | NegInfinity => Infinity
  | Fin q => Fin (Qabs q)
  end.

(** The smallest positive number, 2^-1074 (about 5e-324). *)
Definition MIN_VALUE : number := Fin (1 # (2 ^ 1074)).

Definition TWO_1024 : Q := inject_Z (2 ^ 1024).

(** A result of magnitude 2^1024 or more is not a finite binary64 value. *)
Definition overflow (q : Q) : number :=
  if Qle_bool TWO_1024 q then Infinity
  else if Qle_bool q (- TWO_1024) then NegInfinity
  else Fin q.

Definition js_mul (a b : number) : number :=
  match a, b with
  | NaN, _ | _, NaN => NaN
  | Fin x, Fin y => overflow (x * y)
  | Fin x, Infinity | Infinity, Fin x =>
      if Qlt_bool 0 x then Infinity
      else if Qlt_bool x 0 then NegInfinity else NaN
  | Fin x, NegInfinity | NegInfinity, Fin x =>
      if Qlt_bool 0 x then NegInfinity
      else if Qlt_bool x 0 then Infinity else NaN
  | Infinity, Infinity | NegInfinity, NegInfinity => Infinity
  | Infinity, NegInfinity | NegInfinity, Infinity => NaN
  end.

(** [Math.pow(10, k)] for an integer [k]. *)
Definition Math_pow10 (k : Z) : number := overflow (Qpower 10 k).

(** *** Integer logarithms

    [Math.log10] has irrational values, which the code only uses through
    [Math.ceil(-Math.log10(a))].  That integer is computed exactly here. *)

(** Number of decimal digits of [n] minus one, for [n >= 1]. *)
Fixpoint ilog10 (fuel : nat) (n : Z) : Z :=
  match fuel with
  | O => 0
  | S fuel' => if n <? 10 then 0 else 1 + ilog10 fuel' (n / 10)
  end.

(** Least [k >= k0] with [den <= num * 10^k]. *)
Fixpoint scale_up (fuel : nat) (num den k0 : Z) : Z :=
  match fuel with
  | O => k0
  | S fuel' =>
      if den <=? num * 10 ^ k0 then k0 else scale_up fuel' num den (k0 + 1)
  end.

(** [floor(log10(a))] for a rational [a > 0]. *)
Definition floor_log10 (a : Q) : Z :=
  if Qle_bool 1 a then ilog10 (Z.to_nat (Z.log2 (Qfloor a)) + 1) (Qfloor a)
  else - scale_up (Pos.size_nat (Qden a)) (Qnum a) (Zpos (Qden a)) 1.

(** [Math.ceil(-Math.log10(a))]: for every real [x], ceil(-x) = -floor(x). *)
Definition Math_ceil_neg_log10 (a : Q) : Z := - floor_log10 a.

(** ** [Number.prototype.toString], first character

    For [x >= 1] the text starts with the decimal digits of the integer part
    (when [x < 1e21]) or with the first significant digit (exponent form,
    [x >= 1e21]); both start with the first character of the integer part
    printed in decimal.  For [1e-6 <= x < 1] the text starts with a zero,
    below that it is in exponent form again.  [NaN] and the infinities print
    as their names, a negative number starts with its sign. *)

Definition head_char (s : string) : option ascii :=
  match s with
  | EmptyString => None
  | String c _ => Some c
  end.

Definition toString_head (n : number) : option ascii :=
  match n with
  | NaN => Some "N"%char
  | Infinity => Some "I"%char
  | NegInfinity => Some "-"%char
  | Fin q =>
      if Qlt_bool q 0 then Some "-"%char
      else if Qle_bool 1 q then head_char (pretty (Z.to_N (Qfloor q)))
      else if Qle_bool (1 # 1000000) q then Some "0"%char
      else if Qlt_bool 0 q then
        head_char (pretty (Z.to_N (Qfloor (q * Qpower 10 (Math_ceil_neg_log10 q)))))
      else Some "0"%char
  end.

(** ** [parseInt(c, 10)] on a one-character string: a digit, or NaN *)

Inductive parsed : Type :=
| ParsedNaN
| Parsed (d : N).

Definition digit_of_ascii (c : ascii) : option N :=
  let n := N_of_ascii c in
  if ((48 <=? n) && (n <=? 57))%N then Some (n - 48)%N else None.

Definition parseInt (c : option ascii) : parsed :=
  match c with
  | Some c => match digit_of_ascii c with
              | Some d => Parsed d
              | None => ParsedNaN
              end
  | None => ParsedNaN
  end.

Definition number_of_parsed (p : parsed) : number :=
  match p with
  | ParsedNaN => NaN
  | Parsed d => Fin (inject_Z (Z.of_N d))
  end.

(** [String(digit)] *)
Definition String_of_parsed (digit : parsed) : string :=
  match digit with
  | ParsedNaN => "NaN"
  | Parsed d => pretty d
  end.

(** ** [getFirstDigit] *)

Definition getFirstDigit (n : number) : completion parsed :=
  if negb (Number_isFinite n) then Throw NotFiniteError
  else if js_le n (Fin 0) then Throw NonPositiveError
  else
    let absNumber := Math_abs n in
    let normalized :=
      if js_ge absNumber (Fin 1) then absNumber
      else match absNumber with
           | Fin a => js_mul absNumber (Math_pow10 (Math_ceil_neg_log10 a))
           | _ => NaN
           end in
    let firstDigit := parseInt (toString_head normalized) in
    if js_lt (number_of_parsed firstDigit) (Fin 1)
       || js_gt (number_of_parsed firstDigit) (Fin 9)
    then Throw InvalidDigitError
    else Return firstDigit.

(** ** [processBenfordLaw] *)

(** [benfordProb], the default reference distribution. *)
Definition benfordProb : gmap string Q :=
  list_to_map
    [ ("1", 301 # 1000); ("2", 176 # 1000); ("3", 125 # 1000);
      ("4", 97 # 1000); ("5", 79 # 1000); ("6", 67 # 1000);
      ("7", 58 # 1000); ("8", 51 # 1000); ("9", 46 # 1000) ]%Q.

(** The default threshold, 0.01. *)
Definition default_threshold : number := Fin (1 # 100).

Record report : Type := {
  isFollowingBenfordLaw : bool;
  firstDigitProbabilities : gmap string Q;
  firstDigitCounts : gmap string nat;
  firstDigitAccuracies : gmap string Q
}.

(** [numbers.map(f)] for an [f] that can throw: elements are visited from
    index 0 upwards and the first throw ends the call. *)
Fixpoint Array_map {A B} (f : A -> completion B) (l : list A) : completion (list B) :=
  match l with
  | [] => Return []
  | x :: l' =>
      let* y := f x in
      let* ys := Array_map f l' in
      Return (y :: ys)
  end.

(** One iteration of the counting loop:
    [firstDigitCounts[key] = (firstDigitCounts[key] || 0) + 1]. *)
Definition count_step (counts : gmap string nat) (digit : parsed) : gmap string nat :=
  let key := String_of_parsed digit in
  <[key := (default 0 (counts !! key) + 1)%nat]> counts.

Definition count_digits (firstDigits : list parsed) : gmap string nat :=
  foldl count_step ∅ firstDigits.

(** [count / totalCount] *)
Definition ratio (count totalCount : nat) : Q :=
  (inject_Z (Z.of_nat count) / inject_Z (Z.of_nat totalCount))%Q.

(** The loop over [Object.entries(firstDigitCounts)]. *)
Definition probabilities_of (counts : gmap string nat) (totalCount : nat) : gmap string Q :=
  map_fold (fun digit count acc => <[digit := ratio count totalCount]> acc) ∅ counts.

(** The loop over [Object.entries(firstDigitProbabilities)], with its guard
    [benfordProbability !== undefined]. *)
Definition accuracies_of (probabilities benfordProbabilities : gmap string Q)
  : gmap string Q :=
  map_fold (fun digit probability acc =>
              match benfordProbabilities !! digit with
              | Some benfordProbability =>
                  <[digit := Qabs (benfordProbability - probability)]> acc
              | None => acc
              end) ∅ probabilities.

(** [firstDigitProbability || 0]: [undefined] and [0] both give [0]. *)
Definition or_zero (v : option Q) : Q :=
  match v with
  | Some p => if Qeq_bool p 0 then 0%Q else p
  | None => 0%Q
  end.

(** The callback of [every]. *)
Definition within_threshold (probabilities : gmap string Q) (threshold : number)
    (entry : string * Q) : bool :=
  let firstDigitProbability := probabilities !! entry.1 in
  let actualProbability := or_zero firstDigitProbability in
  js_lt (Fin (Qabs (actualProbability - entry.2))) threshold.

(** [Object.entries(benfordProbabilities).every(...)] *)
Definition isBenford (probabilities : gmap string Q) (threshold : number)
    (benfordProbabilities : gmap string Q) : bool :=
  forallb (within_threshold probabilities threshold)
          (map_to_list benfordProbabilities).

Definition processBenfordLaw (numbers : list number) (threshold : number)
    (benfordProbabilities : gmap string Q) : completion report :=
  if (length numbers =? 0)%nat then Throw EmptyInputError
  else if js_le threshold (Fin 0) || js_ge threshold (Fin 1)
  then Throw InvalidThresholdError
  else
    let* firstDigits := Array_map getFirstDigit numbers in
    let counts := count_digits firstDigits in
    let totalCount := length numbers in
    let probabilities := probabilities_of counts totalCount in
    let accuracies := accuracies_of probabilities benfordProbabilities in
    Return {| isFollowingBenfordLaw := isBenford probabilities threshold benfordProbabilities;
              firstDigitProbabilities := probabilities;
              firstDigitCounts := counts;
              firstDigitAccuracies := accuracies |}.

(** ** The sampler

    [Math.random] is the only stateful operation of the library: its
    successive results are a stream [random_draws], and the state threaded
    through the sampler is the position in that stream. *)

(** [ToLength(length)] for the array-like object [{ length }]: the integer
    part, kept between 0 and 2^53 - 1. *)
Definition ToLength (n : number) : Z :=
  match n with
  | Fin q => Z.min (Z.max (Qfloor q) 0) (2 ^ 53 - 1)
  | Infinity => 2 ^ 53 - 1
  | NaN | NegInfinity => 0
  end.

(** The largest length of an array. *)
Definition MAX_ARRAY_LENGTH : Z := 2 ^ 32 - 1.

Definition rng : Type := nat.

Definition MIN_BENFORD_RANGE : R := 1%R.
Definition MAX_BENFORD_RANGE : R := 1000%R.

Section Sampler.

Variable random_draws : nat -> R.

Definition Math_random (s : rng) : R * rng := (random_draws s, S s).

Definition generateRandomNumber (minimum maximum : R) (s : rng) : R * rng :=
  let (u, s') := Math_random s in
  ((u * (maximum - minimum) + minimum)%R, s').

Definition generateBenfordLawNumber (s : rng) : R * rng :=
  let (x, s') :=
    generateRandomNumber (ln MIN_BENFORD_RANGE) (ln MAX_BENFORD_RANGE) s in
  (exp x, s').

(** The loop of [Array.from]: [f] is called once per index, in index
    order. *)
Fixpoint Array_from_loop (length : nat) (f : rng -> R * rng) (s : rng)
  : list R * rng :=
  match length with
  | O => ([], s)
  | S length' =>
      let (x, s1) := f s in
      let (xs, s2) := Array_from_loop length' f s1 in
      (x :: xs, s2)
  end.

(** [Array.from({ length }, () => f())]: the array is constructed first,
    with [new Array(len)], which throws when [len] is above the largest
    length; then it is filled. *)
Definition Array_from (length : number) (f : rng -> R * rng) (s : rng)
  : completion (list R * rng) :=
  let len := ToLength length in
  if MAX_ARRAY_LENGTH <? len then Throw InvalidArrayLengthError
  else Return (Array_from_loop (Z.to_nat len) f s).

Definition generateBenfordLawNumbers (length : number) (s : rng)
  : completion (list R * rng) :=
  if negb (Number_isInteger length) || js_le length (Fin 0)
  then Throw InvalidLengthError
  else Array_from length generateBenfordLawNumber s.

(** The value produced from the draw at position [i]. *)
Definition sample_of (i : nat) : R :=
  exp (random_draws i * (ln MAX_BENFORD_RANGE - ln MIN_BENFORD_RANGE)
       + ln MIN_BENFORD_RANGE).

End Sampler.

(** * Vocabulary of the statements *)

(** A valid element is finite and positive. *)
Definition is_valid_number (x : number) : bool :=
  match x with
  | Fin q => Qlt_bool 0 q
  | _ => false
  end.

(** A valid threshold lies strictly inside (0,1). *)
Definition is_valid_threshold (t : number) : bool :=
  match t with
  | Fin q => Qlt_bool 0 q && Qlt_bool q 1
  | _ => false
  end.

(** The threshold is rejected: threshold <= 0 or threshold >= 1. *)
Definition threshold_out_of_range (t : number) : bool :=
  js_le t (Fin 0) || js_ge t (Fin 1).

(** The failure of [getFirstDigit] on an invalid element. *)
Definition extraction_error (x : number) : Error :=
  if Number_isFinite x then NonPositiveError else NotFiniteError.

(** A positive integer: 1, 2, 3, ... *)
Definition positive_integer (n : number) : Prop :=
  exists (q : Q) (p : positive), n = Fin q /\ (q == inject_Z (Zpos p))%Q.

(** The leading decimal digit of an integer [n >= 1]. *)
Definition lead_digit (n : Z) : Z :=
  n / 10 ^ ilog10 (Z.to_nat (Z.log2 n) + 1) n.

(** floor(a / 10^floor(log10(a))) *)
Definition log_floor_extract (a : Q) : Z :=
  Qfloor (a / Qpower 10 (floor_log10 a)).

(** The specification's algorithm, in its own words: with a = |x|, extract
    from a when a >= 1, and from a * 10^ceil(-log10(a)) when a < 1. *)
Definition leading_digit_spec (x : Q) : Z :=
  let a := Qabs x in
  if Qle_bool 1 a then log_floor_extract a
  else log_floor_extract (a * Qpower 10 (Math_ceil_neg_log10 a)).

(** The counts of a report, when there is one. *)
Definition counts_of (c : completion report) : option (gmap string nat) :=
  match c with
  | Return r => Some (firstDigitCounts r)
  | Throw _ => None
  end.

(** Sum of the values of a mapping. *)
Definition sum_counts (m : gmap string nat) : nat :=
  map_fold (fun _ c acc => (c + acc)%nat) 0%nat m.

(** Number of extracted digits whose key is [key]. *)
Definition occurrences (key : string) (firstDigits : list parsed) : nat :=
  count_occ string_dec (map String_of_parsed firstDigits) key.

(** A finite number from 1e-308 upwards. *)
Definition is_from_1e_308 (x : number) : bool :=
  match x with
  | Fin q => Qle_bool 1 (q * Qpower 10 308)
  | _ => false
  end.

(** The keys "1" to "9". *)
Definition digit_keys : list string := pretty <$> [1; 2; 3; 4; 5; 6; 7; 8; 9]%N.

(** A finite number that is at least 1. *)
Definition is_at_least_1 (x : number) : bool :=
  match x with
  | Fin q => Qle_bool 1 q
  | _ => false
  end.

(** * The earlier version of the library ([benford.ts] before validation)

    The same three exported operations without any validation:
    [getFirstDigit] reads the first character of the number's text as it
    is, [generateBenfordLawNumbers] is a counting loop, and
    [processBenfordLaw] never throws.  The loop takes fuel: [None] is a run
    that has not finished within it. *)

Module Legacy.

Definition getFirstDigit (n : number) : parsed :=
  parseInt (toString_head n).

(** [numbers.push(x)]: on an array that is full, setting the new length
    throws. *)
Definition Array_push (numbers : list R) (x : R) : completion (list R) :=
  if MAX_ARRAY_LENGTH <=? Z.of_nat (List.length numbers)
  then Throw InvalidArrayLengthError
  else Return (numbers ++ [x]).

(** [for (let i = 0; i < length; i++) numbers.push(generateBenfordLawNumber())] *)
Fixpoint generate_loop (random_draws : nat -> R) (fuel : nat) (i : nat)
    (length : number) (numbers : list R) (s : rng)
  : option (completion (list R * rng)) :=
  match fuel with
  | O => None
  | S fuel' =>
      if js_lt (Fin (inject_Z (Z.of_nat i))) length then
        let (x, s') := generateBenfordLawNumber random_draws s in
        match Array_push numbers x with
        | Return numbers' =>
            generate_loop random_draws fuel' (S i) length numbers' s'
        | Throw e => Some (Throw e)
        end
      else Some (Return (numbers, s))
  end.

Definition generateBenfordLawNumbers (random_draws : nat -> R) (fuel : nat)
    (length : number) (s : rng) : option (completion (list R * rng)) :=
  generate_loop random_draws fuel 0 length [] s.

Record report : Type := {
  isFollowingBenfordLaw : bool;
  firstDigitProbabilities : gmap string Q;
  firstDigitCounts : gmap string nat;
  firstDigitAccuracy : gmap string number
}.

(** [Math.abs(benfordProbability - probability)], where the reference entry
    may be [undefined]. *)
Definition accuracy_of (probabilities benfordProbabilities : gmap string Q)
  : gmap string number :=
  map_fold (fun digit probability acc =>
              <[digit := match benfordProbabilities !! digit with
                         | Some benfordProbability =>
                             Fin (Qabs (benfordProbability - probability))
                         | None => NaN
                         end]> acc) ∅ probabilities.

(** [firstDigitProbability && Math.abs(firstDigitProbability - probability)
    < threshold], as [every] reads it. *)
Definition within_threshold (probabilities : gmap string Q) (threshold : number)
    (entry : string * Q) : bool :=
  match probabilities !! entry.1 with
  | Some firstDigitProbability =>
      if Qeq_bool firstDigitProbability 0 then false
      else js_lt (Fin (Qabs (firstDigitProbability - entry.2))) threshold
  | None => false
  end.

Definition isBenford (probabilities : gmap string Q) (threshold : number)
    (benfordProbabilities : gmap string Q) : bool :=
  forallb (within_threshold probabilities threshold)
          (map_to_list benfordProbabilities).

Definition processBenfordLaw (numbers : list number) (threshold : number)
    (benfordProbabilities : gmap string Q) : report :=
  let firstDigits := map getFirstDigit numbers in
  let counts := count_digits firstDigits in
  let probabilities := probabilities_of counts (length numbers) in
  {| isFollowingBenfordLaw := isBenford probabilities threshold benfordProbabilities;
     firstDigitProbabilities := probabilities;
     firstDigitCounts := counts;
     firstDigitAccuracy := accuracy_of probabilities benfordProbabilities |}.

End Legacy.

(** * The analysis in binary64

    The same [getFirstDigit] and [processBenfordLaw], with every number a
    binary64 value ([float], the kernel's IEEE 754 doubles) and every [+],
    [-], [*], [/], [Math.abs] and comparison the rounded operation of the
    language.  What the language leaves to the engine, or what is not
    computed here, is a parameter of the model (a [host]): [Math.log10],
    [Math.ceil], [Math.pow], and the text of a number that is not an
    integer below 2^53.  What is proved holds for every host.

    A property read [o[key]] on a plain object finds the object's own
    property, or else the property of that name on [Object.prototype]. *)

Module Double.

Record host : Type := {
  Math_log10 : float -> float;
  Math_ceil : float -> float;
  Math_pow : float -> float -> float;
  (** [x.toString()] for a finite [x] that is not an integer below 2^53 *)
  toString_other : float -> string
}.

(** The binary64 value nearest to an integer (the integer itself below
    2^53). *)
Definition float_of_Z (z : Z) : float :=
  SF2Prim (binary_normalize prec emax z 0 false).

Definition float_of_nat (n : nat) : float := float_of_Z (Z.of_nat n).

(** The integer a number is equal to, when there is one. *)
Definition integer_value (x : float) : option Z :=
  match Prim2SF x with
  | S754_zero _ => Some 0
  | S754_finite s m e =>
      if 0 <=? e then Some (cond_Zopp s (Zpos m * 2 ^ e))
      else if Zpos m mod 2 ^ (- e) =? 0 then Some (cond_Zopp s (Zpos m / 2 ^ (- e)))
      else None
  | _ => None
  end.

(** [x.toString()]: an integer below 2^53 prints as its decimal digits. *)
Definition Number_toString (h : host) (x : float) : string :=
  if is_nan x then "NaN"
  else if (x =? infinity)%float then "Infinity"
  else if (x =? neg_infinity)%float then "-Infinity"
  else match integer_value x with
       | Some n => if Z.abs n <? 2 ^ 53 then pretty n else toString_other h x
       | None => toString_other h x
       end.

(** The number that [parseInt] returned. *)
Definition float_of_parsed (p : parsed) : float :=
  match p with
  | ParsedNaN => nan
  | Parsed d => float_of_Z (Z.of_N d)
  end.

Definition getFirstDigit (h : host) (number : float) : completion parsed :=
  if negb (is_finite number) then Throw NotFiniteError
  else if (number <=? 0)%float then Throw NonPositiveError
  else
    let absNumber := abs number in
    let normalized :=
      if (1 <=? absNumber)%float then absNumber
      else (absNumber
            * Math_pow h 10 (Math_ceil h (- Math_log10 h absNumber)))%float in
    let firstDigit := parseInt (head_char (Number_toString h normalized)) in
    if (float_of_parsed firstDigit <? 1)%float
       || (9 <? float_of_parsed firstDigit)%float
    then Throw InvalidDigitError
    else Return firstDigit.

(** [benfordProb], the default reference distribution. *)
Definition benfordProb : gmap string float :=
  list_to_map
    [ ("1", 0.301); ("2", 0.176); ("3", 0.125);
      ("4", 0.097); ("5", 0.079); ("6", 0.067);
      ("7", 0.058); ("8", 0.051); ("9", 0.046) ]%float.

Definition default_threshold : float := 0.01%float.

(** The counts are integers below 2^32, the bound on the length of an
    array: they are kept as natural numbers and become binary64 values,
    exactly, where they are divided. *)
Record report : Type := {
  isFollowingBenfordLaw : bool;
  firstDigitProbabilities : gmap string float;
  firstDigitCounts : gmap string nat;
  firstDigitAccuracies : gmap string float
}.

(** [count / totalCount] *)
Definition ratio (count totalCount : nat) : float :=
  (float_of_nat count / float_of_nat totalCount)%float.

(** The loop over [Object.entries(firstDigitCounts)]. *)
Definition probabilities_of (counts : gmap string nat) (totalCount : nat)
  : gmap string float :=
  map_fold (fun digit count acc => <[digit := ratio count totalCount]> acc) ∅ counts.

(** The names of the properties of [Object.prototype]. *)
Definition Object_prototype : list string :=
  [ "constructor"; "__defineGetter__"; "__defineSetter__"; "hasOwnProperty";
    "__lookupGetter__"; "__lookupSetter__"; "isPrototypeOf";
    "propertyIsEnumerable"; "toString"; "valueOf"; "__proto__";
    "toLocaleString" ].

(** What [o[key]] finds on a plain object whose own properties are numbers:
    the own number, a function or object of the prototype, or
    [undefined]. *)
Inductive property : Type :=
| Own (v : float)
| Inherited
| Undefined.

Definition get (o : gmap string float) (key : string) : property :=
  match o !! key with
  | Some v => Own v
  | None => if bool_decide (key ∈ Object_prototype) then Inherited else Undefined
  end.

(** The loop over [Object.entries(firstDigitProbabilities)], with its guard
    [benfordProbability !== undefined]; an inherited function or object
    minus a number is NaN. *)
Definition accuracies_of (probabilities benfordProbabilities : gmap string float)
  : gmap string float :=
  map_fold (fun digit probability acc =>
              match get benfordProbabilities digit with
              | Own benfordProbability =>
                  <[digit := abs (benfordProbability - probability)]> acc
              | Inherited => <[digit := nan]> acc
              | Undefined => acc
              end) ∅ probabilities.

(** [v || 0] for a number [v]: 0, -0 and NaN give 0. *)
Definition or_zero (v : float) : float :=
  if is_zero v || is_nan v then 0%float else v.

(** The callback of [every].  An inherited function or object is truthy,
    its difference with a number is NaN, and [NaN < threshold] is false. *)
Definition within_threshold (probabilities : gmap string float) (threshold : float)
    (entry : string * float) : bool :=
  match get probabilities entry.1 with
  | Own firstDigitProbability =>
      (abs (or_zero firstDigitProbability - entry.2) <? threshold)%float
  | Inherited => false
  | Undefined => (abs (0 - entry.2) <? threshold)%float
  end.

(** [Object.entries(benfordProbabilities).every(...)] *)
Definition isBenford (probabilities : gmap string float) (threshold : float)
    (benfordProbabilities : gmap string float) : bool :=
  forallb (within_threshold probabilities threshold)
          (map_to_list benfordProbabilities).

Definition processBenfordLaw (h : host) (numbers : list float) (threshold : float)
    (benfordProbabilities : gmap string float) : completion report :=
  if (length numbers =? 0)%nat then Throw EmptyInputError
  else if (threshold <=? 0)%float || (1 <=? threshold)%float
  then Throw InvalidThresholdError
  else
    let* firstDigits := Array_map (getFirstDigit h) numbers in
    let counts := count_digits firstDigits in
    let totalCount := length numbers in
    let probabilities := probabilities_of counts totalCount in
    let accuracies := accuracies_of probabilities benfordProbabilities in
    Return {| isFollowingBenfordLaw := isBenford probabilities threshold benfordProbabilities;
              firstDigitProbabilities := probabilities;
              firstDigitCounts := counts;
              firstDigitAccuracies := accuracies |}.

(** A host that answers NaN and the empty text: it stands for any host in
    a statement about inputs on which none of the four functions is
    consulted, such as the integers from 1 up to 2^53 and the numbers that
    the first two checks reject. *)
Definition silent : host :=
  {| Math_log10 := fun _ => nan;
     Math_ceil := fun _ => nan;
     Math_pow := fun _ _ => nan;
     toString_other := fun _ => "" |}.

End Double.

(** The exact value of a finite number, a rational. *)
Definition exact_value (x : float) : Q :=
  match Prim2SF x with
  | S754_finite s m e => (inject_Z (cond_Zopp s (Zpos m)) * Qpower 2 e)%Q
  | _ => 0%Q
  end.

(** A digit from 1 to 9, or NaN: what the range check of [getFirstDigit]
    lets through. *)
Definition is_digit_or_NaN (p : parsed) : Prop :=
  match p with
  | ParsedNaN => True
  | Parsed d => (1 <= d <= 9)%N
  end.


(** The quotient of two natural numbers in binary64. *)
Definition quotient (count total : nat) : float :=
  (Double.float_of_Z (Z.of_nat count) / Double.float_of_Z (Z.of_nat total))%float.

(** The sum of the exact values of the entries of a mapping. *)
Definition sum_exact (m : gmap string float) : Q :=
  map_fold (fun _ v acc => (exact_value v + acc)%Q) 0%Q m.

(** The sum a program gets by adding up the entries of a mapping in the
    order of [keys]. *)
Definition sum_in_order (keys : list string) (m : gmap string float) : float :=
  foldl (fun acc key => (acc + default 0 (m !! key))%float) 0%float keys.

(** What the engine in use answers on the way through
    [getFirstDigit(1e-11)]: the logarithm is -11, 10^11 is 1e11, and the
    text of 0.9999999999999999 starts with a zero. *)
Definition answers_at_1e_11 (h : Double.host) : Prop :=
  Double.Math_log10 h 1e-11 = (-11)%float /\
  Double.Math_ceil h 11 = 11%float /\
  Double.Math_pow h 10 11 = 1e11%float /\
  head_char (Double.toString_other h 0.9999999999999999) = Some "0"%char.

(** A host with those answers, and no other. *)
Definition host_at_1e_11 : Double.host :=
  {| Double.Math_log10 := fun x => if (x =? 1e-11)%float then (-11)%float else nan;
     Double.Math_ceil := fun x => if (x =? 11)%float then 11%float else nan;
     Double.Math_pow := fun x y =>
       if (x =? 10)%float && (y =? 11)%float then 1e11%float else nan;
     Double.toString_other := fun x =>
       if (x =? 0.9999999999999999)%float then "0.9999999999999999" else "" |}.

(** A number whose exact value is an integer from 1 to 2^53 - 1. *)
Definition is_positive_safe_integer (x : float) : Prop :=
  exists n, (exact_value x == inject_Z n)%Q /\ 1 <= n < 2 ^ 53.

(** Where a remainder [r] of a division by [d] lies: what a location says. *)
Definition location_of (l : location) (r d : Z) : Prop :=
  match l with
  | loc_Exact => r = 0
  | loc_Inexact Lt => 0 < 2 * r < d
  | loc_Inexact Eq => 2 * r = d
  | loc_Inexact Gt => d < 2 * r
  end.

(** * Properties *)

(** ** The documented examples *)

Example getFirstDigit_half : getFirstDigit (Fin (1 # 2)) = Return (Parsed 5).
Proof. vm_compute. reflexivity. Qed.

Example getFirstDigit_1000 : getFirstDigit (Fin 1000) = Return (Parsed 1).
Proof. vm_compute. reflexivity. Qed.

Example getFirstDigit_1_5 : getFirstDigit (Fin (3 # 2)) = Return (Parsed 1).
Proof. vm_compute. reflexivity. Qed.

Example getFirstDigit_123456 : getFirstDigit (Fin 123456) = Return (Parsed 1).
Proof. vm_compute. reflexivity. Qed.

Example getFirstDigit_7e_8 : getFirstDigit (Fin (7 # 100000000)) = Return (Parsed 7).
Proof. vm_compute. reflexivity. Qed.

(** The analyses of the test suite. *)

Example processBenfordLaw_uniform :
  exists r,
    processBenfordLaw [Fin 1; Fin 2; Fin 3; Fin 4; Fin 5; Fin 6; Fin 7; Fin 8; Fin 9]
                      default_threshold benfordProb = Return r /\
    isFollowingBenfordLaw r = false /\
    firstDigitProbabilities r =
      list_to_map [("1", 1 # 9); ("2", 1 # 9); ("3", 1 # 9); ("4", 1 # 9);
                   ("5", 1 # 9); ("6", 1 # 9); ("7", 1 # 9); ("8", 1 # 9);
                   ("9", 1 # 9)]%Q /\
    firstDigitCounts r =
      list_to_map [("1", 1); ("2", 1); ("3", 1); ("4", 1); ("5", 1); ("6", 1);
                   ("7", 1); ("8", 1); ("9", 1)]%nat /\
    firstDigitAccuracies r !! "1" = Some (1709 # 9000)%Q.
Proof.
  eexists. split; [vm_compute; reflexivity|]. repeat split; vm_compute; reflexivity.
Qed.

Example processBenfordLaw_decimals :
  counts_of (processBenfordLaw [Fin 1.5; Fin 2.7; Fin 3.9; Fin 4.1; Fin 5.2]
                               default_threshold benfordProb)
  = Some (list_to_map [("1", 1); ("2", 1); ("3", 1); ("4", 1); ("5", 1)]%nat).
Proof. vm_compute. reflexivity. Qed.

Example processBenfordLaw_below_one :
  counts_of (processBenfordLaw [Fin 0.5; Fin 0.7; Fin 0.9]
                               default_threshold benfordProb)
  = Some (list_to_map [("5", 1); ("7", 1); ("9", 1)]%nat).
Proof. vm_compute. reflexivity. Qed.

Example processBenfordLaw_large :
  counts_of (processBenfordLaw [Fin 123456; Fin 234567; Fin 345678]
                               default_threshold benfordProb)
  = Some (list_to_map [("1", 1); ("2", 1); ("3", 1)]%nat).
Proof. vm_compute. reflexivity. Qed.

Example processBenfordLaw_errors :
  processBenfordLaw [] default_threshold benfordProb = Throw EmptyInputError /\
  processBenfordLaw [Fin (-1); Fin 2; Fin 3] default_threshold benfordProb
  = Throw NonPositiveError /\
  processBenfordLaw [Fin 0; Fin 1; Fin 2] default_threshold benfordProb
  = Throw NonPositiveError /\
  processBenfordLaw [NaN; Fin 1; Fin 2] default_threshold benfordProb
  = Throw NotFiniteError /\
  processBenfordLaw [Infinity; Fin 1; Fin 2] default_threshold benfordProb
  = Throw NotFiniteError /\
  processBenfordLaw [Fin 1; Fin 2; Fin 3] (Fin 0) benfordProb
  = Throw InvalidThresholdError /\
  processBenfordLaw [Fin 1; Fin 2; Fin 3] (Fin 1) benfordProb
  = Throw InvalidThresholdError /\
  processBenfordLaw [Fin 1; Fin 2; Fin 3] (Fin (-0.1)) benfordProb
  = Throw InvalidThresholdError.
Proof. repeat split; vm_compute; reflexivity. Qed.

(** ** Comparisons *)

Lemma Qlt_bool_iff (x y : Q) : Qlt_bool x y = true <-> (x < y)%Q.
Proof.
  unfold Qlt_bool. rewrite negb_true_iff. split.
  - intros H. apply Qnot_le_lt. intros Hle.
    apply Qle_bool_iff in Hle. congruence.
  - intros H. destruct (Qle_bool y x) eqn:E; [|reflexivity].
    apply Qle_bool_iff in E. exfalso. exact (Qlt_not_le _ _ H E).
Qed.

Lemma Qlt_bool_false (x y : Q) : Qlt_bool x y = false <-> (y <= x)%Q.
Proof.
  unfold Qlt_bool. rewrite negb_false_iff. apply Qle_bool_iff.
Qed.

Lemma Qle_bool_false (x y : Q) : Qle_bool x y = false <-> (y < x)%Q.
Proof.
  rewrite <- Qlt_bool_iff. unfold Qlt_bool.
  destruct (Qle_bool x y); simpl; split; congruence.
Qed.

(** ** Integer logarithms *)

Lemma ilog10_spec (fuel : nat) (n : Z) :
  1 <= n < 2 ^ Z.of_nat fuel ->
  0 <= ilog10 fuel n /\ 10 ^ ilog10 fuel n <= n < 10 ^ (ilog10 fuel n + 1).
Proof.
  revert n. induction fuel as [|fuel IH]; intros n Hn.
  - simpl in Hn. lia.
  - cbn [ilog10]. destruct (Z.ltb_spec n 10) as [Hlt|Hge].
    + simpl. lia.
    + assert (Hdiv : 1 <= n / 10 < 2 ^ Z.of_nat fuel).
      { split.
        - apply Z.div_le_lower_bound; lia.
        - apply Z.div_lt_upper_bound; [lia|].
          rewrite Nat2Z.inj_succ, Z.pow_succ_r in Hn by lia. lia. }
      destruct (IH _ Hdiv) as (He & Hlo & Hhi).
      set (e := ilog10 fuel (n / 10)) in *.
      split; [lia|].
      replace (1 + e + 1) with (Z.succ (e + 1)) by lia.
      replace (1 + e) with (Z.succ e) by lia.
      rewrite !Z.pow_succ_r by lia.
      pose proof (Z.mul_div_le n 10 ltac:(lia)).
      pose proof (Z.mul_succ_div_gt n 10 ltac:(lia)).
      lia.
Qed.

Lemma log2_fuel (n : Z) : 1 <= n -> n < 2 ^ Z.of_nat (Z.to_nat (Z.log2 n) + 1).
Proof.
  intros Hn.
  rewrite Nat2Z.inj_add, Z2Nat.id by apply Z.log2_nonneg.
  change (Z.of_nat 1) with 1.
  replace (Z.log2 n + 1) with (Z.succ (Z.log2 n)) by lia.
  apply Z.log2_spec. lia.
Qed.

Lemma scale_up_spec (fuel : nat) (num den k0 : Z) :
  0 < num -> 0 <= k0 ->
  den <= num * 10 ^ (k0 + Z.of_nat fuel) ->
  let k := scale_up fuel num den k0 in
  k0 <= k /\ den <= num * 10 ^ k /\
  (forall j, k0 <= j < k -> num * 10 ^ j < den).
Proof.
  revert k0. induction fuel as [|fuel IH]; intros k0 Hnum Hk0 Hfuel; cbn [scale_up].
  - rewrite Z.add_0_r in Hfuel. repeat split; [lia|assumption|lia].
  - destruct (Z.leb_spec den (num * 10 ^ k0)) as [Hle|Hgt].
    + repeat split; [lia|assumption|lia].
    + destruct (IH (k0 + 1)) as (H1 & H2 & H3); [lia|lia| |].
      { replace (k0 + 1 + Z.of_nat fuel) with (k0 + Z.of_nat (S fuel)) by lia.
        exact Hfuel. }
      repeat split; [lia|assumption|].
      intros j Hj. destruct (Z.eq_dec j k0) as [->|Hne]; [assumption|].
      apply H3. lia.
Qed.

Lemma pos_lt_pow10_size (d : positive) :
  Zpos d <= 10 ^ (1 + Z.of_nat (Pos.size_nat d)).
Proof.
  assert (H : Zpos d < 2 ^ Z.of_nat (Pos.size_nat d)).
  { induction d as [d IH|d IH|]; cbn [Pos.size_nat].
    - rewrite Nat2Z.inj_succ, Z.pow_succ_r by lia. lia.
    - rewrite Nat2Z.inj_succ, Z.pow_succ_r by lia. lia.
    - simpl. lia. }
  assert (H2 : 2 ^ Z.of_nat (Pos.size_nat d) <= 10 ^ Z.of_nat (Pos.size_nat d)).
  { apply Z.pow_le_mono_l. lia. }
  assert (H3 : 10 ^ Z.of_nat (Pos.size_nat d) <= 10 ^ (1 + Z.of_nat (Pos.size_nat d))).
  { apply Z.pow_le_mono_r; lia. }
  lia.
Qed.

Lemma lead_digit_range (n : Z) : 1 <= n -> 1 <= lead_digit n <= 9.
Proof.
  intros Hn. unfold lead_digit.
  destruct (ilog10_spec _ n (conj Hn (log2_fuel n Hn))) as (He & Hlo & Hhi).
  set (e := ilog10 _ n) in *.
  assert (Hp : 0 < 10 ^ e) by (apply Z.pow_pos_nonneg; lia).
  split.
  - apply Z.div_le_lower_bound; lia.
  - assert (n / 10 ^ e < 10); [|lia].
    apply Z.div_lt_upper_bound; [lia|].
    replace (e + 1) with (Z.succ e) in Hhi by lia.
    rewrite Z.pow_succ_r in Hhi by lia. lia.
Qed.

Lemma digit_of_pretty_char (d : N) :
  (d < 10)%N -> digit_of_ascii (pretty_N_char d) = Some d.
Proof.
  intros H.
  assert (Hc : (d = 0 \/ d = 1 \/ d = 2 \/ d = 3 \/ d = 4 \/ d = 5 \/ d = 6
                \/ d = 7 \/ d = 8 \/ d = 9)%N) by lia.
  repeat destruct Hc as [->|Hc]; try subst d; reflexivity.
Qed.

Lemma pretty_N_go_head (fuel : nat) (x : N) (s : string) :
  1 <= Z.of_N x < 2 ^ Z.of_nat fuel ->
  head_char (pretty_N_go x s)
  = Some (pretty_N_char (Z.to_N (Z.of_N x / 10 ^ ilog10 fuel (Z.of_N x)))).
Proof.
  revert x s. induction fuel as [|fuel IH]; intros x s Hx.
  - simpl in Hx. lia.
  - rewrite pretty_N_go_step by lia. cbn [ilog10].
    destruct (Z.ltb_spec (Z.of_N x) 10) as [Hlt|Hge].
    + rewrite N.div_small by lia. rewrite pretty_N_go_0. cbn [head_char].
      rewrite N.mod_small by lia.
      rewrite Z.pow_0_r, Z.div_1_r, N2Z.id. reflexivity.
    + assert (Hdiv : 1 <= Z.of_N (x / 10) < 2 ^ Z.of_nat fuel).
      { rewrite N2Z.inj_div. change (Z.of_N 10) with 10. split.
        - apply Z.div_le_lower_bound; lia.
        - apply Z.div_lt_upper_bound; [lia|].
          rewrite Nat2Z.inj_succ, Z.pow_succ_r in Hx by lia. lia. }
      rewrite (IH _ _ Hdiv). do 3 f_equal.
      destruct (ilog10_spec fuel _ Hdiv) as (He & _).
      rewrite N2Z.inj_div in *. change (Z.of_N 10) with 10 in *.
      set (e := ilog10 fuel (Z.of_N x / 10)) in *.
      replace (1 + e) with (Z.succ e) by lia.
      rewrite Z.pow_succ_r by lia.
      rewrite Z.div_div by (try apply Z.pow_pos_nonneg; lia).
      reflexivity.
Qed.

Lemma pretty_head (n : Z) :
  1 <= n ->
  head_char (pretty (Z.to_N n)) = Some (pretty_N_char (Z.to_N (lead_digit n))).
Proof.
  intros Hn. unfold pretty, pretty_N.
  destruct (decide (Z.to_N n = 0%N)) as [H0|_]; [lia|].
  rewrite (pretty_N_go_head (Z.to_nat (Z.log2 n) + 1)).
  - rewrite Z2N.id by lia. reflexivity.
  - rewrite Z2N.id by lia. split; [assumption|]. apply log2_fuel; assumption.
Qed.

Lemma parseInt_pretty_head (n : Z) :
  1 <= n ->
  parseInt (head_char (pretty (Z.to_N n))) = Parsed (Z.to_N (lead_digit n)).
Proof.
  intros Hn. rewrite pretty_head by assumption. unfold parseInt.
  pose proof (lead_digit_range n Hn).
  rewrite digit_of_pretty_char by lia. reflexivity.
Qed.

(** ** Normalisation of a number below 1 *)

Lemma Qabs_pos_eq (q : Q) : (0 < q)%Q -> Qabs q = q.
Proof.
  destruct q as [n d]. unfold Qlt, Qabs. simpl. intros H.
  rewrite Z.abs_eq by lia. reflexivity.
Qed.

Lemma Qpower10_inject (k : Z) : 0 <= k -> (Qpower 10 k == inject_Z (10 ^ k))%Q.
Proof.
  intros Hk. rewrite Zpower_Qpower by assumption. reflexivity.
Qed.

Lemma Qmult_inject_le (n m c : Z) (d : positive) :
  (inject_Z c <= (n # d) * inject_Z m)%Q <-> c * Zpos d <= n * m.
Proof.
  unfold Qle, Qmult, inject_Z. simpl. rewrite Pos.mul_1_r. lia.
Qed.

Lemma Qmult_inject_lt (n m c : Z) (d : positive) :
  ((n # d) * inject_Z m < inject_Z c)%Q <-> n * m < c * Zpos d.
Proof.
  unfold Qlt, Qmult, inject_Z. simpl. rewrite Pos.mul_1_r. lia.
Qed.

Lemma ceil_neg_log10_small_Z (n : Z) (d : positive) :
  0 < n -> n < Zpos d ->
  let k := Math_ceil_neg_log10 (n # d) in
  1 <= k /\ Zpos d <= n * 10 ^ k /\ n * 10 ^ (k - 1) < Zpos d.
Proof.
  intros Hn Hnd k.
  assert (Hk : k = scale_up (Pos.size_nat d) n (Zpos d) 1).
  { unfold k, Math_ceil_neg_log10, floor_log10.
    replace (Qle_bool 1 (n # d)) with false.
    - apply Z.opp_involutive.
    - symmetry. apply Qle_bool_false. unfold Qlt. simpl. lia. }
  destruct (scale_up_spec (Pos.size_nat d) n (Zpos d) 1 Hn ltac:(lia))
    as (H1 & H2 & H3).
  { pose proof (pos_lt_pow10_size d) as Hd.
    assert (0 < 10 ^ (1 + Z.of_nat (Pos.size_nat d)))
      by (apply Z.pow_pos_nonneg; lia).
    nia. }
  rewrite <- Hk in H1, H2, H3.
  repeat split; [assumption|assumption|].
  destruct (Z.eq_dec k 1) as [->|Hne].
  - simpl. lia.
  - apply H3. lia.
Qed.

Lemma ceil_neg_log10_small (a : Q) :
  (0 < a)%Q -> (a < 1)%Q ->
  let k := Math_ceil_neg_log10 a in
  1 <= k /\ (1 <= a * Qpower 10 k)%Q /\ (a * Qpower 10 k < 10)%Q.
Proof.
  intros Hpos Hlt k. destruct a as [n d].
  assert (Hn : 0 < n) by (unfold Qlt in Hpos; simpl in Hpos; lia).
  assert (Hnd : n < Zpos d) by (unfold Qlt in Hlt; simpl in Hlt; lia).
  destruct (ceil_neg_log10_small_Z n d Hn Hnd) as (H1 & H2 & H3).
  fold k in H1, H2, H3.
  split; [assumption|].
  rewrite Qpower10_inject by lia.
  split.
  - change 1%Q with (inject_Z 1). apply Qmult_inject_le. lia.
  - change 10%Q with (inject_Z 10). apply Qmult_inject_lt.
    replace k with (Z.succ (k - 1)) by lia.
    rewrite Z.pow_succ_r by lia. lia.
Qed.

Lemma Qfloor_ge_1 (a : Q) : (1 <= a)%Q -> 1 <= Qfloor a.
Proof.
  intros H. change 1 with (Qfloor 1). apply Qfloor_resp_le. assumption.
Qed.

Lemma guard_digit (d : Z) :
  1 <= d <= 9 ->
  js_lt (number_of_parsed (Parsed (Z.to_N d))) (Fin 1)
  || js_gt (number_of_parsed (Parsed (Z.to_N d))) (Fin 9) = false.
Proof.
  intros Hd. unfold js_gt, js_lt, number_of_parsed.
  rewrite Z2N.id by lia.
  apply orb_false_iff. split; apply Qlt_bool_false.
  - change 1%Q with (inject_Z 1). rewrite <- Zle_Qle. lia.
  - change 9%Q with (inject_Z 9). rewrite <- Zle_Qle. lia.
Qed.

Lemma toString_head_ge_1 (a : Q) :
  (1 <= a)%Q -> toString_head (Fin a) = head_char (pretty (Z.to_N (Qfloor a))).
Proof.
  intros H. unfold toString_head.
  replace (Qlt_bool a 0) with false.
  - replace (Qle_bool 1 a) with true; [reflexivity|].
    symmetry. apply Qle_bool_iff. assumption.
  - symmetry. apply Qlt_bool_false.
    apply Qle_trans with 1%Q; [discriminate|assumption].
Qed.

(** A finite number that is at least 1 yields the leading digit of its
    integer part. *)
Lemma getFirstDigit_ge_1 (q : Q) :
  (1 <= q)%Q ->
  getFirstDigit (Fin q) = Return (Parsed (Z.to_N (lead_digit (Qfloor q)))).
Proof.
  intros H.
  assert (Hpos : (0 < q)%Q) by (apply Qlt_le_trans with 1%Q; [reflexivity|assumption]).
  unfold getFirstDigit. cbn [Number_isFinite negb js_le Math_abs].
  replace (Qle_bool q 0) with false by (symmetry; apply Qle_bool_false; assumption).
  rewrite Qabs_pos_eq by assumption.
  cbn [js_ge js_le].
  replace (Qle_bool 1 q) with true by (symmetry; apply Qle_bool_iff; assumption).
  rewrite toString_head_ge_1 by assumption.
  pose proof (Qfloor_ge_1 q H) as Hf.
  rewrite parseInt_pretty_head by assumption.
  rewrite guard_digit by (apply lead_digit_range; assumption).
  reflexivity.
Qed.

Lemma ten_lt_TWO_1024 : (10 < TWO_1024)%Q.
Proof.
  unfold TWO_1024. change 10%Q with (inject_Z 10). rewrite <- Zlt_Qlt.
  now vm_compute.
Qed.

Lemma neg_TWO_1024_lt_0 : (- TWO_1024 < 0)%Q.
Proof.
  change 0%Q with (- 0)%Q. apply Qopp_lt_compat.
  apply Qlt_trans with 10%Q; [reflexivity|apply ten_lt_TWO_1024].
Qed.

Lemma parseInt_I : parseInt (Some "I"%char) = ParsedNaN.
Proof.
  reflexivity.
Qed.

(** A finite positive number below 1 is first multiplied by a power of ten.
    When that power is not a finite number the product is [Infinity], its
    text is "Infinity", [parseInt] gives NaN, and NaN passes the range
    check. *)
Lemma getFirstDigit_lt_1 (q : Q) :
  (0 < q)%Q -> (q < 1)%Q ->
  getFirstDigit (Fin q) =
    if Qle_bool TWO_1024 (Qpower 10 (Math_ceil_neg_log10 q))
    then Return ParsedNaN
    else Return (Parsed (Z.to_N (lead_digit
                   (Qfloor (q * Qpower 10 (Math_ceil_neg_log10 q)))))).
Proof.
  intros Hpos Hlt.
  destruct (ceil_neg_log10_small q Hpos Hlt) as (Hk & Hlo & Hhi).
  unfold getFirstDigit. cbn [Number_isFinite negb js_le Math_abs].
  replace (Qle_bool q 0) with false by (symmetry; apply Qle_bool_false; assumption).
  rewrite Qabs_pos_eq by assumption.
  cbn [js_ge js_le].
  replace (Qle_bool 1 q) with false by (symmetry; apply Qle_bool_false; assumption).
  set (p := Qpower 10 (Math_ceil_neg_log10 q)) in *.
  unfold Math_pow10, overflow. fold p.
  pose proof ten_lt_TWO_1024 as HM.
  destruct (Qle_bool TWO_1024 p) eqn:Hov.
  - cbn [js_mul].
    replace (Qlt_bool 0 q) with true by (symmetry; apply Qlt_bool_iff; assumption).
    cbn [toString_head]. rewrite parseInt_I. reflexivity.
  - assert (Hp : (0 < p)%Q) by (apply Qpower_0_lt; reflexivity).
    replace (Qle_bool p (- TWO_1024)) with false.
    2:{ symmetry. apply Qle_bool_false.
        apply Qlt_trans with 0%Q; [apply neg_TWO_1024_lt_0|assumption]. }
    cbn [js_mul]. unfold overflow.
    replace (Qle_bool TWO_1024 (q * p)) with false.
    2:{ symmetry. apply Qle_bool_false.
        apply Qlt_trans with 10%Q; assumption. }
    replace (Qle_bool (q * p) (- TWO_1024)) with false.
    2:{ symmetry. apply Qle_bool_false.
        apply Qlt_le_trans with 1%Q; [|assumption].
        apply Qlt_trans with 0%Q; [apply neg_TWO_1024_lt_0|reflexivity]. }
    rewrite toString_head_ge_1 by assumption.
    pose proof (Qfloor_ge_1 _ Hlo) as Hf.
    rewrite parseInt_pretty_head by assumption.
    rewrite guard_digit by (apply lead_digit_range; assumption).
    reflexivity.
Qed.

(** [getFirstDigit] returns on every finite positive number: a digit from 1
    to 9, or NaN. *)
Lemma getFirstDigit_returns (q : Q) :
  (0 < q)%Q ->
  exists d, getFirstDigit (Fin q) = Return d /\
            (d = ParsedNaN \/ exists n, d = Parsed n /\ (1 <= n <= 9)%N).
Proof.
  intros Hpos. destruct (Qlt_le_dec q 1) as [Hlt|Hge].
  - rewrite getFirstDigit_lt_1 by assumption.
    destruct (ceil_neg_log10_small q Hpos Hlt) as (_ & Hlo & _).
    destruct (Qle_bool _ _).
    + exists ParsedNaN. split; [reflexivity|left; reflexivity].
    + eexists. split; [reflexivity|]. right. eexists. split; [reflexivity|].
      pose proof (lead_digit_range _ (Qfloor_ge_1 _ Hlo)). lia.
  - rewrite getFirstDigit_ge_1 by assumption.
    eexists. split; [reflexivity|]. right. eexists. split; [reflexivity|].
    pose proof (lead_digit_range _ (Qfloor_ge_1 _ Hge)). lia.
Qed.

(** ** The logarithm-and-floor extraction of the specification *)

Lemma Qfloor_div_inject (q : Q) (m : Z) :
  0 < m -> Qfloor (q / inject_Z m) = Qfloor q / m.
Proof.
  intros Hm. destruct q as [n d]. destruct m as [|p|p]; try lia.
  unfold Qdiv, Qinv, Qmult, inject_Z, Qfloor. simpl.
  rewrite Z.mul_1_r, Pos2Z.inj_mul.
  rewrite Z.div_div by lia. reflexivity.
Qed.

Lemma log_floor_extract_ge_1 (a : Q) :
  (1 <= a)%Q -> log_floor_extract a = lead_digit (Qfloor a).
Proof.
  intros H. pose proof (Qfloor_ge_1 a H) as Hf.
  unfold log_floor_extract, lead_digit, floor_log10.
  replace (Qle_bool 1 a) with true by (symmetry; apply Qle_bool_iff; assumption).
  set (e := ilog10 _ _).
  assert (He : 0 <= e).
  { apply (ilog10_spec _ (Qfloor a)). split; [assumption|].
    apply log2_fuel. assumption. }
  assert (Heq : (a / Qpower 10 e == a / inject_Z (10 ^ e))%Q).
  { rewrite Qpower10_inject by assumption. reflexivity. }
  rewrite (Qfloor_comp _ _ Heq).
  apply Qfloor_div_inject. apply Z.pow_pos_nonneg; lia.
Qed.

Lemma Qmult_pos_r_inv (q p : Q) : (0 < p)%Q -> (0 < q * p)%Q -> (0 < q)%Q.
Proof.
  intros Hp Hqp. destruct (Qlt_le_dec 0 q) as [|Hle]; [assumption|exfalso].
  assert (H : (q * p <= 0 * p)%Q)
    by (apply Qmult_le_compat_r; [assumption|apply Qlt_le_weak; assumption]).
  rewrite Qmult_0_l in H. exact (Qlt_not_le _ _ Hqp H).
Qed.

(** On every finite number from 1e-308 upwards the text-based extraction of
    the code and the logarithm-and-floor extraction of the specification
    agree, and give a digit from 1 to 9. *)
Lemma getFirstDigit_log_floor (q : Q) :
  (1 <= q * Qpower 10 308)%Q ->
  getFirstDigit (Fin q) = Return (Parsed (Z.to_N (leading_digit_spec q)))
  /\ 1 <= leading_digit_spec q <= 9.
Proof.
  intros Hrange.
  assert (Hpos : (0 < q)%Q).
  { apply (Qmult_pos_r_inv q (Qpower 10 308)).
    - apply Qpower_0_lt. reflexivity.
    - apply Qlt_le_trans with 1%Q; [reflexivity|assumption]. }
  unfold leading_digit_spec. rewrite Qabs_pos_eq by assumption.
  destruct (Qlt_le_dec q 1) as [Hlt|Hge].
  - replace (Qle_bool 1 q) with false by (symmetry; apply Qle_bool_false; assumption).
    destruct (ceil_neg_log10_small q Hpos Hlt) as (Hk & Hlo & Hhi).
    rewrite getFirstDigit_lt_1 by assumption.
    rewrite log_floor_extract_ge_1 by assumption.
    replace (Qle_bool TWO_1024 _) with false.
    + split; [reflexivity|]. apply lead_digit_range, Qfloor_ge_1; assumption.
    + symmetry. apply Qle_bool_false.
      destruct q as [n d].
      assert (Hn : 0 < n) by (unfold Qlt in Hpos; simpl in Hpos; lia).
      assert (Hnd : n < Zpos d) by (unfold Qlt in Hlt; simpl in Hlt; lia).
      destruct (ceil_neg_log10_small_Z n d Hn Hnd) as (_ & _ & Hprev).
      set (k := Math_ceil_neg_log10 (n # d)) in *.
      assert (Hd : Zpos d <= n * 10 ^ 308).
      { rewrite Qpower10_inject in Hrange by lia.
        change 1%Q with (inject_Z 1) in Hrange.
        pose proof (proj1 (Qmult_inject_le n (10 ^ 308) 1 d) Hrange) as Hz.
        rewrite Z.mul_1_l in Hz. exact Hz. }
      assert (Hk308 : k <= 308).
      { destruct (Z_le_gt_dec k 308) as [|Hgt]; [assumption|exfalso].
        assert (10 ^ 308 <= 10 ^ (k - 1)) by (apply Z.pow_le_mono_r; lia).
        set (A := 10 ^ 308) in *. set (B := 10 ^ (k - 1)) in *. nia. }
      rewrite Qpower10_inject by lia. unfold TWO_1024. rewrite <- Zlt_Qlt.
      apply Z.le_lt_trans with (10 ^ 308).
      * apply Z.pow_le_mono_r; lia.
      * now vm_compute.
  - replace (Qle_bool 1 q) with true by (symmetry; apply Qle_bool_iff; assumption).
    rewrite getFirstDigit_ge_1 by assumption.
    rewrite log_floor_extract_ge_1 by assumption.
    split; [reflexivity|]. apply lead_digit_range, Qfloor_ge_1; assumption.
Qed.

(** ** Valid inputs *)

Lemma valid_number_inv (x : number) :
  is_valid_number x = true -> exists q, x = Fin q /\ (0 < q)%Q.
Proof.
  destruct x as [| | |q]; try discriminate. cbn. intros H%Qlt_bool_iff. eauto.
Qed.

Lemma getFirstDigit_non_finite (x : number) :
  Number_isFinite x = false -> getFirstDigit x = Throw NotFiniteError.
Proof. intros H. unfold getFirstDigit. rewrite H. reflexivity. Qed.

Lemma getFirstDigit_non_positive (q : Q) :
  (q <= 0)%Q -> getFirstDigit (Fin q) = Throw NonPositiveError.
Proof.
  intros H. unfold getFirstDigit. cbn [Number_isFinite negb js_le].
  replace (Qle_bool q 0) with true by (symmetry; apply Qle_bool_iff; assumption).
  reflexivity.
Qed.

Lemma getFirstDigit_invalid (x : number) :
  is_valid_number x = false -> getFirstDigit x = Throw (extraction_error x).
Proof.
  destruct x as [| | |q]; try (intros _; reflexivity).
  cbn [is_valid_number]. intros H%Qlt_bool_false.
  apply getFirstDigit_non_positive. assumption.
Qed.

Lemma getFirstDigit_valid (x : number) :
  is_valid_number x = true -> exists d, getFirstDigit x = Return d.
Proof.
  intros (q & -> & Hq)%valid_number_inv.
  destruct (getFirstDigit_returns q Hq) as (d & Hd & _). eauto.
Qed.

(** ** [numbers.map(getFirstDigit)] *)

Lemma Array_map_valid (numbers : list number) :
  forallb is_valid_number numbers = true ->
  exists ds, Array_map getFirstDigit numbers = Return ds /\
             length ds = length numbers.
Proof.
  induction numbers as [|x numbers IH]; intros H.
  - exists []. split; reflexivity.
  - cbn [forallb] in H. apply andb_true_iff in H as [Hx Hrest].
    destruct (getFirstDigit_valid x Hx) as (d & Hd).
    destruct (IH Hrest) as (ds & Hds & Hlen).
    exists (d :: ds). cbn [Array_map]. rewrite Hd, Hds. cbn.
    split; [reflexivity|]. rewrite Hlen. reflexivity.
Qed.

Lemma Array_map_first_throw (pre post : list number) (x : number) (e : Error) :
  forallb is_valid_number pre = true ->
  getFirstDigit x = Throw e ->
  Array_map getFirstDigit (pre ++ x :: post) = Throw e.
Proof.
  induction pre as [|y pre IH]; intros Hpre Hx.
  - cbn. rewrite Hx. reflexivity.
  - cbn [forallb] in Hpre. apply andb_true_iff in Hpre as [Hy Hrest].
    destruct (getFirstDigit_valid y Hy) as (d & Hd).
    cbn. rewrite Hd. cbn. rewrite (IH Hrest Hx). reflexivity.
Qed.

(** An array with an invalid element splits at its first invalid element. *)
Lemma first_invalid (numbers : list number) :
  existsb (fun x => negb (is_valid_number x)) numbers = true ->
  exists pre x post,
    numbers = pre ++ x :: post /\
    forallb is_valid_number pre = true /\ is_valid_number x = false.
Proof.
  induction numbers as [|y numbers IH]; [discriminate|].
  cbn [existsb]. destruct (is_valid_number y) eqn:Hy; cbn [negb orb].
  - intros H. destruct (IH H) as (pre & x & post & -> & Hpre & Hx).
    exists (y :: pre), x, post. cbn [forallb]. rewrite Hy, Hpre. auto.
  - intros _. exists [], y, numbers. auto.
Qed.

Lemma processBenfordLaw_nonempty (numbers : list number) (threshold : number)
    (benfordProbabilities : gmap string Q) :
  (0 < length numbers)%nat ->
  threshold_out_of_range threshold = false ->
  processBenfordLaw numbers threshold benfordProbabilities =
    let* firstDigits := Array_map getFirstDigit numbers in
    let counts := count_digits firstDigits in
    let probabilities := probabilities_of counts (length numbers) in
    Return {| isFollowingBenfordLaw :=
                isBenford probabilities threshold benfordProbabilities;
              firstDigitProbabilities := probabilities;
              firstDigitCounts := counts;
              firstDigitAccuracies :=
                accuracies_of probabilities benfordProbabilities |}.
Proof.
  intros Hlen Ht. unfold processBenfordLaw.
  destruct numbers; [cbn in Hlen; lia|].
  cbn [length Nat.eqb]. unfold threshold_out_of_range in Ht. rewrite Ht.
  reflexivity.
Qed.

(** ** The three mappings *)

Lemma sum_counts_insert (m : gmap string nat) (k : string) (c : nat) :
  m !! k = None -> sum_counts (<[k := c]> m) = (c + sum_counts m)%nat.
Proof.
  intros H. unfold sum_counts.
  rewrite map_fold_insert_L; [reflexivity| |assumption].
  intros. lia.
Qed.

Lemma sum_counts_count_step (m : gmap string nat) (d : parsed) :
  sum_counts (count_step m d) = S (sum_counts m).
Proof.
  unfold count_step. cbv zeta. set (k := String_of_parsed d).
  destruct (m !! k) as [c|] eqn:Hk; cbn [default from_option Datatypes.id].
  - assert (H1 : sum_counts m = (c + sum_counts (delete k m))%nat).
    { rewrite <- (insert_delete_id m k c Hk) at 1.
      apply sum_counts_insert, lookup_delete_eq. }
    assert (H2 : sum_counts (<[k := (c + 1)%nat]> m)
                 = (c + 1 + sum_counts (delete k m))%nat).
    { rewrite <- (insert_delete_eq m).
      apply sum_counts_insert, lookup_delete_eq. }
    lia.
  - rewrite sum_counts_insert by assumption. lia.
Qed.

Lemma sum_counts_foldl (ds : list parsed) (m : gmap string nat) :
  sum_counts (foldl count_step m ds) = (sum_counts m + length ds)%nat.
Proof.
  revert m. induction ds as [|d ds IH]; intros m; cbn [foldl length].
  - lia.
  - rewrite IH, sum_counts_count_step. lia.
Qed.

Lemma sum_counts_count_digits (ds : list parsed) :
  sum_counts (count_digits ds) = length ds.
Proof.
  unfold count_digits. rewrite sum_counts_foldl.
  unfold sum_counts. rewrite map_fold_empty. reflexivity.
Qed.

Lemma lookup_foldl_count_step (ds : list parsed) (m : gmap string nat) (key : string) :
  foldl count_step m ds !! key =
    match occurrences key ds with
    | O => m !! key
    | S n => Some (default 0 (m !! key) + S n)%nat
    end.
Proof.
  revert m. induction ds as [|d ds IH]; intros m.
  - reflexivity.
  - cbn [foldl]. rewrite IH. unfold occurrences. cbn [map count_occ].
    fold (occurrences key ds). unfold count_step.
    destruct (string_dec (String_of_parsed d) key) as [->|Hne].
    + rewrite lookup_insert_eq. cbn [default from_option Datatypes.id].
      destruct (occurrences key ds); f_equal; lia.
    + rewrite lookup_insert_ne by assumption. reflexivity.
Qed.

(** The counts mapping holds, for each key, the number of elements with that
    key, and has no entry for a key that never occurs. *)
Lemma lookup_count_digits (ds : list parsed) (key : string) :
  count_digits ds !! key =
    match occurrences key ds with
    | O => None
    | S n => Some (S n)
    end.
Proof.
  unfold count_digits. rewrite lookup_foldl_count_step, lookup_empty.
  reflexivity.
Qed.

Lemma occurrences_bound (key : string) (ds : list parsed) :
  (occurrences key ds <= length ds)%nat.
Proof.
  unfold occurrences.
  pose proof (count_occ_bound string_dec key (map String_of_parsed ds)) as H.
  rewrite length_map in H. exact H.
Qed.

Lemma probabilities_of_fmap (counts : gmap string nat) (totalCount : nat) :
  probabilities_of counts totalCount = (fun c => ratio c totalCount) <$> counts.
Proof.
  unfold probabilities_of.
  apply (map_fold_weak_ind
           (fun r m => r = (fun c => ratio c totalCount) <$> m)).
  - rewrite fmap_empty. reflexivity.
  - intros i x m r _ ->. rewrite fmap_insert. reflexivity.
Qed.

Lemma lookup_accuracies_of (probabilities benfordProbabilities : gmap string Q)
    (digit : string) :
  accuracies_of probabilities benfordProbabilities !! digit =
    match probabilities !! digit, benfordProbabilities !! digit with
    | Some probability, Some benfordProbability =>
        Some (Qabs (benfordProbability - probability))
    | _, _ => None
    end.
Proof.
  unfold accuracies_of.
  apply (map_fold_weak_ind
           (fun r m => r !! digit =
              match m !! digit, benfordProbabilities !! digit with
              | Some probability, Some benfordProbability =>
                  Some (Qabs (benfordProbability - probability))
              | _, _ => None
              end)).
  - rewrite !lookup_empty. reflexivity.
  - intros i x m r Hi IH.
    destruct (decide (i = digit)) as [->|Hne].
    + rewrite lookup_insert_eq. rewrite Hi in IH.
      destruct (benfordProbabilities !! digit).
      * rewrite lookup_insert_eq. reflexivity.
      * assumption.
    + rewrite (lookup_insert_ne m) by assumption.
      destruct (benfordProbabilities !! i).
      * rewrite lookup_insert_ne by assumption. assumption.
      * assumption.
Qed.

Lemma or_zero_default (v : option Q) : (or_zero v == default 0 v)%Q.
Proof.
  destruct v as [p|]; cbn; [|reflexivity].
  destruct (Qeq_bool p 0) eqn:E; [|reflexivity].
  apply Qeq_bool_eq in E. rewrite E. reflexivity.
Qed.

Lemma within_threshold_iff (probabilities : gmap string Q) (t : Q)
    (digit : string) (p : Q) :
  within_threshold probabilities (Fin t) (digit, p) = true <->
  (Qabs (default 0 (probabilities !! digit) - p) < t)%Q.
Proof.
  unfold within_threshold. cbn [fst snd js_lt].
  rewrite Qlt_bool_iff, or_zero_default. reflexivity.
Qed.

Lemma isBenford_iff (probabilities : gmap string Q) (threshold : number)
    (benfordProbabilities : gmap string Q) :
  isBenford probabilities threshold benfordProbabilities = true <->
  forall digit p, benfordProbabilities !! digit = Some p ->
                  within_threshold probabilities threshold (digit, p) = true.
Proof.
  unfold isBenford. rewrite forallb_forall. split.
  - intros H digit p Hp. apply H.
    apply list_elem_of_In, elem_of_map_to_list. assumption.
  - intros H [digit p] Hin. apply H.
    apply elem_of_map_to_list, list_elem_of_In. assumption.
Qed.

(** ** The analysis in binary64 *)

Lemma digit_of_ascii_range (c : ascii) (d : N) :
  digit_of_ascii c = Some d -> (d <= 9)%N.
Proof.
  unfold digit_of_ascii. cbv zeta.
  destruct ((48 <=? N_of_ascii c)%N && (N_of_ascii c <=? 57)%N) eqn:E; [|discriminate].
  intros [= <-]. apply andb_true_iff in E as [_ E%N.leb_le]. lia.
Qed.

Lemma parseInt_range (c : option ascii) (d : N) :
  parseInt c = Parsed d -> (d <= 9)%N.
Proof.
  unfold parseInt. destruct c as [c|]; [|discriminate].
  destruct (digit_of_ascii c) as [d'|] eqn:E; [|discriminate].
  intros [= <-]. eapply digit_of_ascii_range, E.
Qed.


Lemma double_range_check (p : parsed) :
  (forall d, p = Parsed d -> (d <= 9)%N) ->
  (Double.float_of_parsed p <? 1)%float || (9 <? Double.float_of_parsed p)%float = false ->
  is_digit_or_NaN p.
Proof.
  destruct p as [|d]; [intros; exact I|].
  intros Hd. specialize (Hd d eq_refl). cbn [is_digit_or_NaN].
  assert (Hc : (d = 0 \/ d = 1 \/ d = 2 \/ d = 3 \/ d = 4 \/ d = 5 \/ d = 6
                \/ d = 7 \/ d = 8 \/ d = 9)%N) by lia.
  repeat destruct Hc as [->|Hc]; try subst d; vm_compute; intros H;
    first [discriminate H | split; discriminate].
Qed.

Lemma double_getFirstDigit_inv (h : Double.host) (x : float) (d : parsed) :
  Double.getFirstDigit h x = Return d ->
  is_finite x = true /\ (x <=? 0)%float = false /\ is_digit_or_NaN d.
Proof.
  unfold Double.getFirstDigit.
  destruct (is_finite x); cbn [negb]; [|discriminate].
  destruct (x <=? 0)%float; [discriminate|]. cbv zeta.
  set (p := parseInt _).
  destruct (_ || _) eqn:E; [discriminate|].
  intros [= <-]. repeat split.
  apply double_range_check; [|exact E].
  intros d Hd. eapply parseInt_range, Hd.
Qed.

Lemma Array_map_Forall2 {A B} (f : A -> completion B) (l : list A) (ys : list B) :
  Array_map f l = Return ys <-> Forall2 (fun x y => f x = Return y) l ys.
Proof.
  revert ys. induction l as [|x l IH]; intros ys; cbn [Array_map].
  - split.
    + intros [= <-]. constructor.
    + intros H. inversion H. reflexivity.
  - split.
    + destruct (f x) as [y|e] eqn:Hx; cbn [bind]; [|discriminate].
      destruct (Array_map f l) as [ys'|e] eqn:Hl; cbn [bind]; [|discriminate].
      intros [= <-]. constructor; [assumption|]. apply IH. reflexivity.
    + intros H. inversion H as [|x' y l' ys' Hx Hl]; subst.
      rewrite Hx. cbn [bind]. apply IH in Hl. rewrite Hl. reflexivity.
Qed.

Lemma double_Array_map_digits (h : Double.host) (numbers : list float)
    (ds : list parsed) :
  Array_map (Double.getFirstDigit h) numbers = Return ds ->
  Forall is_digit_or_NaN ds /\ length ds = length numbers.
Proof.
  intros H%Array_map_Forall2. induction H as [|x d l ds Hx _ [IH1 IH2]].
  - split; [constructor|reflexivity].
  - split; [|cbn [length]; congruence].
    constructor; [|assumption].
    apply double_getFirstDigit_inv in Hx. apply Hx.
Qed.

Lemma key_not_inherited (d : parsed) :
  is_digit_or_NaN d -> String_of_parsed d ∉ Double.Object_prototype.
Proof.
  intros Hd. apply (bool_decide_eq_false _).
  destruct d as [|d]; [reflexivity|]. cbn [is_digit_or_NaN] in Hd.
  assert (Hc : (d = 1 \/ d = 2 \/ d = 3 \/ d = 4 \/ d = 5 \/ d = 6
                \/ d = 7 \/ d = 8 \/ d = 9)%N) by lia.
  repeat destruct Hc as [->|Hc]; try subst d; reflexivity.
Qed.

Lemma occurrences_pos_elem (key : string) (ds : list parsed) :
  occurrences key ds <> 0%nat -> exists d, In d ds /\ String_of_parsed d = key.
Proof.
  unfold occurrences. intros H.
  assert (Hin : In key (map String_of_parsed ds)).
  { apply (count_occ_In string_dec). lia. }
  apply in_map_iff in Hin as (d & Hd & Hin). eauto.
Qed.

Lemma occurrences_not_inherited (key : string) (ds : list parsed) :
  Forall is_digit_or_NaN ds -> occurrences key ds <> 0%nat ->
  key ∉ Double.Object_prototype.
Proof.
  intros Hds (d & Hin & <-)%occurrences_pos_elem.
  apply key_not_inherited. rewrite Forall_forall in Hds. apply Hds.
  apply list_elem_of_In. assumption.
Qed.

Lemma double_probabilities_of_fmap (counts : gmap string nat) (totalCount : nat) :
  Double.probabilities_of counts totalCount
  = (fun c => Double.ratio c totalCount) <$> counts.
Proof.
  unfold Double.probabilities_of.
  apply (map_fold_weak_ind
           (fun r m => r = (fun c => Double.ratio c totalCount) <$> m)).
  - rewrite fmap_empty. reflexivity.
  - intros i x m r _ ->. rewrite fmap_insert. reflexivity.
Qed.

(** The probabilities mapping holds, for each key, the quotient of its
    number of occurrences by the total, and nothing for a key that never
    occurs. *)
Lemma double_lookup_probabilities (ds : list parsed) (totalCount : nat) (key : string) :
  Double.probabilities_of (count_digits ds) totalCount !! key =
    match occurrences key ds with
    | O => None
    | S n => Some (Double.ratio (S n) totalCount)
    end.
Proof.
  rewrite double_probabilities_of_fmap, lookup_fmap, lookup_count_digits.
  destruct (occurrences key ds); reflexivity.
Qed.

Lemma double_lookup_accuracies_of (probabilities benfordProbabilities : gmap string float)
    (digit : string) :
  Double.accuracies_of probabilities benfordProbabilities !! digit =
    match probabilities !! digit with
    | Some probability =>
        match Double.get benfordProbabilities digit with
        | Double.Own benfordProbability =>
            Some (abs (benfordProbability - probability))%float
        | Double.Inherited => Some nan
        | Double.Undefined => None
        end
    | None => None
    end.
Proof.
  unfold Double.accuracies_of.
  apply (map_fold_weak_ind
           (fun r m => r !! digit =
              match m !! digit with
              | Some probability =>
                  match Double.get benfordProbabilities digit with
                  | Double.Own benfordProbability =>
                      Some (abs (benfordProbability - probability))%float
                  | Double.Inherited => Some nan
                  | Double.Undefined => None
                  end
              | None => None
              end)).
  - rewrite !lookup_empty. reflexivity.
  - intros i x m r Hi IH.
    destruct (decide (i = digit)) as [->|Hne].
    + rewrite lookup_insert_eq. rewrite Hi in IH.
      destruct (Double.get benfordProbabilities digit).
      * rewrite lookup_insert_eq. reflexivity.
      * rewrite lookup_insert_eq. reflexivity.
      * assumption.
    + rewrite (lookup_insert_ne m) by assumption.
      destruct (Double.get benfordProbabilities i).
      * rewrite lookup_insert_ne by assumption. assumption.
      * rewrite lookup_insert_ne by assumption. assumption.
      * assumption.
Qed.

Lemma double_get_own (o : gmap string float) (key : string) :
  key ∉ Double.Object_prototype ->
  Double.get o key = match o !! key with
                     | Some v => Double.Own v
                     | None => Double.Undefined
                     end.
Proof.
  intros H. unfold Double.get. destruct (o !! key); [reflexivity|].
  rewrite bool_decide_eq_false_2 by assumption. reflexivity.
Qed.

Lemma double_processBenfordLaw_Return_inv (h : Double.host) (numbers : list float)
    (threshold : float) (benfordProbabilities : gmap string float) (r : Double.report) :
  Double.processBenfordLaw h numbers threshold benfordProbabilities = Return r ->
  numbers <> [] /\ (threshold <=? 0)%float = false /\ (1 <=? threshold)%float = false /\
  exists ds,
    Array_map (Double.getFirstDigit h) numbers = Return ds /\
    let probabilities := Double.probabilities_of (count_digits ds) (length numbers) in
    r = {| Double.isFollowingBenfordLaw :=
             Double.isBenford probabilities threshold benfordProbabilities;
           Double.firstDigitProbabilities := probabilities;
           Double.firstDigitCounts := count_digits ds;
           Double.firstDigitAccuracies :=
             Double.accuracies_of probabilities benfordProbabilities |}.
Proof.
  unfold Double.processBenfordLaw.
  destruct numbers as [|x numbers]; [discriminate|]. cbn [length Nat.eqb].
  destruct (threshold <=? 0)%float; [discriminate|].
  destruct (1 <=? threshold)%float; [discriminate|]. cbn [orb].
  destruct (Array_map _ _) as [ds|e]; cbn [bind]; [|discriminate].
  intros [= <-]. repeat split; [discriminate|]. exists ds. split; reflexivity.
Qed.

(** ** Integers in binary64 *)

Lemma digits2_pos_size (m : positive) : digits2_pos m = Pos.size m.
Proof. induction m as [m IH|m IH|]; cbn; rewrite ?IH; reflexivity. Qed.

Lemma Prim2SF_finite_inv (x : float) (s : bool) (m : positive) (e : Z) :
  Prim2SF x = S754_finite s m e -> is_nan x = false /\ is_infinity x = false.
Proof.
  unfold Prim2SF. destruct (is_nan x); [discriminate|].
  destruct (is_zero x); [discriminate|].
  destruct (is_infinity x); [discriminate|]. split; reflexivity.
Qed.

Lemma Qpower2_inject (k : Z) : 0 <= k -> (Qpower 2 k == inject_Z (2 ^ k))%Q.
Proof.
  intros Hk. rewrite Zpower_Qpower by assumption. reflexivity.
Qed.

(** A number whose exact value is an integer [n >= 1] prints as [n]. *)
Lemma integer_value_of_exact (x : float) (n : Z) :
  (exact_value x == inject_Z n)%Q -> 1 <= n ->
  Double.integer_value x = Some n.
Proof.
  unfold exact_value, Double.integer_value. intros H Hn.
  assert (Hzero : ~ (0 == inject_Z n)%Q).
  { intros E. unfold Qeq in E. cbn in E. lia. }
  destruct (Prim2SF x) as [s|s| |s m e]; try contradiction.
  destruct (Z.leb_spec 0 e) as [He|He].
  - rewrite Qpower2_inject in H by assumption.
    rewrite <- inject_Z_mult in H.
    pose proof (proj1 (inject_Z_injective _ _) H) as HZ.
    f_equal. rewrite <- HZ. destruct s; cbn [cond_Zopp]; lia.
  - assert (Hpow : 0 < 2 ^ (- e)) by (apply Z.pow_pos_nonneg; lia).
    assert (HZ : cond_Zopp s (Zpos m) = n * 2 ^ (- e)).
    { apply (proj1 (inject_Z_injective _ _)).
      rewrite inject_Z_mult, <- H.
      rewrite <- Qpower2_inject by lia.
      rewrite <- Qmult_assoc, <- Qpower_plus by discriminate.
      replace (e + - e) with 0 by lia. cbn [Qpower]. ring. }
    assert (Hs : s = false).
    { destruct s; [|reflexivity]. cbn [cond_Zopp] in HZ. nia. }
    subst s. cbn [cond_Zopp] in *. rewrite HZ.
    rewrite Z.mod_mul by lia. cbn [Z.eqb]. rewrite Z.div_mul by lia. reflexivity.
Qed.

(** A number equal to an integer [n >= 1] is positive, with an exponent
    above -52 or with exponent -52 and a mantissa of 53 bits. *)
Lemma integer_value_inv (x : float) (n : Z) :
  Double.integer_value x = Some n -> 1 <= n ->
  exists m e,
    Prim2SF x = S754_finite false m e /\
    (-52 < e \/ (e = -52 /\ 2 ^ 52 <= Zpos m)).
Proof.
  unfold Double.integer_value. intros H Hn.
  pose proof (Prim2SF_valid x) as Hvalid.
  destruct (Prim2SF x) as [s|s| |s m e] eqn:E; try discriminate.
  - injection H as <-. lia.
  - exists m, e.
    destruct (Z.leb_spec 0 e) as [He|He].
    + injection H as <-. destruct s; cbn [cond_Zopp] in Hn.
      * assert (0 < 2 ^ e) by (apply Z.pow_pos_nonneg; lia). lia.
      * split; [reflexivity|lia].
    + destruct (Zpos m mod 2 ^ (- e) =? 0) eqn:Hmod; [|discriminate].
      injection H as <-.
      assert (Hpow : 0 < 2 ^ (- e)) by (apply Z.pow_pos_nonneg; lia).
      assert (Hs : s = false).
      { destruct s; [|reflexivity]. cbn [cond_Zopp] in Hn.
        assert (0 <= Zpos m / 2 ^ (- e)) by (apply Z.div_pos; lia). lia. }
      subst s. cbn [cond_Zopp] in Hn. split; [reflexivity|].
      assert (Hm : 2 ^ (- e) <= Zpos m).
      { destruct (Z.le_gt_cases (2 ^ (- e)) (Zpos m)) as [|Hlt]; [assumption|].
        rewrite Z.div_small in Hn by lia. lia. }
      cbn [valid_binary] in Hvalid. unfold bounded, canonical_mantissa in Hvalid.
      apply andb_true_iff in Hvalid as [Hcan _]. apply Z.eqb_eq in Hcan.
      unfold fexp in Hcan. rewrite digits2_pos_size in Hcan.
      assert (Hsize : Zpos (Pos.size m) <= 53).
      { change (Z.of_nat 53) with 53 in *. unfold prec in Hcan.
        change (Z.of_nat 53) with 53 in Hcan. lia. }
      assert (Hlt : Zpos m < 2 ^ 53).
      { apply Z.lt_le_trans with (2 ^ Zpos (Pos.size m)).
        - pose proof (Pos.size_gt m) as Hgt.
          apply Pos2Z.pos_lt_pos in Hgt. rewrite Pos2Z.inj_pow in Hgt. exact Hgt.
        - apply Z.pow_le_mono_r; lia. }
      assert (He52 : - e < 53).
      { apply (Z.pow_lt_mono_r_iff 2); lia. }
      destruct (Z.eq_dec e (-52)) as [->|Hne]; [right|left; lia].
      split; [reflexivity|]. exact Hm.
Qed.

Lemma digit_passes_range_check (d : Z) :
  1 <= d <= 9 ->
  (Double.float_of_parsed (Parsed (Z.to_N d)) <? 1)%float
  || (9 <? Double.float_of_parsed (Parsed (Z.to_N d)))%float = false.
Proof.
  intros Hd.
  assert (Hc : d = 1 \/ d = 2 \/ d = 3 \/ d = 4 \/ d = 5 \/ d = 6
               \/ d = 7 \/ d = 8 \/ d = 9) by lia.
  repeat destruct Hc as [->|Hc]; try subst d; vm_compute; reflexivity.
Qed.

Lemma Prim2SF_0 : Prim2SF 0 = S754_zero false.
Proof. vm_compute. reflexivity. Qed.
Lemma Prim2SF_1 : Prim2SF 1 = S754_finite false 4503599627370496 (-52).
Proof. vm_compute. reflexivity. Qed.
Lemma Prim2SF_infinity : Prim2SF infinity = S754_infinity false.
Proof. vm_compute. reflexivity. Qed.
Lemma Prim2SF_neg_infinity : Prim2SF neg_infinity = S754_infinity true.
Proof. vm_compute. reflexivity. Qed.


Lemma double_getFirstDigit_of_integer (h : Double.host) (x : float) (n : Z) :
  Double.integer_value x = Some n -> 1 <= n < 2 ^ 53 ->
  Double.getFirstDigit h x = Return (Parsed (Z.to_N (lead_digit n))).
Proof.
  intros Hint [Hlo Hhi].
  destruct (integer_value_inv x n Hint Hlo) as (m & e & E & He).
  destruct (Prim2SF_finite_inv x _ _ _ E) as [Hnan Hinf].
  assert (Habs : abs x = x).
  { apply Prim2SF_inj. rewrite abs_spec, E. reflexivity. }
  unfold Double.getFirstDigit.
  unfold is_finite. rewrite Hnan, Hinf. cbn [orb negb].
  replace (x <=? 0)%float with false
    by (rewrite leb_spec, E, Prim2SF_0; reflexivity).
  cbv zeta. rewrite Habs.
  replace (1 <=? x)%float with true.
  2:{ rewrite leb_spec, E, Prim2SF_1.
      unfold SFleb, SFcompare.
      destruct He as [He|[-> Hm]].
      - replace (-52 ?= e) with Lt by (symmetry; apply Z.compare_lt_iff; lia).
        reflexivity.
      - rewrite Z.compare_refl.
        change (Pos.compare_cont Eq 4503599627370496 m)
          with (4503599627370496 ?= m)%positive.
        destruct (4503599627370496 ?= m)%positive eqn:Hc; try reflexivity.
        apply Pos.compare_gt_iff in Hc.
        apply Pos2Z.pos_lt_pos in Hc.
        change (2 ^ 52) with 4503599627370496 in Hm. clear -Hc Hm. lia. }
  unfold Double.Number_toString. rewrite Hnan.
  replace (x =? infinity)%float with false
    by (rewrite FloatAxioms.eqb_spec, E, Prim2SF_infinity; reflexivity).
  replace (x =? neg_infinity)%float with false
    by (rewrite FloatAxioms.eqb_spec, E, Prim2SF_neg_infinity; reflexivity).
  rewrite Hint.
  replace (Z.abs n <? 2 ^ 53) with true
    by (symmetry; apply Z.ltb_lt; clear -Hlo Hhi; lia).
  assert (Hpretty : pretty n = pretty (Z.to_N n)).
  { destruct n as [|p|p]; try (clear -Hlo; lia). reflexivity. }
  rewrite Hpretty, parseInt_pretty_head by assumption.
  rewrite digit_passes_range_check by (apply lead_digit_range; assumption).
  reflexivity.
Qed.


Lemma double_getFirstDigit_1e_11 (h : Double.host) :
  answers_at_1e_11 h -> Double.getFirstDigit h 1e-11 = Throw InvalidDigitError.
Proof.
  intros (Hlog & Hceil & Hpow & Htext). unfold Double.getFirstDigit.
  change (is_finite 1e-11) with true.
  change (1e-11 <=? 0)%float with false.
  change (abs 1e-11) with 1e-11%float.
  change (1 <=? 1e-11)%float with false.
  cbn [negb]. cbv zeta.
  rewrite Hlog. change (- -11)%float with 11%float. rewrite Hceil, Hpow.
  change (1e-11 * 1e11)%float with 0.9999999999999999%float.
  unfold Double.Number_toString.
  change (is_nan 0.9999999999999999) with false.
  change (0.9999999999999999 =? infinity)%float with false.
  change (0.9999999999999999 =? neg_infinity)%float with false.
  change (Double.integer_value 0.9999999999999999) with (@None Z).
  cbv iota. rewrite Htext. reflexivity.
Qed.

(** ** Rounding of a quotient of integers *)

Lemma Zpos_iter_xO (m d : positive) :
  Zpos (Pos.iter xO m d) = Zpos m * 2 ^ Zpos d.
Proof.
  induction d as [|d IH] using Pos.peano_ind.
  - cbn [Pos.iter]. lia.
  - rewrite Pos.iter_succ, Pos2Z.inj_succ, Z.pow_succ_r by lia.
    rewrite Pos2Z.inj_xO, IH. lia.
Qed.

Lemma size_iter_xO (m d : positive) :
  Pos.size (Pos.iter xO m d) = (Pos.size m + d)%positive.
Proof.
  induction d as [|d IH] using Pos.peano_ind.
  - cbn [Pos.iter Pos.size]. lia.
  - rewrite Pos.iter_succ. cbn [Pos.size]. rewrite IH. lia.
Qed.

Lemma size_bounds (m : positive) :
  2 ^ (Zpos (Pos.size m) - 1) <= Zpos m < 2 ^ Zpos (Pos.size m).
Proof.
  split.
  - pose proof (Pos.size_le m) as H.
    assert (H' : 2 ^ Zpos (Pos.size m) <= 2 * Zpos m).
    { change (2 * Zpos m) with (Zpos m~0). rewrite <- Pos2Z.inj_pow.
      apply Pos2Z.pos_le_pos. exact H. }
    replace (Zpos (Pos.size m)) with (Z.succ (Zpos (Pos.size m) - 1)) in H' by lia.
    rewrite Z.pow_succ_r in H' by lia. lia.
  - pose proof (Pos.size_gt m) as H.
    apply Pos2Z.pos_lt_pos in H. rewrite Pos2Z.inj_pow in H. exact H.
Qed.

(** A mantissa of 53 bits with a small exponent is left as it is by the
    rounding to binary64. *)
Lemma binary_round_aux_53 (m : positive) (e : Z) :
  Pos.size m = 53%positive -> -1074 <= e <= 971 ->
  binary_round_aux prec emax false (Zpos m) e loc_Exact = S754_finite false m e.
Proof.
  intros Hm He. unfold binary_round_aux, shr_fexp, shr_record_of_loc.
  cbn [Zdigits2]. rewrite digits2_pos_size, Hm.
  unfold fexp, emin, prec, emax.
  change (Z.of_nat 53) with 53. change (Z.of_nat 1024) with 1024.
  replace (Z.max (53 + e - 53) (3 - 1024 - 53) - e) with 0 by lia.
  cbn [shr shr_m loc_of_shr_record round_nearest_even Zdigits2].
  rewrite digits2_pos_size, Hm.
  replace (Z.max (53 + e - 53) (3 - 1024 - 53) - e) with 0 by lia.
  cbn [shr shr_m].
  replace (e <=? 1024 - 53) with true by (symmetry; apply Z.leb_le; lia).
  reflexivity.
Qed.

(** The binary64 value of an integer from 1 to 2^53 - 1: a mantissa of 53
    bits, the integer shifted to the left. *)
Lemma Prim2SF_float_of_Z (c : positive) :
  Zpos c < 2 ^ 53 ->
  exists (m : positive) (k : Z),
    Prim2SF (Double.float_of_Z (Zpos c)) = S754_finite false m (- k) /\
    Pos.size m = 53%positive /\ 0 <= k <= 52 /\ Zpos m = Zpos c * 2 ^ k.
Proof.
  intros Hc. unfold Double.float_of_Z.
  pose proof (size_bounds c) as Hsize.
  assert (Hd : Zpos (Pos.size c) <= 53).
  { destruct (Z.le_gt_cases (Zpos (Pos.size c)) 53) as [|Hgt]; [assumption|exfalso].
    assert (2 ^ 53 <= 2 ^ (Zpos (Pos.size c) - 1)) by (apply Z.pow_le_mono_r; lia).
    lia. }
  assert (Hround : exists (m : positive) (k : Z),
             binary_normalize prec emax (Zpos c) 0 false = S754_finite false m (- k) /\
             Pos.size m = 53%positive /\ 0 <= k <= 52 /\ Zpos m = Zpos c * 2 ^ k).
  { cbn [binary_normalize]. unfold binary_round, shl_align.
    rewrite digits2_pos_size. unfold fexp, emin, prec, emax.
    change (Z.of_nat 53) with 53. change (Z.of_nat 1024) with 1024.
    replace (Z.max (Zpos (Pos.size c) + 0 - 53) (3 - 1024 - 53) - 0)
      with (Zpos (Pos.size c) - 53) by lia.
    replace (Z.max (Zpos (Pos.size c) + 0 - 53) (3 - 1024 - 53))
      with (Zpos (Pos.size c) - 53) by lia.
    destruct (Zpos (Pos.size c) - 53) as [|d|d] eqn:Hk; [|lia|].
    - exists c, 0.
      assert (Hs : Pos.size c = 53%positive) by lia.
      split; [|split; [|split]].
      + apply (binary_round_aux_53 c 0); [assumption|lia].
      + assumption.
      + lia.
      + lia.
    - exists (Pos.iter xO c d), (Zpos d).
      assert (Hs : Pos.size (Pos.iter xO c d) = 53%positive)
        by (rewrite size_iter_xO; lia).
      split; [|split; [|split]].
      + replace (Zpos (Pos.size c) - 53) with (- Zpos d) by lia.
        apply binary_round_aux_53; [assumption|lia].
      + assumption.
      + lia.
      + apply Zpos_iter_xO. }
  destruct Hround as (m & k & Hn & Hm & Hk & Hv).
  exists m, k. rewrite Hn. split; [|auto].
  apply Prim2SF_SF2Prim. cbn [valid_binary]. unfold bounded, canonical_mantissa.
  rewrite digits2_pos_size, Hm. unfold fexp, emin, prec, emax.
  change (Z.of_nat 53) with 53. change (Z.of_nat 1024) with 1024.
  apply andb_true_iff. split; [apply Z.eqb_eq|apply Z.leb_le]; lia.
Qed.

Lemma new_location_spec (d r : Z) :
  0 < d -> 0 <= r < d -> location_of (new_location d r) r d.
Proof.
  intros Hd Hr. unfold new_location, new_location_even, new_location_odd.
  destruct (Z.even d) eqn:Heven.
  - destruct (Z.eqb_spec r 0) as [->|Hne]; [reflexivity|].
    cbn [location_of].
    destruct (Z.compare_spec (2 * r) d); cbn [location_of]; lia.
  - destruct (Z.eqb_spec r 0) as [->|Hne]; [reflexivity|].
    assert (Hodd : Z.odd d = true) by (rewrite <- Z.negb_even, Heven; reflexivity).
    apply Z.odd_spec in Hodd as [j Hj].
    destruct (Z.compare_spec (2 * r + 1) d); cbn [location_of]; lia.
Qed.

Lemma size_of_range (p : positive) (n : Z) :
  2 ^ (n - 1) <= Zpos p < 2 ^ n -> 1 <= n -> Zpos (Pos.size p) = n.
Proof.
  intros [Hlo Hhi] Hn. pose proof (size_bounds p) as [Slo Shi].
  destruct (Z.lt_trichotomy (Zpos (Pos.size p)) n) as [Hlt|[Heq|Hgt]]; [|assumption|].
  - exfalso.
    assert (2 ^ Zpos (Pos.size p) <= 2 ^ (n - 1)) by (apply Z.pow_le_mono_r; lia).
    lia.
  - exfalso.
    assert (2 ^ n <= 2 ^ (Zpos (Pos.size p) - 1)) by (apply Z.pow_le_mono_r; lia).
    lia.
Qed.

(** The last step of the rounding: a mantissa from 2^52 to 2^53 is kept, or
    halved when it is 2^53. *)
Lemma renormalize (p : positive) (e : Z) :
  2 ^ 52 <= Zpos p <= 2 ^ 53 -> -1074 <= e <= 900 ->
  exists (M : positive) (E : Z),
    (let '(mrs, e') := shr_fexp prec emax (Zpos p) e loc_Exact in
     match shr_m mrs with
     | Z0 => S754_zero false
     | Zpos m => if e' <=? emax - prec then S754_finite false m e'
                 else S754_infinity false
     | Zneg _ => S754_nan
     end) = S754_finite false M E /\
    e <= E <= e + 1 /\ Zpos M * 2 ^ (E - e) = Zpos p.
Proof.
  intros [Hlo Hhi] He.
  destruct (Z.eq_dec (Zpos p) (2 ^ 53)) as [Heq|Hne].
  - assert (Hp : p = 9007199254740992%positive) by (change (2 ^ 53) with 9007199254740992 in Heq; lia).
    subst p. exists 4503599627370496%positive, (e + 1).
    unfold shr_fexp, shr_record_of_loc. cbn [Zdigits2].
    replace (fexp prec emax (Zpos (digits2_pos 9007199254740992) + e) - e) with 1.
    2:{ unfold fexp, emin, prec, emax.
        change (Zpos (digits2_pos 9007199254740992)) with 54.
        change (Z.of_nat 53) with 53. change (Z.of_nat 1024) with 1024. lia. }
    cbn [shr iter_pos shr_1 shr_m orb].
    unfold prec, emax. change (Z.of_nat 53) with 53. change (Z.of_nat 1024) with 1024.
    replace (e + 1 <=? 1024 - 53) with true by (symmetry; apply Z.leb_le; lia).
    split; [reflexivity|]. split; [lia|].
    replace (e + 1 - e) with 1 by lia. reflexivity.
  - assert (Hs : Zpos (Pos.size p) = 53) by (apply size_of_range; lia).
    exists p, e.
    unfold shr_fexp, shr_record_of_loc. cbn [Zdigits2].
    rewrite digits2_pos_size, Hs.
    unfold fexp, emin, prec, emax.
    change (Z.of_nat 53) with 53. change (Z.of_nat 1024) with 1024.
    replace (Z.max (53 + e - 53) (3 - 1024 - 53) - e) with 0 by lia.
    cbn [shr shr_m].
    replace (e <=? 1024 - 53) with true by (symmetry; apply Z.leb_le; lia).
    split; [reflexivity|]. split; [lia|].
    rewrite Z.sub_diag. lia.
Qed.

Lemma first_shift_53 (q : positive) (e : Z) (l : location) :
  Zpos (Pos.size q) = 53 -> -1074 <= e ->
  shr_fexp prec emax (Zpos q) e l = (shr_record_of_loc (Zpos q) l, e).
Proof.
  intros Hs He. unfold shr_fexp. cbn [Zdigits2]. rewrite digits2_pos_size, Hs.
  unfold fexp, emin, prec, emax.
  change (Z.of_nat 53) with 53. change (Z.of_nat 1024) with 1024.
  replace (Z.max (53 + e - 53) (3 - 1024 - 53) - e) with 0 by lia.
  reflexivity.
Qed.

Lemma first_shift_54 (q : positive) (e : Z) (l : location) :
  Zpos (Pos.size q) = 54 -> -1074 <= e ->
  shr_fexp prec emax (Zpos q) e l = (shr_1 (shr_record_of_loc (Zpos q) l), e + 1).
Proof.
  intros Hs He. unfold shr_fexp. cbn [Zdigits2]. rewrite digits2_pos_size, Hs.
  unfold fexp, emin, prec, emax.
  change (Z.of_nat 53) with 53. change (Z.of_nat 1024) with 1024.
  replace (Z.max (54 + e - 53) (3 - 1024 - 53) - e) with 1 by lia.
  reflexivity.
Qed.

Lemma round_nearest_even_53 (q : positive) (l : location) (r d : Z) :
  0 < d -> 0 <= r < d -> location_of l r d ->
  exists q' : positive,
    round_nearest_even (shr_m (shr_record_of_loc (Zpos q) l))
                       (loc_of_shr_record (shr_record_of_loc (Zpos q) l)) = Zpos q' /\
    Zpos q <= Zpos q' <= Zpos q + 1 /\
    2 * Z.abs (Zpos q' * d - (Zpos q * d + r)) <= d.
Proof.
  intros Hd Hr Hl.
  destruct l as [|[| |]]; cbn [location_of] in Hl;
    cbn [shr_record_of_loc shr_m loc_of_shr_record round_nearest_even].
  - exists q. split; [reflexivity|]. lia.
  - destruct (Z.even (Zpos q)).
    + exists q. split; [reflexivity|]. lia.
    + exists (q + 1)%positive. rewrite Pos2Z.inj_add. split; [reflexivity|]. lia.
  - exists q. split; [reflexivity|]. lia.
  - exists (q + 1)%positive. rewrite Pos2Z.inj_add. split; [reflexivity|]. lia.
Qed.

Lemma round_nearest_even_54 (q : positive) (l : location) (r d : Z) :
  0 < d -> 0 <= r < d -> location_of l r d -> 2 <= Zpos q ->
  exists q' : positive,
    (let mrs := shr_1 (shr_record_of_loc (Zpos q) l) in
     round_nearest_even (shr_m mrs) (loc_of_shr_record mrs)) = Zpos q' /\
    Zpos q - 1 <= 2 * Zpos q' <= Zpos q + 1 /\
    Z.abs (2 * Zpos q' * d - (Zpos q * d + r)) <= d.
Proof.
  intros Hd Hr Hl Hq. cbv zeta.
  destruct q as [p|p|]; [| |lia].
  - (* an odd mantissa: a tie when the division is exact, upwards otherwise *)
    pose proof (Pos2Z.inj_xI p) as Hodd.
    assert (Hup : Zpos (p + 1) = Zpos p + 1) by apply Pos2Z.inj_add.
    destruct l as [|[| |]]; cbn [location_of] in Hl;
      cbn [shr_record_of_loc shr_1 orb shr_m loc_of_shr_record round_nearest_even].
    + destruct (Z.even (Zpos p)).
      * exists p. split; [reflexivity|]. rewrite Hodd. lia.
      * exists (p + 1)%positive. split; [rewrite Hup; reflexivity|].
        rewrite Hodd, Hup. lia.
    + exists (p + 1)%positive. split; [rewrite Hup; reflexivity|].
      rewrite Hodd, Hup. lia.
    + exists (p + 1)%positive. split; [rewrite Hup; reflexivity|].
      rewrite Hodd, Hup. lia.
    + exists (p + 1)%positive. split; [rewrite Hup; reflexivity|].
      rewrite Hodd, Hup. lia.
  - (* an even mantissa: downwards *)
    pose proof (Pos2Z.inj_xO p) as Heven.
    destruct l as [|[| |]]; cbn [location_of] in Hl;
      cbn [shr_record_of_loc shr_1 orb shr_m loc_of_shr_record round_nearest_even];
      exists p; (split; [reflexivity|]); rewrite Heven; lia.
Qed.

(** Rounding the quotient [q + r/d], with [q] of 53 or 54 bits, to
    binary64: the result is within a relative error of 2^-53. *)
Lemma binary_round_aux_quotient (q : positive) (e : Z) (l : location) (r d : Z) :
  0 < d -> 0 <= r < d -> location_of l r d ->
  2 ^ 52 <= Zpos q < 2 ^ 54 -> -1074 <= e <= 800 ->
  exists (M : positive) (E : Z),
    binary_round_aux prec emax false (Zpos q) e l = S754_finite false M E /\
    e <= E <= e + 2 /\
    Z.abs (Zpos M * 2 ^ (E - e) * d - (Zpos q * d + r)) * 2 ^ 53
    <= Zpos q * d + r.
Proof.
  intros Hd Hr Hl Hq He. unfold binary_round_aux.
  destruct (Z.lt_ge_cases (Zpos q) (2 ^ 53)) as [Hsmall|Hbig].
  - assert (Hs : Zpos (Pos.size q) = 53) by (apply size_of_range; lia).
    rewrite first_shift_53 by (assumption || lia).
    destruct (round_nearest_even_53 q l r d Hd Hr Hl) as (q' & -> & Hb & Herr).
    destruct (renormalize q' e) as (M & E & Hres & HE & HM); [lia|lia|].
    exists M, E. split; [exact Hres|]. split; [lia|].
    rewrite HM.
    assert (Hqd : 2 ^ 52 * d <= Zpos q * d) by (apply Z.mul_le_mono_nonneg_r; lia).
    change (2 ^ 53) with (2 * 2 ^ 52). lia.
  - assert (Hs : Zpos (Pos.size q) = 54) by (apply size_of_range; lia).
    rewrite first_shift_54 by (assumption || lia).
    destruct (round_nearest_even_54 q l r d Hd Hr Hl) as (q' & Hq' & Hb & Herr);
      [lia|].
    cbv zeta in Hq'. rewrite Hq'.
    destruct (renormalize q' (e + 1)) as (M & E & Hres & HE & HM).
    { change (2 ^ 53) with (2 * 2 ^ 52) in *. change (2 ^ 54) with (4 * 2 ^ 52) in *. lia. }
    { lia. }
    exists M, E. split; [exact Hres|]. split; [lia|].
    replace (E - e) with (Z.succ (E - (e + 1))) by lia.
    rewrite Z.pow_succ_r by lia.
    replace (Zpos M * (2 * 2 ^ (E - (e + 1)))) with (2 * (Zpos M * 2 ^ (E - (e + 1)))) by lia.
    rewrite HM.
    assert (Hqd : 2 ^ 53 * d <= Zpos q * d) by (apply Z.mul_le_mono_nonneg_r; lia).
    lia.
Qed.

(** The quotient of two integers from 1 to 2^53 - 1 in binary64: a finite
    positive number, with the mantissa and exponent of a rounding of the
    exact quotient. *)
Lemma quotient_rounded (c N : positive) :
  Zpos c < 2 ^ 53 -> Zpos N < 2 ^ 53 ->
  exists (M : positive) (E e T S d : Z),
    Prim2SF (Double.float_of_Z (Zpos c) / Double.float_of_Z (Zpos N))%float
    = S754_finite false M E /\
    -105 <= e <= -1 /\ e <= E /\ 0 < d /\ 0 < S /\
    T = Zpos M * 2 ^ (E - e) /\
    Z.abs (T * d - S) * 2 ^ 53 <= S /\
    (inject_Z (Zpos c) / inject_Z (Zpos N) == inject_Z S / inject_Z d * Qpower 2 e)%Q.
Proof.
  intros Hc HN.
  destruct (Prim2SF_float_of_Z c Hc) as (m1 & k1 & E1 & Hs1 & Hk1 & Hm1).
  destruct (Prim2SF_float_of_Z N HN) as (m2 & k2 & E2 & Hs2 & Hk2 & Hm2).
  rewrite div_spec, E1, E2. unfold SF64div, SFdiv, SFdiv_core_binary.
  cbn [Zdigits2 xorb].
  rewrite (digits2_pos_size m1), (digits2_pos_size m2), Hs1, Hs2.
  unfold fexp, emin, prec, emax.
  change (Z.of_nat 53) with 53. change (Z.of_nat 1024) with 1024.
  replace (Z.min (Z.max (53 + - k1 - (53 + - k2) - 53) (3 - 1024 - 53)) (- k1 - - k2))
    with (k2 - k1 - 53) by lia.
  replace (- k1 - - k2 - (k2 - k1 - 53)) with 53 by lia.
  rewrite Z.shiftl_mul_pow2 by lia.
  pose proof (Z.div_eucl_eq (Zpos m1 * 2 ^ 53) (Zpos m2) ltac:(lia)) as Hdiv.
  pose proof (Z.mod_pos_bound (Zpos m1 * 2 ^ 53) (Zpos m2) ltac:(lia)) as Hmod.
  unfold Z.modulo in Hmod.
  destruct (Z.div_eucl (Zpos m1 * 2 ^ 53) (Zpos m2)) as [q r].
  pose proof (size_bounds m1) as B1. pose proof (size_bounds m2) as B2.
  rewrite Hs1 in B1. rewrite Hs2 in B2.
  change (2 ^ (53 - 1)) with (2 ^ 52) in *.
  assert (Hq : 2 ^ 52 <= q < 2 ^ 54).
  { split.
    - destruct (Z.le_gt_cases (2 ^ 52) q) as [|Hlt]; [assumption|exfalso].
      assert (Zpos m2 * q <= Zpos m2 * (2 ^ 52 - 1)) by (apply Z.mul_le_mono_nonneg_l; lia).
      assert (2 ^ 52 * 2 ^ 53 <= Zpos m1 * 2 ^ 53) by (apply Z.mul_le_mono_nonneg_r; lia).
      assert (Zpos m2 * 2 ^ 52 < 2 ^ 53 * 2 ^ 52) by (apply Z.mul_lt_mono_pos_r; lia).
      lia.
    - destruct (Z.lt_ge_cases q (2 ^ 54)) as [|Hge]; [assumption|exfalso].
      assert (2 ^ 52 * 2 ^ 54 <= Zpos m2 * q).
      { apply Z.mul_le_mono_nonneg; lia. }
      assert (Zpos m1 * 2 ^ 53 < 2 ^ 53 * 2 ^ 53) by (apply Z.mul_lt_mono_pos_r; lia).
      change (2 ^ 52 * 2 ^ 54) with (2 ^ 53 * 2 ^ 53) in *. lia. }
  destruct q as [|q|q]; [lia| |lia].
  destruct (binary_round_aux_quotient q (k2 - k1 - 53) (new_location (Zpos m2) r)
              r (Zpos m2)) as (M & E & Hres & HE & Herr);
    [lia|lia|apply new_location_spec; lia|assumption|lia|].
  exists M, E, (k2 - k1 - 53), (Zpos M * 2 ^ (E - (k2 - k1 - 53))),
         (Zpos m1 * 2 ^ 53), (Zpos m2).
  split; [exact Hres|]. split; [lia|]. split; [lia|]. split; [lia|].
  split; [apply Z.mul_pos_pos; lia|]. split; [reflexivity|]. split.
  - replace (Zpos q * Zpos m2 + r) with (Zpos m1 * 2 ^ 53) in Herr by lia.
    exact Herr.
  - rewrite Hm1, Hm2.
    assert (P1 : 0 < 2 ^ k1) by (apply Z.pow_pos_nonneg; lia).
    assert (P2 : 0 < 2 ^ k2) by (apply Z.pow_pos_nonneg; lia).
    replace (k2 - k1 - 53) with (k2 + (- k1 + - 53)) by lia.
    rewrite !Qpower_plus by discriminate.
    rewrite !Qpower_opp, !Qpower2_inject by lia.
    rewrite !inject_Z_mult.
    assert (N1 : ~ (inject_Z (2 ^ k1) == 0)%Q).
    { intros H0. unfold Qeq in H0. cbn in H0. lia. }
    assert (N2 : ~ (inject_Z (2 ^ k2) == 0)%Q).
    { intros H0. unfold Qeq in H0. cbn in H0. lia. }
    assert (N3 : ~ (inject_Z (2 ^ 53) == 0)%Q) by discriminate.
    assert (N4 : ~ (inject_Z (Zpos N) == 0)%Q) by discriminate.
    assert (H53 : (Qpower 2 (-53) == / inject_Z (2 ^ 53))%Q) by reflexivity.
    rewrite H53. field. repeat split; assumption.
Qed.

Lemma Qpower2_pos (e : Z) : (0 < Qpower 2 e)%Q.
Proof. apply Qpower_0_lt. reflexivity. Qed.

Lemma Prim2SF_finite_nonzero (x : float) (s : bool) (m : positive) (e : Z) :
  Prim2SF x = S754_finite s m e -> is_zero x = false.
Proof.
  unfold Prim2SF. destruct (is_nan x); [discriminate|].
  destruct (is_zero x); [discriminate|reflexivity].
Qed.

(** The quotient of two integers from 1 to 2^53 - 1, computed in binary64,
    is a number that is neither NaN nor 0 and is within a relative error of
    2^-53 of the exact quotient. *)
Lemma quotient_error (c N : positive) :
  Zpos c < 2 ^ 53 -> Zpos N < 2 ^ 53 ->
  let p := (Double.float_of_Z (Zpos c) / Double.float_of_Z (Zpos N))%float in
  is_nan p = false /\ is_zero p = false /\
  (Qabs (exact_value p - inject_Z (Zpos c) / inject_Z (Zpos N))
   <= inject_Z (Zpos c) / inject_Z (Zpos N) * (1 # 9007199254740992))%Q.
Proof.
  intros Hc HN p.
  destruct (quotient_rounded c N Hc HN)
    as (M & E & e & T & S & d & Hp & He & HE & Hd & HS & HT & Herr & Hv).
  fold p in Hp.
  split; [apply (Prim2SF_finite_inv p _ _ _ Hp)|].
  split; [apply (Prim2SF_finite_nonzero p _ _ _ Hp)|].
  unfold exact_value. rewrite Hp. cbn [cond_Zopp]. rewrite Hv.
  set (P := Qpower 2 e).
  assert (HP : (0 < P)%Q) by apply Qpower2_pos.
  assert (Hu : (inject_Z (Zpos M) * Qpower 2 E == inject_Z T * P)%Q).
  { replace E with ((E - e) + e) at 1 by lia.
    rewrite Qpower_plus by discriminate.
    rewrite Qpower2_inject by lia. subst T. rewrite inject_Z_mult.
    unfold P. ring. }
  rewrite Hu.
  assert (Nd : ~ (inject_Z d == 0)%Q).
  { intros H0. unfold Qeq in H0. cbn in H0. lia. }
  assert (Hd' : (0 < inject_Z d)%Q).
  { unfold Qlt. cbn. lia. }
  assert (HK : (0 <= P / inject_Z d)%Q).
  { apply Qlt_le_weak. apply Qlt_shift_div_l; [assumption|].
    rewrite Qmult_0_l. assumption. }
  assert (E1 : (inject_Z T * P - inject_Z S / inject_Z d * P
                == P / inject_Z d * inject_Z (T * d - S))%Q).
  { unfold Z.sub. rewrite inject_Z_plus, inject_Z_opp, inject_Z_mult.
    field. assumption. }
  assert (E2 : (inject_Z S / inject_Z d * P * (1 # 9007199254740992)
                == P / inject_Z d * (inject_Z S * (1 # 9007199254740992)))%Q).
  { field. assumption. }
  rewrite E1, E2, Qabs_Qmult, (Qabs_pos _ HK).
  apply Qmult_le_compat_nonneg; [split; [assumption|apply Qle_refl]|].
  split; [apply Qabs_nonneg|].
  change (Qabs (inject_Z (T * d - S))) with (inject_Z (Z.abs (T * d - S))).
  unfold Qle. cbn [Qnum Qden inject_Z Qmult].
  change (Zpos (1 * 9007199254740992)) with (2 ^ 53).
  lia.
Qed.

Lemma sum_exact_insert (m : gmap string float) (k : string) (p : float) :
  m !! k = None ->
  (sum_exact (<[k := p]> m) == exact_value p + sum_exact m)%Q.
Proof.
  intros H. unfold sum_exact.
  apply (map_fold_insert Qeq (fun _ v acc => (exact_value v + acc)%Q));
    [| |assumption].
  - intros _ z x y Hxy. rewrite Hxy. reflexivity.
  - intros. ring.
Qed.

Lemma quotient_error_nat (c N : nat) :
  (1 <= c)%nat -> Z.of_nat c < 2 ^ 53 -> (1 <= N)%nat -> Z.of_nat N < 2 ^ 53 ->
  is_nan (Double.ratio c N) = false /\ is_zero (Double.ratio c N) = false /\
  (Qabs (exact_value (Double.ratio c N) - inject_Z (Z.of_nat c) / inject_Z (Z.of_nat N))
   <= inject_Z (Z.of_nat c) / inject_Z (Z.of_nat N) * (1 # 9007199254740992))%Q.
Proof.
  intros Hc1 Hc HN1 HN. unfold Double.ratio, Double.float_of_nat.
  destruct (Z.of_nat c) as [|pc|pc] eqn:Ec; try lia.
  destruct (Z.of_nat N) as [|pn|pn] eqn:En; try lia.
  apply quotient_error; assumption.
Qed.

(** The exact sum of the quotients [c/N], rounded to binary64, of counts
    [c] whose sum is [S]: within a relative error of 2^-53 of [S/N]. *)
Lemma sum_exact_quotients (counts : gmap string nat) (N : nat) :
  (1 <= N)%nat -> Z.of_nat N < 2 ^ 53 ->
  map_Forall (fun _ c => (1 <= c)%nat /\ Z.of_nat c < 2 ^ 53) counts ->
  (Qabs (sum_exact ((fun c => Double.ratio c N) <$> counts)
         - inject_Z (Z.of_nat (sum_counts counts)) / inject_Z (Z.of_nat N))
   <= inject_Z (Z.of_nat (sum_counts counts)) / inject_Z (Z.of_nat N)
      * (1 # 9007199254740992))%Q.
Proof.
  intros HN1 HN.
  assert (NN : ~ (inject_Z (Z.of_nat N) == 0)%Q).
  { intros H0. unfold Qeq in H0. cbn in H0. lia. }
  induction counts as [|k c m Hk IH] using map_ind; intros Hall.
  - rewrite fmap_empty. unfold sum_exact, sum_counts. rewrite !map_fold_empty.
    cbn [Z.of_nat].
    assert (E0 : (0 - inject_Z 0 / inject_Z (Z.of_nat N) == 0)%Q) by (field; assumption).
    assert (E1 : (inject_Z 0 / inject_Z (Z.of_nat N) * (1 # 9007199254740992) == 0)%Q)
      by (field; assumption).
    rewrite E0, E1. apply Qle_refl.
  - apply map_Forall_insert in Hall as [[Hc1 Hc] Hall]; [|assumption].
    specialize (IH Hall).
    destruct (quotient_error_nat c N Hc1 Hc HN1 HN) as (_ & _ & Herr).
    rewrite fmap_insert.
    rewrite sum_exact_insert by (rewrite lookup_fmap, Hk; reflexivity).
    rewrite sum_counts_insert by assumption.
    rewrite Nat2Z.inj_add, inject_Z_plus.
    set (s := sum_exact _) in *. set (p := exact_value _) in *.
    set (a := inject_Z (Z.of_nat c)) in *.
    set (b := inject_Z (Z.of_nat (sum_counts m))) in *.
    set (n := inject_Z (Z.of_nat N)) in *.
    assert (E1 : (p + s - (a + b) / n == (p - a / n) + (s - b / n))%Q)
      by (field; assumption).
    assert (E2 : ((a + b) / n * (1 # 9007199254740992)
                  == a / n * (1 # 9007199254740992) + b / n * (1 # 9007199254740992))%Q)
      by (field; assumption).
    rewrite E1, E2.
    eapply Qle_trans; [apply Qabs_triangle|].
    apply Qplus_le_compat; assumption.
Qed.

Lemma count_digits_entries (ds : list parsed) (b : Z) :
  Z.of_nat (length ds) < b ->
  map_Forall (fun _ c => (1 <= c)%nat /\ Z.of_nat c < b) (count_digits ds).
Proof.
  intros Hb key c Hc. rewrite lookup_count_digits in Hc.
  pose proof (occurrences_bound key ds) as Ho.
  destruct (occurrences key ds); [discriminate|]. injection Hc as <-. lia.
Qed.

(** The probabilities of a report add up to 1 within 2^-53: each is a
    quotient [c/N] rounded to the nearest binary64 number, and the counts
    [c] add up to [N]. *)
Lemma double_probabilities_sum (ds : list parsed) :
  ds <> [] -> Z.of_nat (length ds) < 2 ^ 53 ->
  (Qabs (sum_exact (Double.probabilities_of (count_digits ds) (length ds)) - 1)
   <= 1 # 9007199254740992)%Q.
Proof.
  intros Hne Hlen.
  assert (Hpos : (1 <= length ds)%nat) by (destruct ds; [congruence|cbn; lia]).
  rewrite double_probabilities_of_fmap.
  pose proof (sum_exact_quotients (count_digits ds) (length ds) Hpos Hlen
                (count_digits_entries ds _ Hlen)) as H.
  rewrite sum_counts_count_digits in H.
  assert (E : (inject_Z (Z.of_nat (length ds)) / inject_Z (Z.of_nat (length ds)) == 1)%Q).
  { field. intros H0. unfold Qeq in H0. cbn in H0. lia. }
  rewrite E, Qmult_1_l in H. exact H.
Qed.

(** * The claims *)


Lemma double_processBenfordLaw_returns (h : Double.host) (numbers : list float)
    (threshold : float) (benfordProbabilities : gmap string float)
    (ds : list parsed) :
  numbers <> [] ->
  (threshold <=? 0)%float = false -> (1 <=? threshold)%float = false ->
  Array_map (Double.getFirstDigit h) numbers = Return ds ->
  let probabilities := Double.probabilities_of (count_digits ds) (length numbers) in
  Double.processBenfordLaw h numbers threshold benfordProbabilities =
    Return {| Double.isFollowingBenfordLaw :=
                Double.isBenford probabilities threshold benfordProbabilities;
              Double.firstDigitProbabilities := probabilities;
              Double.firstDigitCounts := count_digits ds;
              Double.firstDigitAccuracies :=
                Double.accuracies_of probabilities benfordProbabilities |}.
Proof.
  intros Hne Ht0 Ht1 Hds. unfold Double.processBenfordLaw.
  destruct numbers as [|x numbers]; [congruence|]. cbn [length Nat.eqb].
  rewrite Ht0, Ht1, Hds. reflexivity.
Qed.



(** C2, as stated: every key of the reference distribution has an accuracy
    entry.  It fails on the one-element array [1] with the default
    reference: digit 2 is in the reference and has no accuracy entry. *)
Lemma accuracies_miss_unobserved_digit :
  exists r,
    processBenfordLaw [Fin 1] default_threshold benfordProb = Return r /\
    benfordProb !! "2" = Some (176 # 1000)%Q /\
    firstDigitAccuracies r !! "2" = None.
Proof.
  eexists. split; [vm_compute; reflexivity|]. split; reflexivity.
Qed.

(** On [1] with the default reference: digit 2 has no accuracy entry, and
    the entry of digit 1 is the rounded difference. *)
Example double_processBenfordLaw_one :
  exists r,
    Double.processBenfordLaw Double.silent [1]%float Double.default_threshold
      Double.benfordProb = Return r /\
    Double.firstDigitAccuracies r !! "2" = None /\
    Double.firstDigitAccuracies r !! "1" = Some 0.6990000000000001%float.
Proof.
  eexists. split; [vm_compute; reflexivity|]. split; reflexivity.
Qed.

(** C2, amended.  On a non-empty array on whose elements [getFirstDigit]
    returns, with a threshold that is neither <= 0 nor >= 1 and any
    reference distribution, [processBenfordLaw] returns a report whose
    accuracies mapping has an entry exactly for the digits that occur among
    the extracted digits of the input and are keys of the reference
    distribution; the entry is |reference - observed| computed in binary64,
    the observed probability being the number of occurrences divided by the
    length of the array. *)
Theorem double_processBenfordLaw_accuracies (h : Double.host) (numbers : list float)
    (threshold : float) (benfordProbabilities : gmap string float)
    (ds : list parsed) :
  numbers <> [] ->
  (threshold <=? 0)%float = false -> (1 <=? threshold)%float = false ->
  Array_map (Double.getFirstDigit h) numbers = Return ds ->
  exists r,
    Double.processBenfordLaw h numbers threshold benfordProbabilities = Return r /\
    forall digit,
      Double.firstDigitAccuracies r !! digit =
        match occurrences digit ds, benfordProbabilities !! digit with
        | S n, Some benfordProbability =>
            Some (abs (benfordProbability
                       - quotient (S n) (length numbers)))%float
        | _, _ => None
        end.
Proof.
  intros Hne Ht0 Ht1 Hds.
  eexists. split; [apply double_processBenfordLaw_returns; eassumption|].
  cbv zeta. intros digit.
  apply double_Array_map_digits in Hds as [Hrange _].
  cbn [Double.firstDigitAccuracies].
  rewrite double_lookup_accuracies_of, double_lookup_probabilities.
  destruct (occurrences digit ds) as [|n] eqn:Hocc; [reflexivity|].
  rewrite double_get_own.
  - destruct (benfordProbabilities !! digit); reflexivity.
  - apply (occurrences_not_inherited digit ds); [assumption|lia].
Qed.

Lemma double_processBenfordLaw_accuracies_witness :
  exists r,
    Double.processBenfordLaw Double.silent [1; 25; 3]%float 0.01 Double.benfordProb
      = Return r /\
    forall digit,
      Double.firstDigitAccuracies r !! digit =
        match occurrences digit [Parsed 1; Parsed 2; Parsed 3],
              Double.benfordProb !! digit with
        | S n, Some benfordProbability =>
            Some (abs (benfordProbability - quotient (S n) 3))%float
        | _, _ => None
        end.
Proof.
  apply (double_processBenfordLaw_accuracies Double.silent [1; 25; 3]%float
           0.01%float Double.benfordProb [Parsed 1; Parsed 2; Parsed 3]).
  - discriminate.
  - reflexivity.
  - reflexivity.
  - vm_compute. reflexivity.
Defined.

(** C3, as stated, fails on [1, 2, ..., 9]: each of the nine probabilities
    is the binary64 value nearest to 1/9, which is below 1/9; their exact
    sum is not 1, and added up in binary64 in the order of the keys they
    give 1.0000000000000002. *)
Lemma probabilities_do_not_sum_to_1 :
  exists r,
    Double.processBenfordLaw Double.silent [1; 2; 3; 4; 5; 6; 7; 8; 9]%float
      Double.default_threshold Double.benfordProb = Return r /\
    sum_counts (Double.firstDigitCounts r) = 9%nat /\
    ~ (sum_exact (Double.firstDigitProbabilities r) == 1)%Q /\
    sum_in_order digit_keys (Double.firstDigitProbabilities r)
    = 1.0000000000000002%float.
Proof.
  eexists. split; [vm_compute; reflexivity|].
  split; [vm_compute; reflexivity|].
  split; [|vm_compute; reflexivity].
  intros H. apply Qeq_bool_iff in H. vm_compute in H. discriminate H.
Qed.

(** C3, amended.  On a non-empty array on whose elements [getFirstDigit]
    returns, with a threshold that is neither <= 0 nor >= 1,
    [processBenfordLaw] returns a report whose counts sum to the length of
    the array; a digit has a count, the number of its occurrences among the
    extracted digits, exactly when it occurs; the probabilities mapping
    has the same keys, each value being the count divided by the length of
    the array in binary64; and, the array having at most 2^32 - 1 elements,
    the exact sum of the probabilities is within 2^-53 of 1. *)
Theorem double_processBenfordLaw_totals (h : Double.host) (numbers : list float)
    (threshold : float) (benfordProbabilities : gmap string float)
    (ds : list parsed) :
  numbers <> [] ->
  (threshold <=? 0)%float = false -> (1 <=? threshold)%float = false ->
  Array_map (Double.getFirstDigit h) numbers = Return ds ->
  exists r,
    Double.processBenfordLaw h numbers threshold benfordProbabilities = Return r /\
    sum_counts (Double.firstDigitCounts r) = length numbers /\
    (forall key,
       Double.firstDigitCounts r !! key =
         match occurrences key ds with
         | O => None
         | S n => Some (S n)
         end /\
       Double.firstDigitProbabilities r !! key =
         (fun count => quotient count (length numbers))
           <$> Double.firstDigitCounts r !! key) /\
    (Z.of_nat (length numbers) <= MAX_ARRAY_LENGTH ->
     (Qabs (sum_exact (Double.firstDigitProbabilities r) - 1)
      <= 1 # 9007199254740992)%Q).
Proof.
  intros Hne Ht0 Ht1 Hds.
  eexists. split; [apply double_processBenfordLaw_returns; eassumption|].
  cbv zeta.
  apply double_Array_map_digits in Hds as [_ Hlen].
  cbn [Double.firstDigitCounts Double.firstDigitProbabilities].
  split; [|split].
  - rewrite sum_counts_count_digits. assumption.
  - intros key. split; [apply lookup_count_digits|].
    rewrite double_probabilities_of_fmap, lookup_fmap. reflexivity.
  - intros Hmax. rewrite <- Hlen. apply double_probabilities_sum.
    + intros ->. destruct numbers; [congruence|discriminate Hlen].
    + rewrite Hlen. unfold MAX_ARRAY_LENGTH in Hmax. lia.
Qed.

Lemma double_processBenfordLaw_totals_witness :
  exists r,
    Double.processBenfordLaw Double.silent [1; 25; 3; 2]%float 0.01 Double.benfordProb
      = Return r /\
    sum_counts (Double.firstDigitCounts r) = 4%nat /\
    (forall key,
       Double.firstDigitCounts r !! key =
         match occurrences key [Parsed 1; Parsed 2; Parsed 3; Parsed 2] with
         | O => None
         | S n => Some (S n)
         end /\
       Double.firstDigitProbabilities r !! key =
         (fun count => quotient count 4) <$> Double.firstDigitCounts r !! key) /\
    (Qabs (sum_exact (Double.firstDigitProbabilities r) - 1)
     <= 1 # 9007199254740992)%Q.
Proof.
  destruct (double_processBenfordLaw_totals Double.silent [1; 25; 3; 2]%float
              0.01%float Double.benfordProb
              [Parsed 1; Parsed 2; Parsed 3; Parsed 2])
    as (r & Hr & Hsum & Hkeys & Hbound).
  - discriminate.
  - reflexivity.
  - reflexivity.
  - vm_compute. reflexivity.
  - exists r. split; [exact Hr|]. split; [exact Hsum|]. split; [exact Hkeys|].
    apply Hbound. unfold MAX_ARRAY_LENGTH. cbn [length]. lia.
Defined.

(** C7.  [getFirstDigit] checks finiteness before sign: NaN and both
    infinities (the negative one too) fail with the not-finite error, every
    finite number that is zero or negative fails with the non-positive
    error, and one of these two errors is raised exactly when the number is
    not finite or not positive. *)
Theorem getFirstDigit_preconditions :
  getFirstDigit NaN = Throw NotFiniteError /\
  getFirstDigit Infinity = Throw NotFiniteError /\
  getFirstDigit NegInfinity = Throw NotFiniteError /\
  (forall q, (q <= 0)%Q -> getFirstDigit (Fin q) = Throw NonPositiveError) /\
  (forall x,
     (getFirstDigit x = Throw NotFiniteError \/
      getFirstDigit x = Throw NonPositiveError) <->
     (Number_isFinite x = false \/ exists q, x = Fin q /\ (q <= 0)%Q)).
Proof.
  split; [reflexivity|]. split; [reflexivity|]. split; [reflexivity|].
  split; [exact getFirstDigit_non_positive|].
  intros x. split.
  - intros Hthrow. destruct x as [| | |q]; try (left; reflexivity).
    right. exists q. split; [reflexivity|].
    destruct (Qlt_le_dec 0 q) as [Hpos|Hle]; [exfalso|assumption].
    destruct (getFirstDigit_returns q Hpos) as (d & Hd & _).
    rewrite Hd in Hthrow. destruct Hthrow; discriminate.
  - intros [Hnf|(q & -> & Hq)].
    + left. apply getFirstDigit_non_finite. assumption.
    + right. apply getFirstDigit_non_positive. assumption.
Qed.

Lemma getFirstDigit_preconditions_witness :
  getFirstDigit NegInfinity = Throw NotFiniteError /\
  getFirstDigit (Fin 0) = Throw NonPositiveError /\
  getFirstDigit (Fin (-3)) = Throw NonPositiveError.
Proof.
  destruct getFirstDigit_preconditions as (_ & _ & Hninf & Hnp & _).
  split; [exact Hninf|].
  split; apply Hnp; unfold Qle; simpl; lia.
Defined.

(** C8.  [processBenfordLaw([1e-11, -1])] throws 'Invalid first digit
    extracted', from the valid element at index 0, and not the error of the
    invalid element -1: in binary64 1e-11 * 1e11 is 0.9999999999999999,
    whose text starts with a zero. *)
Theorem processBenfordLaw_throws_before_invalid_element (h : Double.host) :
  answers_at_1e_11 h ->
  is_finite 1e-11 = true /\ (0 <? 1e-11)%float = true /\
  Double.getFirstDigit h (-1) = Throw NonPositiveError /\
  Double.processBenfordLaw h [1e-11; -1]%float Double.default_threshold
    Double.benfordProb = Throw InvalidDigitError.
Proof.
  intros H. repeat split.
  unfold Double.processBenfordLaw. cbn [length Nat.eqb].
  change (Double.default_threshold <=? 0)%float with false.
  change (1 <=? Double.default_threshold)%float with false.
  cbn [orb Array_map]. rewrite (double_getFirstDigit_1e_11 h H). reflexivity.
Qed.

Lemma processBenfordLaw_throws_before_invalid_element_witness :
  answers_at_1e_11 host_at_1e_11 /\
  (is_finite 1e-11 = true /\ (0 <? 1e-11)%float = true /\
   Double.getFirstDigit host_at_1e_11 (-1) = Throw NonPositiveError /\
   Double.processBenfordLaw host_at_1e_11 [1e-11; -1]%float Double.default_threshold
     Double.benfordProb = Throw InvalidDigitError).
Proof.
  assert (H : answers_at_1e_11 host_at_1e_11) by (repeat split).
  split; [exact H|].
  apply (processBenfordLaw_throws_before_invalid_element host_at_1e_11 H).
Defined.

(** Validation order: the emptiness check comes first, so an empty array
    fails with the empty-input error whatever the threshold; the threshold
    check comes before any element is examined, so a non-empty array with a
    threshold <= 0 or >= 1 fails with the threshold error whatever its
    elements. *)
Lemma processBenfordLaw_validation_order (numbers : list number)
    (threshold : number) (benfordProbabilities : gmap string Q) :
  threshold_out_of_range threshold = true ->
  (0 < length numbers)%nat ->
  processBenfordLaw [] threshold benfordProbabilities = Throw EmptyInputError /\
  processBenfordLaw numbers threshold benfordProbabilities
  = Throw InvalidThresholdError.
Proof.
  intros Ht Hlen. split; [reflexivity|].
  unfold processBenfordLaw.
  destruct numbers; [cbn in Hlen; lia|].
  cbn [length Nat.eqb]. unfold threshold_out_of_range in Ht. rewrite Ht.
  reflexivity.
Qed.

(** C9.  [processBenfordLaw([-1], NaN)] throws 'Number must be positive and
    non-zero': NaN is not a threshold strictly inside (0,1), but it is
    neither <= 0 nor >= 1, so the threshold check lets it through and the
    elements are examined.  On the empty array the empty-input error comes
    first, as for every threshold. *)
Theorem processBenfordLaw_NaN_threshold :
  is_valid_threshold NaN = false /\
  threshold_out_of_range NaN = false /\
  processBenfordLaw [Fin (-1)] NaN benfordProb = Throw NonPositiveError /\
  processBenfordLaw [] NaN benfordProb = Throw EmptyInputError.
Proof. repeat split. Qed.

(** C10.  [processBenfordLaw([1e-11], 0.01, {})] does not succeed: it
    throws 'Invalid first digit extracted' on the valid element 1e-11. *)
Theorem processBenfordLaw_empty_reference_throws (h : Double.host) :
  answers_at_1e_11 h ->
  is_finite 1e-11 = true /\ (0 <? 1e-11)%float = true /\
  Double.processBenfordLaw h [1e-11]%float Double.default_threshold ∅
  = Throw InvalidDigitError.
Proof.
  intros H. repeat split.
  unfold Double.processBenfordLaw. cbn [length Nat.eqb].
  change (Double.default_threshold <=? 0)%float with false.
  change (1 <=? Double.default_threshold)%float with false.
  cbn [orb Array_map]. rewrite (double_getFirstDigit_1e_11 h H). reflexivity.
Qed.

Lemma processBenfordLaw_empty_reference_throws_witness :
  answers_at_1e_11 host_at_1e_11 /\
  (is_finite 1e-11 = true /\ (0 <? 1e-11)%float = true /\
   Double.processBenfordLaw host_at_1e_11 [1e-11]%float Double.default_threshold ∅
   = Throw InvalidDigitError).
Proof.
  assert (H : answers_at_1e_11 host_at_1e_11) by (repeat split).
  split; [exact H|].
  apply (processBenfordLaw_empty_reference_throws host_at_1e_11 H).
Defined.

(** C4.  The smallest positive number, 2^-1074, is finite and positive, and
    [getFirstDigit] returns NaN on it: the power of ten it is multiplied by
    is not finite, the product prints as "Infinity", and NaN is neither
    below 1 nor above 9. *)
Theorem getFirstDigit_MIN_VALUE :
  is_valid_number MIN_VALUE = true /\
  getFirstDigit MIN_VALUE = Return ParsedNaN.
Proof. split; vm_compute; reflexivity. Qed.

(** ** The sampler *)

Lemma Number_isInteger_iff (q : Q) :
  Number_isInteger (Fin q) = true <-> exists z : Z, (q == inject_Z z)%Q.
Proof.
  cbn [Number_isInteger]. rewrite Qeq_bool_iff. split.
  - intros H. exists (Qfloor q). symmetry. assumption.
  - intros [z Hz]. rewrite (Qfloor_comp _ _ Hz), Qfloor_Z. symmetry. assumption.
Qed.

Lemma length_check_iff (length : number) :
  negb (Number_isInteger length) || js_le length (Fin 0) = false
  <-> positive_integer length.
Proof.
  rewrite orb_false_iff, negb_false_iff. split.
  - intros [Hint Hpos]. destruct length as [| | |q]; try discriminate.
    apply Number_isInteger_iff in Hint as [z Hz].
    cbn [js_le] in Hpos. apply Qle_bool_false in Hpos.
    rewrite Hz in Hpos. change 0%Q with (inject_Z 0) in Hpos.
    rewrite <- Zlt_Qlt in Hpos.
    destruct z as [|p|p]; try lia. exists q, p. split; [reflexivity|assumption].
  - intros (q & p & -> & Hq). split.
    + apply Number_isInteger_iff. exists (Zpos p). assumption.
    + cbn [js_le]. apply Qle_bool_false. rewrite Hq.
      change 0%Q with (inject_Z 0). rewrite <- Zlt_Qlt. lia.
Qed.

Lemma generateBenfordLawNumber_eq (random_draws : nat -> R) (s : rng) :
  generateBenfordLawNumber random_draws s = (sample_of random_draws s, S s).
Proof. reflexivity. Qed.

Lemma ln_MAX_pos : (0 < ln MAX_BENFORD_RANGE)%R.
Proof.
  rewrite <- ln_1. apply ln_increasing; unfold MAX_BENFORD_RANGE; lra.
Qed.

Lemma scaled_draw_range (u : R) :
  (0 <= u < 1)%R ->
  (ln MIN_BENFORD_RANGE
   <= u * (ln MAX_BENFORD_RANGE - ln MIN_BENFORD_RANGE) + ln MIN_BENFORD_RANGE
   < ln MAX_BENFORD_RANGE)%R.
Proof.
  intros [H0 H1]. unfold MIN_BENFORD_RANGE.
  rewrite ln_1, Rminus_0_r, Rplus_0_r.
  pose proof ln_MAX_pos as HL.
  set (L := ln MAX_BENFORD_RANGE) in *.
  split.
  - apply Rmult_le_pos; lra.
  - rewrite <- (Rmult_1_l L) at 2. apply Rmult_lt_compat_r; assumption.
Qed.

Lemma exp_range (v : R) :
  (ln MIN_BENFORD_RANGE <= v < ln MAX_BENFORD_RANGE)%R ->
  (1 <= exp v <= 1000)%R.
Proof.
  unfold MIN_BENFORD_RANGE. rewrite ln_1. intros [Hlo Hhi]. split.
  - rewrite <- exp_0. destruct Hlo as [Hlt|Heq].
    + left. apply exp_increasing. assumption.
    + right. rewrite <- Heq. reflexivity.
  - left. replace 1000%R with (exp (ln MAX_BENFORD_RANGE)).
    + apply exp_increasing. assumption.
    + unfold MAX_BENFORD_RANGE. apply exp_ln. lra.
Qed.

Lemma Array_from_loop_generate (random_draws : nat -> R) (n : nat) (s : rng) :
  Array_from_loop n (generateBenfordLawNumber random_draws) s
  = (sample_of random_draws <$> seq s n, (s + n)%nat).
Proof.
  revert s. induction n as [|n IH]; intros s.
  - cbn. f_equal. lia.
  - cbn [Array_from_loop seq fmap list_fmap].
    rewrite generateBenfordLawNumber_eq, IH. f_equal. lia.
Qed.

Lemma ToLength_positive (q : Q) (p : positive) :
  (q == inject_Z (Zpos p))%Q -> ToLength (Fin q) = Z.min (Zpos p) (2 ^ 53 - 1).
Proof.
  intros Hq. cbn [ToLength]. rewrite (Qfloor_comp _ _ Hq), Qfloor_Z. lia.
Qed.

(** On a positive integer the call is the construction of the array. *)
Lemma generateBenfordLawNumbers_positive (random_draws : nat -> R) (q : Q)
    (p : positive) (s : rng) :
  (q == inject_Z (Zpos p))%Q ->
  generateBenfordLawNumbers random_draws (Fin q) s =
    if MAX_ARRAY_LENGTH <? Zpos p then Throw InvalidArrayLengthError
    else Return (sample_of random_draws <$> seq s (Pos.to_nat p),
                 (s + Pos.to_nat p)%nat).
Proof.
  intros Hq. unfold generateBenfordLawNumbers.
  replace (negb (Number_isInteger (Fin q)) || js_le (Fin q) (Fin 0)) with false
    by (symmetry; apply length_check_iff; exists q, p; split; [reflexivity|assumption]).
  unfold Array_from. cbv zeta. rewrite (ToLength_positive q p Hq).
  unfold MAX_ARRAY_LENGTH.
  destruct (Z.ltb_spec (2 ^ 32 - 1) (Zpos p)) as [Hbig|Hsmall].
  - replace (2 ^ 32 - 1 <? Z.min (Zpos p) (2 ^ 53 - 1)) with true; [reflexivity|].
    symmetry. apply Z.ltb_lt. lia.
  - replace (2 ^ 32 - 1 <? Z.min (Zpos p) (2 ^ 53 - 1)) with false
      by (symmetry; apply Z.ltb_ge; lia).
    rewrite Z.min_l by lia.
    rewrite Array_from_loop_generate.
    replace (Z.to_nat (Zpos p)) with (Pos.to_nat p) by reflexivity.
    reflexivity.
Qed.

(** C5, as stated, fails at 2^32: it is a positive integer, and the call
    fails, with the [RangeError] of the array constructor. *)
Lemma generateBenfordLawNumbers_fails_at_2_32 :
  Number_isInteger (Fin 4294967296) = true /\
  js_ge (Fin 4294967296) (Fin 1) = true /\
  generateBenfordLawNumbers (fun _ => 0%R) (Fin 4294967296) 0%nat
  = Throw InvalidArrayLengthError.
Proof. repeat split. Qed.

(** C5, amended.  [generateBenfordLawNumbers] fails with the invalid-length
    error exactly when its argument is not a positive integer (zero, a
    negative number and a fractional number are three such arguments); a
    positive integer up to 2^32 - 1 makes it return, and a larger one makes
    the array constructor throw its range error. *)
Theorem generateBenfordLawNumbers_length_check (random_draws : nat -> R)
    (length : number) (s : rng) :
  (generateBenfordLawNumbers random_draws length s = Throw InvalidLengthError
   <-> ~ positive_integer length) /\
  ((exists r, generateBenfordLawNumbers random_draws length s = Return r)
   <-> positive_integer length /\ js_le length (Fin (inject_Z MAX_ARRAY_LENGTH)) = true) /\
  (generateBenfordLawNumbers random_draws length s = Throw InvalidArrayLengthError
   <-> positive_integer length /\ js_gt length (Fin (inject_Z MAX_ARRAY_LENGTH)) = true) /\
  generateBenfordLawNumbers random_draws (Fin 0) s = Throw InvalidLengthError /\
  generateBenfordLawNumbers random_draws (Fin (-5)) s = Throw InvalidLengthError /\
  generateBenfordLawNumbers random_draws (Fin (11 # 2)) s = Throw InvalidLengthError.
Proof.
  assert (Hcases :
    (~ positive_integer length /\
     generateBenfordLawNumbers random_draws length s = Throw InvalidLengthError) \/
    (positive_integer length /\
     js_le length (Fin (inject_Z MAX_ARRAY_LENGTH)) = true /\
     js_gt length (Fin (inject_Z MAX_ARRAY_LENGTH)) = false /\
     exists r, generateBenfordLawNumbers random_draws length s = Return r) \/
    (positive_integer length /\
     js_le length (Fin (inject_Z MAX_ARRAY_LENGTH)) = false /\
     js_gt length (Fin (inject_Z MAX_ARRAY_LENGTH)) = true /\
     generateBenfordLawNumbers random_draws length s = Throw InvalidArrayLengthError)).
  { destruct (negb (Number_isInteger length) || js_le length (Fin 0)) eqn:E.
    - left. split.
      + intros Hpos. apply length_check_iff in Hpos. congruence.
      + unfold generateBenfordLawNumbers. rewrite E. reflexivity.
    - right. pose proof (proj1 (length_check_iff length) E) as Hpos.
      destruct Hpos as (q & p & -> & Hq).
      assert (Hpos : positive_integer (Fin q)) by (exists q, p; auto).
      rewrite (generateBenfordLawNumbers_positive random_draws q p s Hq).
      unfold js_gt. cbn [js_le js_lt].
      destruct (Z.ltb_spec MAX_ARRAY_LENGTH (Zpos p)) as [Hbig|Hsmall].
      + right. split; [assumption|]. split; [|split; [|reflexivity]].
        * apply not_true_iff_false. rewrite Qle_bool_iff, Hq, <- Zle_Qle. lia.
        * apply Qlt_bool_iff. rewrite Hq, <- Zlt_Qlt. assumption.
      + left. split; [assumption|]. split; [|split; [|eauto]].
        * rewrite Qle_bool_iff, Hq, <- Zle_Qle. assumption.
        * apply not_true_iff_false. rewrite Qlt_bool_iff, Hq, <- Zlt_Qlt. lia. }
  split; [|split; [|split; [|repeat split]]].
  - destruct Hcases as [[Hn H]|[(Hp & _ & _ & r & H)|(Hp & _ & _ & H)]];
      rewrite H; split; try tauto; try discriminate.
  - destruct Hcases as [[Hn H]|[(Hp & Hle & _ & r & H)|(Hp & Hle & _ & H)]];
      rewrite H; split; try tauto; eauto.
    + intros [r' Hr']. discriminate.
    + intros [r' Hr']. discriminate.
    + intros [_ Hle']. congruence.
  - destruct Hcases as [[Hn H]|[(Hp & _ & Hgt & r & H)|(Hp & _ & Hgt & H)]];
      rewrite H; split; try tauto; try discriminate.
    intros [_ Hgt']. congruence.
Qed.

(** C6, as stated, fails at n = 2^32: no sequence is returned. *)
Lemma generateBenfordLawNumbers_no_samples_at_2_32 :
  positive_integer (Fin 4294967296) /\
  ~ exists result,
      generateBenfordLawNumbers (fun _ => 0%R) (Fin 4294967296) 0%nat
      = Return result.
Proof.
  split.
  - exists 4294967296%Q, 4294967296%positive. split; reflexivity.
  - intros [result H]. discriminate H.
Qed.

(** C6, amended.  For a positive integer n up to 2^32 - 1 and any stream of
    uniform draws from [0,1), [generateBenfordLawNumbers] returns exactly n
    numbers; the i-th one is the exponential of the i-th draw scaled to
    [ln 1, ln 1000), a real number between 1 and 1000, and each call
    consumes one draw of its own. *)
Theorem generateBenfordLawNumbers_samples (random_draws : nat -> R)
    (q : Q) (n : nat) (s : rng) :
  (0 < n)%nat ->
  Z.of_nat n <= MAX_ARRAY_LENGTH ->
  (q == inject_Z (Z.of_nat n))%Q ->
  (forall i, (0 <= random_draws i < 1)%R) ->
  exists xs,
    generateBenfordLawNumbers random_draws (Fin q) s = Return (xs, (s + n)%nat) /\
    length xs = n /\
    forall i, (i < n)%nat ->
      exists v,
        xs !! i = Some (exp v) /\
        v = (random_draws (s + i)%nat
             * (ln MAX_BENFORD_RANGE - ln MIN_BENFORD_RANGE)
             + ln MIN_BENFORD_RANGE)%R /\
        (ln MIN_BENFORD_RANGE <= v < ln MAX_BENFORD_RANGE)%R /\
        (1 <= exp v <= 1000)%R.
Proof.
  intros Hn Hmax Hq Hdraws.
  assert (Hp : Z.of_nat n = Zpos (Pos.of_nat n)).
  { rewrite <- (Nat2Pos.id n) at 1 by lia. apply positive_nat_Z. }
  exists (sample_of random_draws <$> seq s n).
  rewrite (generateBenfordLawNumbers_positive random_draws q (Pos.of_nat n) s)
    by (rewrite Hq, Hp; reflexivity).
  replace (MAX_ARRAY_LENGTH <? Zpos (Pos.of_nat n)) with false
    by (symmetry; apply Z.ltb_ge; lia).
  rewrite Nat2Pos.id by lia.
  split; [reflexivity|]. split.
  - rewrite length_fmap, length_seq. reflexivity.
  - intros i Hi.
    pose proof (scaled_draw_range _ (Hdraws (s + i)%nat)) as Hv.
    eexists. split; [|split; [reflexivity|split; [exact Hv|]]].
    + rewrite list_lookup_fmap, lookup_seq_lt by assumption. reflexivity.
    + apply exp_range. exact Hv.
Qed.

Lemma generateBenfordLawNumbers_samples_witness :
  exists xs,
    generateBenfordLawNumbers (fun i => (/ (INR i + 2))%R) (Fin 3) 0%nat
    = Return (xs, 3%nat) /\
    length xs = 3%nat /\
    forall i, (i < 3)%nat ->
      exists v,
        xs !! i = Some (exp v) /\
        v = (/ (INR (0 + i) + 2)
             * (ln MAX_BENFORD_RANGE - ln MIN_BENFORD_RANGE)
             + ln MIN_BENFORD_RANGE)%R /\
        (ln MIN_BENFORD_RANGE <= v < ln MAX_BENFORD_RANGE)%R /\
        (1 <= exp v <= 1000)%R.
Proof.
  apply (generateBenfordLawNumbers_samples
           (fun i => (/ (INR i + 2))%R) 3 3%nat 0%nat).
  - lia.
  - vm_compute. discriminate.
  - reflexivity.
  - intros i. pose proof (pos_INR i) as Hi. split.
    + left. apply Rinv_0_lt_compat. lra.
    + rewrite <- Rinv_1. apply Rinv_lt_contravar; lra.
Defined.

(** * Further properties of the code *)

(** ** [getFirstDigit]: the leading significant digit *)

Lemma lead_digit_small (n : Z) : 1 <= n <= 9 -> lead_digit n = n.
Proof.
  intros Hn. unfold lead_digit. rewrite Nat.add_1_r. cbn [ilog10].
  replace (n <? 10) with true by (symmetry; apply Z.ltb_lt; lia).
  rewrite Z.pow_0_r. apply Z.div_1_r.
Qed.

Lemma Qpower10_pos (e : Z) : (0 < Qpower 10 e)%Q.
Proof. apply Qpower_0_lt. reflexivity. Qed.

(** In the range where the power of ten stays finite, the returned digit
    [d] brackets the number between [d * 10^e] and [(d + 1) * 10^e]. *)
Lemma getFirstDigit_bracket (q : Q) :
  (1 <= q * Qpower 10 308)%Q ->
  exists d e,
    getFirstDigit (Fin q) = Return (Parsed (Z.to_N d)) /\
    1 <= d <= 9 /\
    (inject_Z d * Qpower 10 e <= q)%Q /\
    (q < inject_Z (d + 1) * Qpower 10 e)%Q.
Proof.
  intros Hrange.
  destruct (getFirstDigit_log_floor q Hrange) as [Hget _].
  assert (Hpos : (0 < q)%Q).
  { apply (Qmult_pos_r_inv q (Qpower 10 308)); [apply Qpower10_pos|].
    apply Qlt_le_trans with 1%Q; [reflexivity|assumption]. }
  unfold leading_digit_spec in Hget. rewrite Qabs_pos_eq in Hget by assumption.
  destruct (Qlt_le_dec q 1) as [Hlt|Hge].
  - replace (Qle_bool 1 q) with false in Hget
      by (symmetry; apply Qle_bool_false; assumption).
    destruct (ceil_neg_log10_small q Hpos Hlt) as (Hk & Hlo & Hhi).
    set (k := Math_ceil_neg_log10 q) in *.
    rewrite log_floor_extract_ge_1 in Hget by assumption.
    set (p := (q * Qpower 10 k)%Q) in *.
    pose proof (Qfloor_ge_1 p Hlo) as Hn1.
    assert (Hn9 : Qfloor p <= 9).
    { assert (H : (inject_Z (Qfloor p) < inject_Z 10)%Q)
        by (apply Qle_lt_trans with p; [apply Qfloor_le|exact Hhi]).
      rewrite <- Zlt_Qlt in H. lia. }
    rewrite lead_digit_small in Hget by lia.
    exists (Qfloor p), (- k). split; [exact Hget|]. split; [lia|].
    pose proof (Qpower10_pos k) as Hpk.
    assert (Hinv : (Qpower 10 (- k) == / Qpower 10 k)%Q) by apply Qpower_opp.
    split.
    + rewrite Hinv. apply Qle_shift_div_r; [assumption|]. apply Qfloor_le.
    + rewrite Hinv. apply Qlt_shift_div_l; [assumption|]. apply Qlt_floor.
  - replace (Qle_bool 1 q) with true in Hget
      by (symmetry; apply Qle_bool_iff; assumption).
    rewrite log_floor_extract_ge_1 in Hget by assumption.
    pose proof (Qfloor_ge_1 q Hge) as Hn1.
    destruct (ilog10_spec _ (Qfloor q) (conj Hn1 (log2_fuel _ Hn1)))
      as (He & _ & _).
    pose proof (lead_digit_range _ Hn1) as Hd.
    unfold lead_digit in *.
    set (e := ilog10 _ (Qfloor q)) in *. set (n := Qfloor q) in *.
    assert (HP : 0 < 10 ^ e) by (apply Z.pow_pos_nonneg; lia).
    pose proof (Z.mul_div_le n (10 ^ e) HP) as Hlo.
    pose proof (Z.mul_succ_div_gt n (10 ^ e) HP) as Hhi.
    exists (n / 10 ^ e), e. split; [exact Hget|]. split; [exact Hd|].
    rewrite Qpower10_inject by assumption. rewrite <- !inject_Z_mult. split.
    + apply Qle_trans with (inject_Z n); [|apply Qfloor_le].
      rewrite <- Zle_Qle. lia.
    + apply Qlt_le_trans with (inject_Z (n + 1)); [apply Qlt_floor|].
      rewrite <- Zle_Qle. lia.
Qed.

(** X4.  From 1 upwards only the integer part matters. *)
Theorem getFirstDigit_integer_part (q : Q) :
  (1 <= q)%Q ->
  getFirstDigit (Fin q) = getFirstDigit (Fin (inject_Z (Qfloor q))).
Proof.
  intros H. pose proof (Qfloor_ge_1 q H) as Hf.
  rewrite (getFirstDigit_ge_1 q H).
  rewrite getFirstDigit_ge_1.
  - rewrite Qfloor_Z. reflexivity.
  - change 1%Q with (inject_Z 1). rewrite <- Zle_Qle. assumption.
Qed.

Lemma getFirstDigit_integer_part_witness :
  getFirstDigit (Fin 27.9) = getFirstDigit (Fin (inject_Z (Qfloor 27.9))).
Proof.
  apply (getFirstDigit_integer_part 27.9).
  apply Qle_bool_iff. reflexivity.
Defined.

(** ** [processBenfordLaw]: when it returns *)

Lemma Array_map_cons_inv {A B} (f : A -> completion B) (x : A) (l : list A)
    (ds : list B) :
  Array_map f (x :: l) = Return ds ->
  exists d ds', f x = Return d /\ Array_map f l = Return ds' /\ ds = d :: ds'.
Proof.
  cbn [Array_map]. destruct (f x) as [d|e]; cbn [bind]; [|discriminate].
  destruct (Array_map f l) as [ds'|e]; cbn [bind]; [|discriminate].
  intros [= <-]. eauto.
Qed.

Lemma Array_map_cons {A B} (f : A -> completion B) (x : A) (l : list A)
    (d : B) (ds : list B) :
  f x = Return d -> Array_map f l = Return ds ->
  Array_map f (x :: l) = Return (d :: ds).
Proof. intros Hx Hl. cbn [Array_map]. rewrite Hx, Hl. reflexivity. Qed.

Lemma Array_map_returns_valid (numbers : list number) (ds : list parsed) :
  Array_map getFirstDigit numbers = Return ds ->
  forallb is_valid_number numbers = true.
Proof.
  revert ds. induction numbers as [|x numbers IH]; intros ds H; [reflexivity|].
  apply Array_map_cons_inv in H as (d & ds' & Hx & Hl & _).
  cbn [forallb]. rewrite (IH _ Hl), andb_true_r.
  destruct (is_valid_number x) eqn:E; [reflexivity|].
  rewrite (getFirstDigit_invalid x E) in Hx. discriminate.
Qed.

Lemma Array_map_elem (numbers : list number) (ds : list parsed) (d : parsed) :
  Array_map getFirstDigit numbers = Return ds ->
  In d ds -> exists x, In x numbers /\ getFirstDigit x = Return d.
Proof.
  revert ds. induction numbers as [|x numbers IH]; intros ds H Hin.
  - cbn in H. injection H as <-. destruct Hin.
  - apply Array_map_cons_inv in H as (d0 & ds' & Hx & Hl & ->).
    destruct Hin as [<-|Hin].
    + exists x. split; [left; reflexivity|assumption].
    + destruct (IH _ Hl Hin) as (y & Hy & Hd). exists y. split; [right|]; assumption.
Qed.

Lemma Array_map_Permutation {A B} (f : A -> completion B) (l l' : list A) :
  Permutation l l' ->
  forall ds, Array_map f l = Return ds ->
  exists ds', Array_map f l' = Return ds' /\ Permutation ds ds'.
Proof.
  induction 1 as [|x l l' _ IH|x y l|l l' l'' _ IH1 _ IH2]; intros ds H.
  - exists ds. split; [assumption|reflexivity].
  - apply Array_map_cons_inv in H as (d & ds0 & Hx & Hl & ->).
    destruct (IH _ Hl) as (ds' & Hl' & Hp).
    exists (d :: ds'). split; [apply Array_map_cons; assumption|].
    constructor. assumption.
  - apply Array_map_cons_inv in H as (dy & ds0 & Hy & H & ->).
    apply Array_map_cons_inv in H as (dx & ds1 & Hx & Hl & ->).
    exists (dx :: dy :: ds1). split.
    + apply Array_map_cons; [assumption|]. apply Array_map_cons; assumption.
    + apply perm_swap.
  - destruct (IH1 _ H) as (ds' & H' & Hp1).
    destruct (IH2 _ H') as (ds'' & H'' & Hp2).
    exists ds''. split; [assumption|]. etransitivity; eassumption.
Qed.

Lemma count_digits_Permutation (ds ds' : list parsed) :
  Permutation ds ds' -> count_digits ds = count_digits ds'.
Proof.
  intros Hp. apply map_eq. intros key. rewrite !lookup_count_digits.
  unfold occurrences.
  assert (Hm : Permutation (map String_of_parsed ds) (map String_of_parsed ds'))
    by (apply Permutation_map; assumption).
  rewrite (proj1 (Permutation_count_occ string_dec _ _) Hm key). reflexivity.
Qed.

(** X6.  The report does not depend on the order of the elements. *)
Theorem processBenfordLaw_Permutation (numbers numbers' : list number)
    (threshold : number) (benfordProbabilities : gmap string Q) :
  Permutation numbers numbers' ->
  forallb is_valid_number numbers = true ->
  processBenfordLaw numbers' threshold benfordProbabilities
  = processBenfordLaw numbers threshold benfordProbabilities.
Proof.
  intros Hp Hvalid.
  pose proof (Permutation_length Hp) as Hlen.
  destruct numbers as [|x numbers].
  { apply Permutation_nil in Hp. subst. reflexivity. }
  destruct (threshold_out_of_range threshold) eqn:Ht.
  - unfold processBenfordLaw. rewrite <- Hlen. cbn [length Nat.eqb].
    unfold threshold_out_of_range in Ht. rewrite Ht. reflexivity.
  - rewrite !processBenfordLaw_nonempty
      by (try assumption; rewrite <- ?Hlen; cbn; lia).
    destruct (Array_map_valid _ Hvalid) as (ds & Hds & _).
    destruct (Array_map_Permutation _ _ _ Hp ds Hds) as (ds' & Hds' & Hpd).
    rewrite Hds, Hds', <- Hlen. cbn [bind].
    rewrite (count_digits_Permutation ds ds' Hpd). reflexivity.
Qed.

Lemma processBenfordLaw_Permutation_witness :
  processBenfordLaw [Fin 20; Fin 1; Fin 3] default_threshold benfordProb
  = processBenfordLaw [Fin 1; Fin 20; Fin 3] default_threshold benfordProb.
Proof.
  apply (processBenfordLaw_Permutation [Fin 1; Fin 20; Fin 3] [Fin 20; Fin 1; Fin 3]).
  - apply perm_swap.
  - reflexivity.
Defined.

(** ** [processBenfordLaw]: the report *)

Lemma processBenfordLaw_Return_inv (numbers : list number) (threshold : number)
    (benfordProbabilities : gmap string Q) (r : report) :
  processBenfordLaw numbers threshold benfordProbabilities = Return r ->
  exists ds,
    (0 < length numbers)%nat /\
    threshold_out_of_range threshold = false /\
    Array_map getFirstDigit numbers = Return ds /\
    length ds = length numbers /\
    r = {| isFollowingBenfordLaw :=
             isBenford (probabilities_of (count_digits ds) (length numbers))
                       threshold benfordProbabilities;
           firstDigitProbabilities :=
             probabilities_of (count_digits ds) (length numbers);
           firstDigitCounts := count_digits ds;
           firstDigitAccuracies :=
             accuracies_of (probabilities_of (count_digits ds) (length numbers))
                           benfordProbabilities |}.
Proof.
  intros Hr.
  assert (Hlen : (0 < length numbers)%nat).
  { destruct numbers; [discriminate|cbn; lia]. }
  assert (Ht : threshold_out_of_range threshold = false).
  { unfold processBenfordLaw in Hr. destruct numbers; [discriminate|].
    cbn [length Nat.eqb] in Hr. fold (threshold_out_of_range threshold) in Hr.
    destruct (threshold_out_of_range threshold); [discriminate|reflexivity]. }
  rewrite processBenfordLaw_nonempty in Hr by assumption.
  destruct (Array_map getFirstDigit numbers) as [ds|e] eqn:E; [|discriminate].
  cbn [bind] in Hr. injection Hr as <-.
  destruct (Array_map_valid numbers (Array_map_returns_valid _ _ E))
    as (ds' & Hds' & Hl).
  rewrite E in Hds'. injection Hds' as <-.
  exists ds. repeat split; assumption.
Qed.

Lemma ratio_pos (c n : nat) : (0 < c)%nat -> (0 < n)%nat -> (0 < ratio c n)%Q.
Proof.
  intros Hc Hn. unfold ratio. apply Qlt_shift_div_l.
  - change 0%Q with (inject_Z 0). rewrite <- Zlt_Qlt. lia.
  - rewrite Qmult_0_l. change 0%Q with (inject_Z 0). rewrite <- Zlt_Qlt. lia.
Qed.

Lemma ratio_le_1 (c n : nat) : (c <= n)%nat -> (0 < n)%nat -> (ratio c n <= 1)%Q.
Proof.
  intros Hc Hn. unfold ratio. apply Qle_shift_div_r.
  - change 0%Q with (inject_Z 0). rewrite <- Zlt_Qlt. lia.
  - rewrite Qmult_1_l. rewrite <- Zle_Qle. lia.
Qed.

(** X7.  In a report every count lies between 1 and the number of elements,
    every probability is above 0 and at most 1, and the two mappings have
    the same keys. *)
Theorem processBenfordLaw_entry_bounds (numbers : list number) (threshold : number)
    (benfordProbabilities : gmap string Q) (r : report) :
  processBenfordLaw numbers threshold benfordProbabilities = Return r ->
  (forall key count,
     firstDigitCounts r !! key = Some count ->
     (1 <= count <= length numbers)%nat) /\
  (forall key probability,
     firstDigitProbabilities r !! key = Some probability ->
     (0 < probability)%Q /\ (probability <= 1)%Q) /\
  (forall key,
     is_Some (firstDigitCounts r !! key)
     <-> is_Some (firstDigitProbabilities r !! key)).
Proof.
  intros Hr.
  destruct (processBenfordLaw_Return_inv _ _ _ _ Hr)
    as (ds & Hlen & _ & _ & Hl & ->).
  cbn [firstDigitCounts firstDigitProbabilities].
  rewrite probabilities_of_fmap.
  assert (Hcount : forall key count,
            count_digits ds !! key = Some count ->
            (1 <= count <= length numbers)%nat).
  { intros key count. rewrite lookup_count_digits.
    pose proof (occurrences_bound key ds) as Hb.
    destruct (occurrences key ds); [discriminate|].
    intros [= <-]. lia. }
  split; [exact Hcount|]. split.
  - intros key p. rewrite lookup_fmap.
    destruct (count_digits ds !! key) as [c|] eqn:E; [|discriminate].
    cbn. intros [= <-]. destruct (Hcount _ _ E).
    split; [apply ratio_pos|apply ratio_le_1]; lia.
  - intros key. rewrite lookup_fmap, fmap_is_Some. reflexivity.
Qed.

Lemma processBenfordLaw_entry_bounds_witness :
  exists r,
    processBenfordLaw [Fin 1; Fin 2; Fin 15] default_threshold benfordProb
    = Return r /\
    (forall key count,
       firstDigitCounts r !! key = Some count -> (1 <= count <= 3)%nat) /\
    (forall key probability,
       firstDigitProbabilities r !! key = Some probability ->
       (0 < probability)%Q /\ (probability <= 1)%Q) /\
    (forall key,
       is_Some (firstDigitCounts r !! key)
       <-> is_Some (firstDigitProbabilities r !! key)).
Proof.
  eexists. split; [vm_compute; reflexivity|].
  apply (processBenfordLaw_entry_bounds [Fin 1; Fin 2; Fin 15] default_threshold
           benfordProb).
  vm_compute. reflexivity.
Defined.

Lemma digit_key_elem (n : Z) : 1 <= n <= 9 -> In (pretty (Z.to_N n)) digit_keys.
Proof.
  intros Hn.
  assert (Hc : n = 1 \/ n = 2 \/ n = 3 \/ n = 4 \/ n = 5 \/ n = 6 \/ n = 7
               \/ n = 8 \/ n = 9) by lia.
  repeat destruct Hc as [->|Hc]; try subst n; vm_compute; tauto.
Qed.

(** X8.  When every element is a finite number from 1e-308 upwards, every key of
    the counts is one of "1" to "9", so the counts have at most nine
    entries. *)
Theorem processBenfordLaw_digit_keys (numbers : list number) (threshold : number)
    (benfordProbabilities : gmap string Q) (r : report) :
  forallb is_from_1e_308 numbers = true ->
  processBenfordLaw numbers threshold benfordProbabilities = Return r ->
  (forall key, is_Some (firstDigitCounts r !! key) -> In key digit_keys) /\
  (size (firstDigitCounts r) <= 9)%nat.
Proof.
  intros Hrange Hr.
  destruct (processBenfordLaw_Return_inv _ _ _ _ Hr)
    as (ds & _ & _ & Hds & _ & ->).
  cbn [firstDigitCounts].
  assert (Hkeys : forall key, is_Some (count_digits ds !! key) -> In key digit_keys).
  { intros key [c Hc]. rewrite lookup_count_digits in Hc.
    destruct (occurrences key ds) eqn:Hocc; [discriminate|].
    assert (Hin : In key (map String_of_parsed ds)).
    { apply (count_occ_In string_dec). unfold occurrences in Hocc. lia. }
    apply in_map_iff in Hin as (d & <- & Hd).
    destruct (Array_map_elem _ _ _ Hds Hd) as (x & Hx & Hget).
    rewrite forallb_forall in Hrange. specialize (Hrange x Hx).
    destruct x as [| | |q]; try discriminate.
    cbn [is_from_1e_308] in Hrange. apply Qle_bool_iff in Hrange.
    destruct (getFirstDigit_bracket q Hrange) as (m & _ & Hget' & Hm & _).
    rewrite Hget' in Hget. injection Hget as <-.
    apply digit_key_elem. assumption. }
  split; [exact Hkeys|].
  rewrite <- size_dom.
  assert (Hsub : dom (count_digits ds) ⊆ (list_to_set digit_keys : gset string)).
  { intros key Hkey. apply elem_of_list_to_set, list_elem_of_In, Hkeys.
    apply elem_of_dom. assumption. }
  apply subseteq_size in Hsub.
  etransitivity; [exact Hsub|]. vm_compute. lia.
Qed.

Lemma processBenfordLaw_digit_keys_witness :
  exists r,
    processBenfordLaw [Fin 1; Fin 0.02; Fin 15] default_threshold benfordProb
    = Return r /\
    (forall key, is_Some (firstDigitCounts r !! key) -> In key digit_keys) /\
    (size (firstDigitCounts r) <= 9)%nat.
Proof.
  eexists. split; [vm_compute; reflexivity|].
  apply (processBenfordLaw_digit_keys [Fin 1; Fin 0.02; Fin 15] default_threshold
           benfordProb).
  - vm_compute. reflexivity.
  - vm_compute. reflexivity.
Defined.

(** ** [processBenfordLaw]: the verdict *)

Lemma threshold_in_range_pos (t : Q) :
  threshold_out_of_range (Fin t) = false -> (0 < t)%Q /\ (t < 1)%Q.
Proof.
  unfold threshold_out_of_range. cbn [js_ge js_le].
  intros [H0 H1]%orb_false_iff.
  apply Qle_bool_false in H0, H1. split; assumption.
Qed.

(** X9.  The threshold only enters the verdict: two analyses of the same array
    with thresholds t <= t' have the same counts, probabilities and
    accuracies, and a true verdict under t stays true under t'. *)
Theorem processBenfordLaw_threshold_monotone (numbers : list number) (t t' : Q)
    (benfordProbabilities : gmap string Q) (r r' : report) :
  processBenfordLaw numbers (Fin t) benfordProbabilities = Return r ->
  processBenfordLaw numbers (Fin t') benfordProbabilities = Return r' ->
  (t <= t')%Q ->
  firstDigitCounts r' = firstDigitCounts r /\
  firstDigitProbabilities r' = firstDigitProbabilities r /\
  firstDigitAccuracies r' = firstDigitAccuracies r /\
  (isFollowingBenfordLaw r = true -> isFollowingBenfordLaw r' = true).
Proof.
  intros Hr Hr' Htt'.
  destruct (processBenfordLaw_Return_inv _ _ _ _ Hr)
    as (ds & _ & _ & Hds & _ & ->).
  destruct (processBenfordLaw_Return_inv _ _ _ _ Hr')
    as (ds' & _ & _ & Hds' & _ & ->).
  rewrite Hds in Hds'. injection Hds' as <-.
  cbn [firstDigitCounts firstDigitProbabilities firstDigitAccuracies
       isFollowingBenfordLaw].
  repeat (split; [reflexivity|]).
  rewrite !isBenford_iff. intros H digit p Hp.
  apply within_threshold_iff. apply Qlt_le_trans with t; [|assumption].
  apply within_threshold_iff, H, Hp.
Qed.

Lemma processBenfordLaw_threshold_monotone_witness :
  exists r r',
    processBenfordLaw [Fin 1; Fin 2] (Fin 0.01) benfordProb = Return r /\
    processBenfordLaw [Fin 1; Fin 2] (Fin 0.5) benfordProb = Return r' /\
    firstDigitCounts r' = firstDigitCounts r /\
    firstDigitProbabilities r' = firstDigitProbabilities r /\
    firstDigitAccuracies r' = firstDigitAccuracies r /\
    (isFollowingBenfordLaw r = true -> isFollowingBenfordLaw r' = true).
Proof.
  do 2 eexists.
  split; [vm_compute; reflexivity|]. split; [vm_compute; reflexivity|].
  apply (processBenfordLaw_threshold_monotone [Fin 1; Fin 2] 0.01 0.5 benfordProb).
  - vm_compute. reflexivity.
  - vm_compute. reflexivity.
  - apply Qle_bool_iff. reflexivity.
Defined.

Lemma missing_digit_false (numbers : list number) (t : Q)
    (benfordProbabilities : gmap string Q) (r : report) (digit : string) (p : Q) :
  processBenfordLaw numbers (Fin t) benfordProbabilities = Return r ->
  benfordProbabilities !! digit = Some p ->
  (t <= p)%Q ->
  firstDigitCounts r !! digit = None ->
  isFollowingBenfordLaw r = false.
Proof.
  intros Hr Hp Htp Hnone.
  destruct (processBenfordLaw_Return_inv _ _ _ _ Hr)
    as (ds & Hlen & Ht & Hds & _ & ->).
  destruct (threshold_in_range_pos t Ht) as [Ht0 _].
  cbn [firstDigitCounts isFollowingBenfordLaw] in *.
  destruct (isBenford _ _ _) eqn:E; [exfalso|reflexivity].
  rewrite isBenford_iff in E. specialize (E digit p Hp).
  apply within_threshold_iff in E.
  rewrite probabilities_of_fmap, lookup_fmap, Hnone in E.
  change (Qabs (0 - p) < t)%Q in E.
  rewrite Qabs_Qminus in E.
  assert (Heq : (p - 0 == p)%Q) by ring.
  rewrite Heq, Qabs_pos in E.
  - exact (Qlt_not_le _ _ E Htp).
  - apply Qle_trans with t; [apply Qlt_le_weak|]; assumption.
Qed.

(** X10.  A reference digit that never occurs in the input, and whose reference
    probability is at least the threshold, makes the verdict false. *)
Theorem processBenfordLaw_missing_digit (numbers : list number) (t : Q)
    (benfordProbabilities : gmap string Q) (r : report) (digit : string) (p : Q) :
  processBenfordLaw numbers (Fin t) benfordProbabilities = Return r ->
  benfordProbabilities !! digit = Some p ->
  (t <= p)%Q ->
  firstDigitCounts r !! digit = None ->
  isFollowingBenfordLaw r = false.
Proof.
  exact (missing_digit_false numbers t benfordProbabilities r digit p).
Qed.

Lemma processBenfordLaw_missing_digit_witness :
  exists r,
    processBenfordLaw [Fin 1; Fin 2; Fin 15] (Fin 0.01) benfordProb = Return r /\
    isFollowingBenfordLaw r = false.
Proof.
  eexists. split; [vm_compute; reflexivity|].
  apply (processBenfordLaw_missing_digit [Fin 1; Fin 2; Fin 15] 0.01 benfordProb
           _ "9" 0.046).
  - vm_compute. reflexivity.
  - vm_compute. reflexivity.
  - apply Qle_bool_iff. reflexivity.
  - vm_compute. reflexivity.
Defined.

Lemma size_le_sum_counts (m : gmap string nat) :
  (forall k c, m !! k = Some c -> (1 <= c)%nat) ->
  (size m <= sum_counts m)%nat.
Proof.
  induction m as [|k c m Hk IH] using map_ind; intros Hm.
  - rewrite map_size_empty. lia.
  - rewrite map_size_insert_None, sum_counts_insert by assumption.
    assert (1 <= c)%nat by (apply (Hm k); apply lookup_insert_eq).
    assert (size m <= sum_counts m)%nat; [|lia].
    apply IH. intros k' c' Hk'. apply (Hm k').
    rewrite lookup_insert_ne; [assumption|]. intros ->. congruence.
Qed.

Lemma benfordProb_digit_keys (key : string) :
  In key digit_keys ->
  exists p, benfordProb !! key = Some p /\ (0.046 <= p)%Q.
Proof.
  intros Hin. unfold digit_keys in Hin. cbn in Hin.
  repeat destruct Hin as [<-|Hin]; try destruct Hin;
    (eexists; split; [vm_compute; reflexivity|apply Qle_bool_iff; reflexivity]).
Qed.

(** X11.  With the default reference distribution and a threshold of at most
    0.046 (the default 0.01 is one), an array of fewer than nine numbers is
    never judged conformant. *)
Theorem processBenfordLaw_fewer_than_nine (numbers : list number) (t : Q)
    (r : report) :
  processBenfordLaw numbers (Fin t) benfordProb = Return r ->
  (t <= 0.046)%Q ->
  (length numbers < 9)%nat ->
  isFollowingBenfordLaw r = false.
Proof.
  intros Hr Ht Hlen.
  destruct (processBenfordLaw_Return_inv _ _ _ _ Hr)
    as (ds & _ & _ & _ & Hl & Hreport).
  assert (Hmissing : Exists (fun key => count_digits ds !! key = None) digit_keys).
  { destruct (decide (Exists (fun key => count_digits ds !! key = None) digit_keys))
      as [|Hno]; [assumption|exfalso].
    apply not_Exists_Forall in Hno; [|intros key; apply _].
    assert (Hsub : (list_to_set digit_keys : gset string) ⊆ dom (count_digits ds)).
    { intros key Hkey%elem_of_list_to_set. apply elem_of_dom.
      rewrite Forall_forall in Hno. specialize (Hno key Hkey). cbn in Hno.
      destruct (count_digits ds !! key); [eauto|contradiction]. }
    apply subseteq_size in Hsub. rewrite size_dom in Hsub.
    assert (H9 : size (list_to_set digit_keys : gset string) = 9%nat)
      by (vm_compute; reflexivity).
    assert (Hsum : (size (count_digits ds) <= sum_counts (count_digits ds))%nat).
    { apply size_le_sum_counts. intros k c. rewrite lookup_count_digits.
      destruct (occurrences k ds); [discriminate|]. intros [= <-]. lia. }
    rewrite sum_counts_count_digits in Hsum. lia. }
  apply Exists_exists in Hmissing as (key & Hkey & Hnone).
  destruct (benfordProb_digit_keys key) as (p & Hp & Hp46).
  { apply list_elem_of_In. assumption. }
  apply (missing_digit_false numbers t benfordProb r key p);
    try assumption.
  - apply Qle_trans with 0.046%Q; assumption.
  - rewrite Hreport. exact Hnone.
Qed.

Lemma processBenfordLaw_fewer_than_nine_witness :
  exists r,
    processBenfordLaw [Fin 1; Fin 2; Fin 15] (Fin 0.01) benfordProb = Return r /\
    isFollowingBenfordLaw r = false.
Proof.
  eexists. split; [vm_compute; reflexivity|].
  apply (processBenfordLaw_fewer_than_nine [Fin 1; Fin 2; Fin 15] 0.01).
  - vm_compute. reflexivity.
  - apply Qle_bool_iff. reflexivity.
  - cbn. lia.
Defined.

(** X12.  When the verdict is true every accuracy entry is below the threshold;
    when every reference digit occurs in the input, the converse holds as
    well. *)
Theorem accuracies_follow_verdict (numbers : list number) (t : Q)
    (benfordProbabilities : gmap string Q) (r : report) :
  processBenfordLaw numbers (Fin t) benfordProbabilities = Return r ->
  (isFollowingBenfordLaw r = true ->
   forall digit accuracy,
     firstDigitAccuracies r !! digit = Some accuracy -> (accuracy < t)%Q) /\
  ((forall digit p,
      benfordProbabilities !! digit = Some p ->
      is_Some (firstDigitCounts r !! digit)) ->
   (forall digit accuracy,
      firstDigitAccuracies r !! digit = Some accuracy -> (accuracy < t)%Q) ->
   isFollowingBenfordLaw r = true).
Proof.
  intros Hr.
  destruct (processBenfordLaw_Return_inv _ _ _ _ Hr)
    as (ds & _ & _ & _ & _ & ->).
  cbn [firstDigitCounts firstDigitAccuracies isFollowingBenfordLaw].
  set (probabilities := probabilities_of (count_digits ds) (length numbers)).
  split.
  - rewrite isBenford_iff. intros H digit a Ha.
    rewrite lookup_accuracies_of in Ha.
    destruct (probabilities !! digit) as [p|] eqn:Ep; [|discriminate].
    destruct (benfordProbabilities !! digit) as [b|] eqn:Eb; [|discriminate].
    replace a with (Qabs (b - p)) by congruence.
    specialize (H digit b Eb). apply within_threshold_iff in H.
    rewrite Ep in H. cbn [default from_option Datatypes.id] in H.
    rewrite Qabs_Qminus. exact H.
  - intros Hall Hacc. apply isBenford_iff. intros digit b Eb.
    apply within_threshold_iff.
    destruct (Hall digit b Eb) as [c Hc].
    assert (Ep : probabilities !! digit = Some (ratio c (length numbers))).
    { unfold probabilities. rewrite probabilities_of_fmap, lookup_fmap, Hc.
      reflexivity. }
    rewrite Ep. cbn [default from_option Datatypes.id].
    rewrite Qabs_Qminus. apply (Hacc digit).
    rewrite lookup_accuracies_of, Ep, Eb. reflexivity.
Qed.

Lemma accuracies_follow_verdict_witness :
  exists r,
    processBenfordLaw [Fin 1; Fin 2] (Fin 0.9) benfordProb = Return r /\
    (isFollowingBenfordLaw r = true ->
     forall digit accuracy,
       firstDigitAccuracies r !! digit = Some accuracy -> (accuracy < 0.9)%Q) /\
    ((forall digit p,
        benfordProb !! digit = Some p ->
        is_Some (firstDigitCounts r !! digit)) ->
     (forall digit accuracy,
        firstDigitAccuracies r !! digit = Some accuracy -> (accuracy < 0.9)%Q) ->
     isFollowingBenfordLaw r = true).
Proof.
  eexists. split; [vm_compute; reflexivity|].
  apply (accuracies_follow_verdict [Fin 1; Fin 2] 0.9 benfordProb).
  vm_compute. reflexivity.
Defined.

(** X13.  A NaN threshold is never rejected as a threshold, and a report computed
    with it has a false verdict for every non-empty reference
    distribution. *)
Theorem NaN_threshold_never_conformant (numbers : list number)
    (benfordProbabilities : gmap string Q) :
  processBenfordLaw numbers NaN benfordProbabilities
  <> Throw InvalidThresholdError /\
  (forall r digit p,
     processBenfordLaw numbers NaN benfordProbabilities = Return r ->
     benfordProbabilities !! digit = Some p ->
     isFollowingBenfordLaw r = false).
Proof.
  split.
  - unfold processBenfordLaw. destruct numbers as [|x numbers]; [discriminate|].
    cbn [length Nat.eqb js_le js_ge orb].
    destruct (Array_map getFirstDigit (x :: numbers)) as [ds|e] eqn:E;
      cbn [bind]; [discriminate|].
    destruct (first_invalid (x :: numbers)) as (pre & y & post & Heq & Hpre & Hy).
    { destruct (existsb _ _) eqn:Ex; [reflexivity|exfalso].
      assert (Hall : forallb is_valid_number (x :: numbers) = true).
      { apply forallb_forall. intros z Hz.
        destruct (is_valid_number z) eqn:Ez; [reflexivity|exfalso].
        assert (Hex : existsb (fun x => negb (is_valid_number x)) (x :: numbers)
                      = true).
        { apply existsb_exists. exists z. rewrite Ez. split; [assumption|reflexivity]. }
        congruence. }
      destruct (Array_map_valid _ Hall) as (ds & Hds & _). congruence. }
    rewrite Heq in E.
    rewrite (Array_map_first_throw pre post y _ Hpre (getFirstDigit_invalid y Hy))
      in E.
    injection E as <-. unfold extraction_error.
    destruct (Number_isFinite y); discriminate.
  - intros r digit p Hr Hp.
    destruct (processBenfordLaw_Return_inv _ _ _ _ Hr)
      as (ds & _ & _ & _ & _ & ->).
    cbn [isFollowingBenfordLaw].
    destruct (isBenford _ _ _) eqn:E; [exfalso|reflexivity].
    rewrite isBenford_iff in E. specialize (E digit p Hp).
    unfold within_threshold in E. cbn [js_lt] in E. discriminate.
Qed.

Lemma NaN_threshold_never_conformant_witness :
  exists r,
    processBenfordLaw [Fin 1; Fin 2] NaN benfordProb = Return r /\
    isFollowingBenfordLaw r = false.
Proof.
  eexists. split; [vm_compute; reflexivity|].
  apply (proj2 (NaN_threshold_never_conformant [Fin 1; Fin 2] benfordProb)
           _ "1" 0.301%Q).
  - vm_compute. reflexivity.
  - vm_compute. reflexivity.
Defined.

(** ** [processBenfordLaw]: the verdict depends on frequencies only *)

Lemma Array_map_app {A B} (f : A -> completion B) (l l' : list A)
    (ds ds' : list B) :
  Array_map f l = Return ds -> Array_map f l' = Return ds' ->
  Array_map f (l ++ l') = Return (ds ++ ds').
Proof.
  revert ds. induction l as [|x l IH]; intros ds Hl Hl'.
  - cbn in Hl. injection Hl as <-. assumption.
  - apply Array_map_cons_inv in Hl as (d & ds0 & Hx & Hl & ->).
    cbn [app]. apply Array_map_cons; [assumption|]. apply IH; assumption.
Qed.

Lemma occurrences_app (key : string) (ds ds' : list parsed) :
  occurrences key (ds ++ ds') = (occurrences key ds + occurrences key ds')%nat.
Proof. unfold occurrences. rewrite map_app. apply count_occ_app. Qed.

Lemma ratio_double (c n : nat) :
  (0 < n)%nat -> (ratio (c + c) (n + n) == ratio c n)%Q.
Proof.
  intros Hn. unfold ratio. rewrite !Nat2Z.inj_add, !inject_Z_plus.
  assert (Hnz : ~ (inject_Z (Z.of_nat n) == 0)%Q).
  { change 0%Q with (inject_Z 0). rewrite inject_Z_injective. lia. }
  field. split; [assumption|].
  intros H. apply Hnz.
  assert (H2 : (inject_Z (Z.of_nat n) + inject_Z (Z.of_nat n)
                == 2 * inject_Z (Z.of_nat n))%Q) by ring.
  rewrite H2 in H. apply Qmult_integral in H as [H|H]; [discriminate|assumption].
Qed.

Lemma Qlt_bool_comp (x x' y : Q) : (x == x')%Q -> Qlt_bool x y = Qlt_bool x' y.
Proof.
  intros H. destruct (Qlt_bool x' y) eqn:E.
  - apply Qlt_bool_iff. rewrite H. apply Qlt_bool_iff. assumption.
  - apply Qlt_bool_false. rewrite H. apply Qlt_bool_false. assumption.
Qed.

Lemma forallb_pointwise {A} (f g : A -> bool) (l : list A) :
  (forall x, f x = g x) -> forallb f l = forallb g l.
Proof.
  intros H. induction l as [|x l IH]; [reflexivity|].
  cbn [forallb]. rewrite H, IH. reflexivity.
Qed.

Lemma js_lt_Fin_comp (x x' : Q) (threshold : number) :
  (x == x')%Q -> js_lt (Fin x) threshold = js_lt (Fin x') threshold.
Proof.
  intros H. destruct threshold; cbn [js_lt]; try reflexivity.
  apply Qlt_bool_comp. assumption.
Qed.

(** X14.  Analysing an array written out twice gives the same verdict as
    analysing it once. *)
Theorem processBenfordLaw_doubled (numbers : list number) (threshold : number)
    (benfordProbabilities : gmap string Q) (r : report) :
  processBenfordLaw numbers threshold benfordProbabilities = Return r ->
  exists r2,
    processBenfordLaw (numbers ++ numbers) threshold benfordProbabilities
    = Return r2 /\
    isFollowingBenfordLaw r2 = isFollowingBenfordLaw r.
Proof.
  intros Hr.
  destruct (processBenfordLaw_Return_inv _ _ _ _ Hr)
    as (ds & Hlen & Ht & Hds & Hl & ->).
  rewrite processBenfordLaw_nonempty
    by (try assumption; rewrite length_app; lia).
  rewrite (Array_map_app _ _ _ _ _ Hds Hds). cbn [bind].
  eexists. split; [reflexivity|]. cbn [isFollowingBenfordLaw].
  unfold isBenford. apply forallb_pointwise. intros [digit b].
  unfold within_threshold. cbn [fst snd].
  apply js_lt_Fin_comp.
  rewrite !or_zero_default, !probabilities_of_fmap, !lookup_fmap,
    !lookup_count_digits, occurrences_app, length_app.
  destruct (occurrences digit ds) as [|n]; [reflexivity|].
  cbn [Nat.add fmap option_fmap option_map default from_option Datatypes.id].
  change (S (n + S n)) with (S n + S n)%nat.
  rewrite ratio_double by assumption. reflexivity.
Qed.

Lemma processBenfordLaw_doubled_witness :
  exists r r2,
    processBenfordLaw [Fin 1; Fin 2] default_threshold benfordProb = Return r /\
    processBenfordLaw ([Fin 1; Fin 2] ++ [Fin 1; Fin 2]) default_threshold
                      benfordProb = Return r2 /\
    isFollowingBenfordLaw r2 = isFollowingBenfordLaw r.
Proof.
  eexists.
  assert (Hr : processBenfordLaw [Fin 1; Fin 2] default_threshold benfordProb
               = Return ?[r]) by (vm_compute; reflexivity).
  destruct (processBenfordLaw_doubled [Fin 1; Fin 2] default_threshold
              benfordProb _ Hr) as (r2 & Hr2 & H).
  exists r2. split; [exact Hr|]. split; [exact Hr2|exact H].
Defined.

(** ** Further properties of the analysis in binary64 *)

(** X1.  On a number whose exact value is an integer from 1 to 2^53 - 1,
    [getFirstDigit] returns the leading decimal digit of that integer,
    whatever the engine's logarithm, power and formatting of other numbers
    are. *)
Theorem double_getFirstDigit_integer (h : Double.host) (x : float) (n : Z) :
  (exact_value x == inject_Z n)%Q -> 1 <= n < 2 ^ 53 ->
  Double.getFirstDigit h x = Return (Parsed (Z.to_N (lead_digit n))) /\
  1 <= lead_digit n <= 9.
Proof.
  intros Hint Hn. split.
  - apply double_getFirstDigit_of_integer; [|assumption].
    apply integer_value_of_exact; [assumption|lia].
  - apply lead_digit_range. lia.
Qed.

Lemma double_getFirstDigit_integer_witness :
  Double.getFirstDigit Double.silent 234567
  = Return (Parsed (Z.to_N (lead_digit 234567))) /\
  1 <= lead_digit 234567 <= 9.
Proof.
  apply (double_getFirstDigit_integer Double.silent 234567%float 234567).
  - vm_compute. reflexivity.
  - lia.
Defined.

(** X30.  Every outcome of [getFirstDigit]: it throws the not-finite error
    exactly on NaN and the infinities, the non-positive error exactly on
    the finite numbers that are [<= 0], and otherwise either throws the
    invalid-digit error or returns a digit from 1 to 9 or NaN; it never
    returns 0. *)
Theorem double_getFirstDigit_outcomes (h : Double.host) (x : float) :
  match Double.getFirstDigit h x with
  | Return d =>
      is_finite x = true /\ (x <=? 0)%float = false /\ is_digit_or_NaN d /\
      d <> Parsed 0
  | Throw e =>
      (e = NotFiniteError /\ is_finite x = false) \/
      (e = NonPositiveError /\ is_finite x = true /\ (x <=? 0)%float = true) \/
      (e = InvalidDigitError /\ is_finite x = true /\ (x <=? 0)%float = false)
  end.
Proof.
  destruct (Double.getFirstDigit h x) as [d|e] eqn:E.
  - apply double_getFirstDigit_inv in E as (Hf & Hp & Hd).
    repeat split; try assumption.
    intros ->. cbn [is_digit_or_NaN] in Hd. lia.
  - unfold Double.getFirstDigit in E.
    destruct (is_finite x); cbn [negb] in E.
    + destruct (x <=? 0)%float.
      * right. left. injection E as <-. repeat split.
      * right. right. cbv zeta in E.
        destruct (_ || _) in E; [|discriminate].
        injection E as <-. repeat split.
    + left. injection E as <-. split; reflexivity.
Qed.

Lemma Forall2_Forall_exists {A B} (P : A -> B -> Prop) (l : list A) :
  Forall (fun x => exists y, P x y) l <-> exists l', Forall2 P l l'.
Proof.
  split.
  - induction 1 as [|x l [y Hy] _ [l' IH]].
    + exists []. constructor.
    + exists (y :: l'). constructor; assumption.
  - intros [l' H]. induction H; constructor; eauto.
Qed.

(** X5.  [processBenfordLaw] returns a report exactly when the array is not
    empty, the threshold is neither [<= 0] nor [>= 1], and [getFirstDigit]
    returns on every element; the elements are then finite and not
    [<= 0]. *)
Theorem double_processBenfordLaw_returns_iff (h : Double.host)
    (numbers : list float) (threshold : float)
    (benfordProbabilities : gmap string float) :
  ((exists r,
      Double.processBenfordLaw h numbers threshold benfordProbabilities = Return r)
   <-> numbers <> [] /\
       (threshold <=? 0)%float = false /\ (1 <=? threshold)%float = false /\
       Forall (fun x => exists d, Double.getFirstDigit h x = Return d) numbers) /\
  (Forall (fun x => exists d, Double.getFirstDigit h x = Return d) numbers ->
   Forall (fun x => is_finite x = true /\ (x <=? 0)%float = false) numbers).
Proof.
  split.
  - split.
    + intros [r Hr].
      apply double_processBenfordLaw_Return_inv in Hr
        as (Hne & Ht0 & Ht1 & ds & Hds & _).
      repeat split; try assumption.
      apply Forall2_Forall_exists. exists ds. apply Array_map_Forall2, Hds.
    + intros (Hne & Ht0 & Ht1 & Hall).
      apply Forall2_Forall_exists in Hall as [ds Hds].
      apply Array_map_Forall2 in Hds.
      unfold Double.processBenfordLaw.
      destruct numbers as [|x numbers]; [congruence|]. cbn [length Nat.eqb].
      rewrite Ht0, Ht1, Hds. cbn [orb bind]. eauto.
  - intros Hall. eapply Forall_impl; [exact Hall|].
    intros x [d Hd]. apply double_getFirstDigit_inv in Hd. tauto.
Qed.

(** X27.  On an array of integers from 1 to 2^53 - 1, with a threshold that
    is neither [<= 0] nor [>= 1], [processBenfordLaw] returns a report, and
    every key of its counts is one of "1" to "9". *)
Theorem double_processBenfordLaw_integers (h : Double.host)
    (numbers : list float) (threshold : float)
    (benfordProbabilities : gmap string float) :
  numbers <> [] ->
  (threshold <=? 0)%float = false -> (1 <=? threshold)%float = false ->
  Forall is_positive_safe_integer numbers ->
  exists r,
    Double.processBenfordLaw h numbers threshold benfordProbabilities = Return r /\
    sum_counts (Double.firstDigitCounts r) = length numbers /\
    forall key count,
      Double.firstDigitCounts r !! key = Some count -> In key digit_keys.
Proof.
  intros Hne Ht0 Ht1 Hall.
  assert (Hds : exists ds,
             Forall2 (fun x d => Double.getFirstDigit h x = Return d) numbers ds /\
             Forall (fun d => exists n, 1 <= n <= 9 /\ d = Parsed (Z.to_N n)) ds).
  { clear Hne. induction Hall as [|x l (n & Hint & Hn) _ (ds & IH1 & IH2)].
    - exists []. split; constructor.
    - exists (Parsed (Z.to_N (lead_digit n)) :: ds). split; constructor; try assumption.
      + apply double_getFirstDigit_of_integer; [|assumption].
        apply integer_value_of_exact; [assumption|lia].
      + exists (lead_digit n). split; [|reflexivity].
        apply lead_digit_range. lia. }
  destruct Hds as (ds & Hds & Hdigits).
  pose proof (proj2 (Array_map_Forall2 _ _ _) Hds) as Hmap.
  unfold Double.processBenfordLaw.
  destruct numbers as [|x numbers]; [congruence|]. cbn [length Nat.eqb].
  rewrite Ht0, Ht1, Hmap. cbn [orb bind]. eexists. split; [reflexivity|].
  cbn [Double.firstDigitCounts]. split.
  - rewrite sum_counts_count_digits.
    apply double_Array_map_digits in Hmap as [_ Hlen]. exact Hlen.
  - intros key count Hkey. rewrite lookup_count_digits in Hkey.
    destruct (occurrences key ds) eqn:Hocc; [discriminate|].
    destruct (occurrences_pos_elem key ds) as (d & Hin & <-); [lia|].
    rewrite Forall_forall in Hdigits.
    destruct (Hdigits d) as (n' & Hn' & ->); [apply list_elem_of_In; assumption|].
    cbn [String_of_parsed]. apply digit_key_elem. assumption.
Qed.

Lemma double_processBenfordLaw_integers_witness :
  exists r,
    Double.processBenfordLaw Double.silent [12; 7; 345]%float 0.25
      Double.benfordProb = Return r /\
    sum_counts (Double.firstDigitCounts r) = 3%nat /\
    forall key count,
      Double.firstDigitCounts r !! key = Some count -> In key digit_keys.
Proof.
  apply (double_processBenfordLaw_integers Double.silent [12; 7; 345]%float
           0.25%float Double.benfordProb).
  - discriminate.
  - reflexivity.
  - reflexivity.
  - repeat constructor.
    + exists 12. split; [vm_compute; reflexivity|lia].
    + exists 7. split; [vm_compute; reflexivity|lia].
    + exists 345. split; [vm_compute; reflexivity|lia].
Defined.

Lemma double_Array_map_first_throw (h : Double.host) (pre post : list float)
    (x : float) (e : Error) :
  Forall (fun y => exists d, Double.getFirstDigit h y = Return d) pre ->
  Double.getFirstDigit h x = Throw e ->
  Array_map (Double.getFirstDigit h) (pre ++ x :: post) = Throw e.
Proof.
  intros Hpre Hx. induction Hpre as [|y pre [d Hy] _ IH].
  - cbn [app Array_map]. rewrite Hx. reflexivity.
  - cbn [app Array_map]. rewrite Hy. cbn [bind]. rewrite IH. reflexivity.
Qed.

(** X28.  An error of [getFirstDigit] ends the analysis and is the error of
    the analysis, unchanged: with a threshold that passes the check, on
    an array where [getFirstDigit] returns on the elements before an index
    and throws at that index, [processBenfordLaw] throws that same error,
    whatever follows; on a non-finite or non-positive element it is the
    not-finite or the non-positive error. *)
Theorem double_processBenfordLaw_first_failure (h : Double.host)
    (pre post : list float) (x : float) (e : Error) (threshold : float)
    (benfordProbabilities : gmap string float) :
  (threshold <=? 0)%float = false -> (1 <=? threshold)%float = false ->
  Forall (fun y => exists d, Double.getFirstDigit h y = Return d) pre ->
  Double.getFirstDigit h x = Throw e ->
  Double.processBenfordLaw h (pre ++ x :: post) threshold benfordProbabilities
  = Throw e /\
  (is_finite x = false -> e = NotFiniteError) /\
  (is_finite x = true -> (x <=? 0)%float = true -> e = NonPositiveError).
Proof.
  intros Ht0 Ht1 Hpre Hx. split; [|split].
  - unfold Double.processBenfordLaw.
    replace (length (pre ++ x :: post) =? 0)%nat with false
      by (rewrite length_app; cbn [length]; symmetry; apply Nat.eqb_neq; lia).
    rewrite Ht0, Ht1. cbn [orb].
    rewrite (double_Array_map_first_throw h pre post x e Hpre Hx). reflexivity.
  - intros Hf. unfold Double.getFirstDigit in Hx. rewrite Hf in Hx.
    cbn [negb] in Hx. congruence.
  - intros Hf Hp. unfold Double.getFirstDigit in Hx. rewrite Hf, Hp in Hx.
    cbn [negb] in Hx. congruence.
Qed.

Lemma double_processBenfordLaw_first_failure_witness :
  Double.processBenfordLaw Double.silent ([3; 41] ++ (-2) :: [nan; 5])%float 0.01
    Double.benfordProb = Throw NonPositiveError /\
  (is_finite (-2) = false -> NonPositiveError = NotFiniteError) /\
  (is_finite (-2) = true -> (-2 <=? 0)%float = true ->
   NonPositiveError = NonPositiveError).
Proof.
  apply (double_processBenfordLaw_first_failure Double.silent [3; 41]%float
           [nan; 5]%float (-2)%float NonPositiveError 0.01%float Double.benfordProb).
  - reflexivity.
  - reflexivity.
  - repeat constructor; eexists; vm_compute; reflexivity.
  - vm_compute. reflexivity.
Defined.

(** X29.  With an empty reference distribution, on a non-empty array on
    whose elements [getFirstDigit] returns and with a threshold that is
    neither <= 0 nor >= 1, [processBenfordLaw] returns a report whose
    verdict is true, that has no accuracy, and whose counts and
    probabilities are those of the input: a digit has a count, the number
    of its occurrences, exactly when it occurs, and the probabilities have
    the keys of the counts. *)
Theorem double_processBenfordLaw_empty_reference (h : Double.host)
    (numbers : list float) (threshold : float) (ds : list parsed) :
  numbers <> [] ->
  (threshold <=? 0)%float = false -> (1 <=? threshold)%float = false ->
  Array_map (Double.getFirstDigit h) numbers = Return ds ->
  exists r,
    Double.processBenfordLaw h numbers threshold ∅ = Return r /\
    Double.isFollowingBenfordLaw r = true /\
    Double.firstDigitAccuracies r = ∅ /\
    sum_counts (Double.firstDigitCounts r) = length numbers /\
    forall key,
      Double.firstDigitCounts r !! key =
        match occurrences key ds with
        | O => None
        | S n => Some (S n)
        end /\
      Double.firstDigitProbabilities r !! key =
        (fun count => quotient count (length numbers))
          <$> Double.firstDigitCounts r !! key.
Proof.
  intros Hne Ht0 Ht1 Hds.
  eexists. split; [apply double_processBenfordLaw_returns; eassumption|].
  cbv zeta.
  cbn [Double.isFollowingBenfordLaw Double.firstDigitAccuracies
       Double.firstDigitCounts Double.firstDigitProbabilities].
  pose proof (double_Array_map_digits _ _ _ Hds) as [Hrange Hlen].
  split; [|split; [|split]].
  - unfold Double.isBenford. rewrite map_to_list_empty. reflexivity.
  - apply map_eq. intros key.
    rewrite double_lookup_accuracies_of, lookup_empty.
    destruct (_ !! key) as [v|] eqn:Hv; [|reflexivity].
    rewrite double_get_own; [rewrite lookup_empty; reflexivity|].
    rewrite double_lookup_probabilities in Hv.
    apply (occurrences_not_inherited key ds Hrange).
    destruct (occurrences key ds); [discriminate|lia].
  - rewrite sum_counts_count_digits. exact Hlen.
  - intros key. split; [apply lookup_count_digits|].
    rewrite double_probabilities_of_fmap, lookup_fmap. reflexivity.
Qed.

Lemma double_processBenfordLaw_empty_reference_witness :
  exists r,
    Double.processBenfordLaw Double.silent [3; 41; 4]%float 0.01 ∅ = Return r /\
    Double.isFollowingBenfordLaw r = true /\
    Double.firstDigitAccuracies r = ∅ /\
    sum_counts (Double.firstDigitCounts r) = 3%nat /\
    forall key,
      Double.firstDigitCounts r !! key =
        match occurrences key [Parsed 3; Parsed 4; Parsed 4] with
        | O => None
        | S n => Some (S n)
        end /\
      Double.firstDigitProbabilities r !! key =
        (fun count => quotient count 3) <$> Double.firstDigitCounts r !! key.
Proof.
  apply (double_processBenfordLaw_empty_reference Double.silent [3; 41; 4]%float
           0.01%float [Parsed 3; Parsed 4; Parsed 4]).
  - discriminate.
  - reflexivity.
  - reflexivity.
  - vm_compute. reflexivity.
Defined.

(** ** The sampler: range and composition *)

(** X16.  [generateBenfordLawNumber] consumes one draw and returns a number from 1
    up to, but not including, 1000. *)
Theorem generateBenfordLawNumber_range (random_draws : nat -> R) (s : rng) :
  (0 <= random_draws s < 1)%R ->
  (1 <= fst (generateBenfordLawNumber random_draws s) < 1000)%R /\
  snd (generateBenfordLawNumber random_draws s) = S s.
Proof.
  intros Hu. rewrite generateBenfordLawNumber_eq. cbn [fst snd].
  split; [|reflexivity].
  pose proof (scaled_draw_range _ Hu) as [Hlo Hhi].
  unfold sample_of. split.
  - apply exp_range. split; assumption.
  - replace 1000%R with (exp (ln MAX_BENFORD_RANGE)).
    + apply exp_increasing. assumption.
    + unfold MAX_BENFORD_RANGE. apply exp_ln. lra.
Qed.

Lemma generateBenfordLawNumber_range_witness :
  (1 <= fst (generateBenfordLawNumber (fun _ => (1 / 2)%R) 0%nat) < 1000)%R /\
  snd (generateBenfordLawNumber (fun _ => (1 / 2)%R) 0%nat) = 1%nat.
Proof.
  apply (generateBenfordLawNumber_range (fun _ => (1 / 2)%R) 0%nat). lra.
Defined.

(** On a natural number from 1 to the largest length of an array. *)
Lemma generateBenfordLawNumbers_nat (random_draws : nat -> R) (n : nat) (s : rng) :
  (0 < n)%nat -> Z.of_nat n <= MAX_ARRAY_LENGTH ->
  generateBenfordLawNumbers random_draws (Fin (inject_Z (Z.of_nat n))) s
  = Return (sample_of random_draws <$> seq s n, (s + n)%nat).
Proof.
  intros Hn Hmax.
  assert (Hp : Z.of_nat n = Zpos (Pos.of_nat n)).
  { rewrite <- (Nat2Pos.id n) at 1 by lia. apply positive_nat_Z. }
  rewrite (generateBenfordLawNumbers_positive random_draws _ (Pos.of_nat n) s)
    by (rewrite Hp; reflexivity).
  replace (MAX_ARRAY_LENGTH <? Zpos (Pos.of_nat n)) with false
    by (symmetry; apply Z.ltb_ge; lia).
  rewrite Nat2Pos.id by lia. reflexivity.
Qed.

(** X18.  Two successive batches are one batch: generating n numbers and
    then m numbers from the state the first call leaves gives the n + m
    numbers of a single call, as long as n + m is a length an array can
    have. *)
Theorem generateBenfordLawNumbers_app (random_draws : nat -> R) (n m : nat)
    (s : rng) :
  (0 < n)%nat -> (0 < m)%nat ->
  Z.of_nat (n + m) <= MAX_ARRAY_LENGTH ->
  exists xs ys s1 s2,
    generateBenfordLawNumbers random_draws (Fin (inject_Z (Z.of_nat n))) s
    = Return (xs, s1) /\
    generateBenfordLawNumbers random_draws (Fin (inject_Z (Z.of_nat m))) s1
    = Return (ys, s2) /\
    generateBenfordLawNumbers random_draws (Fin (inject_Z (Z.of_nat (n + m)))) s
    = Return (xs ++ ys, s2).
Proof.
  intros Hn Hm Hmax.
  exists (sample_of random_draws <$> seq s n),
         (sample_of random_draws <$> seq (s + n) m), (s + n)%nat, (s + n + m)%nat.
  rewrite !generateBenfordLawNumbers_nat by lia.
  split; [reflexivity|]. split; [reflexivity|].
  rewrite seq_app, fmap_app. do 2 f_equal. lia.
Qed.

Lemma generateBenfordLawNumbers_app_witness :
  exists xs ys s1 s2,
    generateBenfordLawNumbers (fun i => (/ (INR i + 2))%R)
      (Fin (inject_Z (Z.of_nat 2))) 0%nat = Return (xs, s1) /\
    generateBenfordLawNumbers (fun i => (/ (INR i + 2))%R)
      (Fin (inject_Z (Z.of_nat 1))) s1 = Return (ys, s2) /\
    generateBenfordLawNumbers (fun i => (/ (INR i + 2))%R)
      (Fin (inject_Z (Z.of_nat (2 + 1)))) 0%nat = Return (xs ++ ys, s2).
Proof.
  apply (generateBenfordLawNumbers_app (fun i => (/ (INR i + 2))%R) 2 1 0%nat).
  - lia.
  - lia.
  - vm_compute. discriminate.
Defined.

(** ** The earlier version *)

Lemma getFirstDigit_ge_1_legacy (q : Q) :
  (1 <= q)%Q ->
  getFirstDigit (Fin q) = Return (Legacy.getFirstDigit (Fin q)).
Proof.
  intros H. rewrite (getFirstDigit_ge_1 q H). unfold Legacy.getFirstDigit.
  rewrite toString_head_ge_1 by assumption.
  rewrite parseInt_pretty_head by (apply Qfloor_ge_1; assumption).
  reflexivity.
Qed.

(** X19.  From 1 upwards both versions of [getFirstDigit] give the same digit. *)
Theorem legacy_getFirstDigit_agrees (q : Q) :
  (1 <= q)%Q ->
  getFirstDigit (Fin q) = Return (Legacy.getFirstDigit (Fin q)).
Proof. exact (getFirstDigit_ge_1_legacy q). Qed.

Lemma legacy_getFirstDigit_agrees_witness :
  getFirstDigit (Fin 27.9) = Return (Legacy.getFirstDigit (Fin 27.9)).
Proof.
  apply (legacy_getFirstDigit_agrees 27.9). apply Qle_bool_iff. reflexivity.
Defined.

(** X20.  Between 1e-6 and 1 the earlier [getFirstDigit] returns 0, the zero
    before the decimal point; the current one never does. *)
Theorem legacy_getFirstDigit_below_1 (q : Q) :
  (1 # 1000000 <= q)%Q -> (q < 1)%Q ->
  Legacy.getFirstDigit (Fin q) = Parsed 0 /\
  getFirstDigit (Fin q) <> Return (Parsed 0).
Proof.
  intros Hlo Hhi.
  assert (Hpos : (0 < q)%Q)
    by (apply Qlt_le_trans with (1 # 1000000)%Q; [reflexivity|assumption]).
  split.
  - unfold Legacy.getFirstDigit, toString_head.
    replace (Qlt_bool q 0) with false
      by (symmetry; apply Qlt_bool_false, Qlt_le_weak; assumption).
    replace (Qle_bool 1 q) with false
      by (symmetry; apply Qle_bool_false; assumption).
    replace (Qle_bool (1 # 1000000) q) with true
      by (symmetry; apply Qle_bool_iff; assumption).
    reflexivity.
  - destruct (getFirstDigit_returns q Hpos) as (d & Hd & [->|(n & -> & Hn)]);
      rewrite Hd; intros [= H]. lia.
Qed.

Lemma legacy_getFirstDigit_below_1_witness :
  Legacy.getFirstDigit (Fin 0.5) = Parsed 0 /\
  getFirstDigit (Fin 0.5) <> Return (Parsed 0).
Proof.
  apply (legacy_getFirstDigit_below_1 0.5).
  - apply Qle_bool_iff. reflexivity.
  - apply Qlt_bool_iff. reflexivity.
Defined.

Lemma Array_map_at_least_1 (numbers : list number) :
  forallb is_at_least_1 numbers = true ->
  Array_map getFirstDigit numbers = Return (map Legacy.getFirstDigit numbers).
Proof.
  induction numbers as [|x numbers IH]; intros H; [reflexivity|].
  cbn [forallb] in H. apply andb_true_iff in H as [Hx Hrest].
  destruct x as [| | |q]; try discriminate.
  cbn [is_at_least_1] in Hx. apply Qle_bool_iff in Hx.
  cbn [map]. apply Array_map_cons.
  - apply getFirstDigit_ge_1_legacy. assumption.
  - apply IH. assumption.
Qed.

Lemma legacy_within_threshold_iff (probabilities : gmap string Q)
    (threshold : number) (digit : string) (p : Q) :
  (forall key v, probabilities !! key = Some v -> (0 < v)%Q) ->
  Legacy.within_threshold probabilities threshold (digit, p) = true <->
  is_Some (probabilities !! digit) /\
  within_threshold probabilities threshold (digit, p) = true.
Proof.
  intros Hpos. unfold Legacy.within_threshold, within_threshold. cbn [fst snd].
  destruct (probabilities !! digit) as [v|] eqn:E.
  - assert (Hv : Qeq_bool v 0 = false).
    { destruct (Qeq_bool v 0) eqn:Eq; [|reflexivity].
      apply Qeq_bool_eq in Eq. pose proof (Hpos _ _ E) as H.
      rewrite Eq in H. exfalso. exact (Qlt_irrefl _ H). }
    cbn [or_zero]. rewrite Hv. split; [intros H; split; [eauto|exact H]|tauto].
  - split; [discriminate|]. intros [[v Hv] _]. discriminate.
Qed.

Lemma legacy_isBenford_iff (probabilities : gmap string Q) (threshold : number)
    (benfordProbabilities : gmap string Q) :
  Legacy.isBenford probabilities threshold benfordProbabilities = true <->
  forall digit p, benfordProbabilities !! digit = Some p ->
                  Legacy.within_threshold probabilities threshold (digit, p) = true.
Proof.
  unfold Legacy.isBenford. rewrite forallb_forall. split.
  - intros H digit p Hp. apply H.
    apply list_elem_of_In, elem_of_map_to_list. assumption.
  - intros H [digit p] Hin. apply H.
    apply elem_of_map_to_list, list_elem_of_In. assumption.
Qed.

Lemma probabilities_of_pos (ds : list parsed) (n : nat) (key : string) (v : Q) :
  (0 < n)%nat ->
  probabilities_of (count_digits ds) n !! key = Some v -> (0 < v)%Q.
Proof.
  intros Hn. rewrite probabilities_of_fmap, lookup_fmap, lookup_count_digits.
  destruct (occurrences key ds); [discriminate|].
  cbn. intros [= <-]. apply ratio_pos; lia.
Qed.

(** X21.  On an array the current version accepts and whose elements are all at
    least 1, the earlier version computes the same counts and
    probabilities, and its verdict is true exactly when the current verdict
    is true and every reference digit occurs in the input. *)
Theorem legacy_processBenfordLaw_agrees (numbers : list number) (threshold : number)
    (benfordProbabilities : gmap string Q) (r : report) :
  forallb is_at_least_1 numbers = true ->
  processBenfordLaw numbers threshold benfordProbabilities = Return r ->
  Legacy.firstDigitCounts
    (Legacy.processBenfordLaw numbers threshold benfordProbabilities)
  = firstDigitCounts r /\
  Legacy.firstDigitProbabilities
    (Legacy.processBenfordLaw numbers threshold benfordProbabilities)
  = firstDigitProbabilities r /\
  (Legacy.isFollowingBenfordLaw
     (Legacy.processBenfordLaw numbers threshold benfordProbabilities) = true
   <-> isFollowingBenfordLaw r = true /\
       forall digit p, benfordProbabilities !! digit = Some p ->
                       is_Some (firstDigitCounts r !! digit)).
Proof.
  intros Hge Hr.
  destruct (processBenfordLaw_Return_inv _ _ _ _ Hr)
    as (ds & Hlen & _ & Hds & _ & ->).
  rewrite (Array_map_at_least_1 numbers Hge) in Hds. injection Hds as <-.
  unfold Legacy.processBenfordLaw.
  cbn [Legacy.firstDigitCounts Legacy.firstDigitProbabilities
       Legacy.isFollowingBenfordLaw firstDigitCounts isFollowingBenfordLaw
       firstDigitProbabilities].
  split; [reflexivity|]. split; [reflexivity|].
  set (ds := map Legacy.getFirstDigit numbers).
  set (probabilities := probabilities_of (count_digits ds) (length numbers)).
  assert (Hpos : forall key v, probabilities !! key = Some v -> (0 < v)%Q).
  { intros key v. apply probabilities_of_pos. assumption. }
  assert (Hdom : forall digit,
            is_Some (probabilities !! digit) <-> is_Some (count_digits ds !! digit)).
  { intros digit. unfold probabilities.
    rewrite probabilities_of_fmap, lookup_fmap, fmap_is_Some. reflexivity. }
  rewrite legacy_isBenford_iff, isBenford_iff. split.
  - intros H. split; intros digit p Hp;
      destruct (proj1 (legacy_within_threshold_iff _ _ _ _ Hpos) (H digit p Hp))
        as [Hs Hw]; [exact Hw|apply Hdom; exact Hs].
  - intros [Hw Hs] digit p Hp.
    apply (legacy_within_threshold_iff _ _ _ _ Hpos). split.
    + apply Hdom. exact (Hs digit p Hp).
    + exact (Hw digit p Hp).
Qed.

Lemma legacy_processBenfordLaw_agrees_witness :
  exists r,
    processBenfordLaw [Fin 1; Fin 27.9] default_threshold benfordProb = Return r /\
    Legacy.firstDigitCounts
      (Legacy.processBenfordLaw [Fin 1; Fin 27.9] default_threshold benfordProb)
    = firstDigitCounts r /\
    Legacy.firstDigitProbabilities
      (Legacy.processBenfordLaw [Fin 1; Fin 27.9] default_threshold benfordProb)
    = firstDigitProbabilities r /\
    (Legacy.isFollowingBenfordLaw
       (Legacy.processBenfordLaw [Fin 1; Fin 27.9] default_threshold benfordProb)
     = true
     <-> isFollowingBenfordLaw r = true /\
         forall digit p, benfordProb !! digit = Some p ->
                         is_Some (firstDigitCounts r !! digit)).
Proof.
  eexists. split; [vm_compute; reflexivity|].
  apply (legacy_processBenfordLaw_agrees [Fin 1; Fin 27.9] default_threshold
           benfordProb).
  - vm_compute. reflexivity.
  - vm_compute. reflexivity.
Defined.

Lemma lookup_legacy_accuracy_of (probabilities benfordProbabilities : gmap string Q)
    (digit : string) :
  Legacy.accuracy_of probabilities benfordProbabilities !! digit =
    match probabilities !! digit with
    | Some probability =>
        Some (match benfordProbabilities !! digit with
              | Some benfordProbability =>
                  Fin (Qabs (benfordProbability - probability))
              | None => NaN
              end)
    | None => None
    end.
Proof.
  unfold Legacy.accuracy_of.
  apply (map_fold_weak_ind
           (fun r m => r !! digit =
              match m !! digit with
              | Some probability =>
                  Some (match benfordProbabilities !! digit with
                        | Some benfordProbability =>
                            Fin (Qabs (benfordProbability - probability))
                        | None => NaN
                        end)
              | None => None
              end)).
  - rewrite !lookup_empty. reflexivity.
  - intros i x m r Hi IH.
    destruct (decide (i = digit)) as [->|Hne].
    + rewrite !lookup_insert_eq. reflexivity.
    + rewrite !lookup_insert_ne by assumption. assumption.
Qed.

(** X22.  The earlier version gives every digit that occurs an accuracy entry;
    when the reference distribution has no such key the entry is NaN. *)
Theorem legacy_accuracy_entries (numbers : list number) (threshold : number)
    (benfordProbabilities : gmap string Q) (digit : string) :
  (is_Some (Legacy.firstDigitAccuracy
              (Legacy.processBenfordLaw numbers threshold benfordProbabilities)
            !! digit)
   <-> is_Some (Legacy.firstDigitCounts
                  (Legacy.processBenfordLaw numbers threshold benfordProbabilities)
                !! digit)) /\
  (benfordProbabilities !! digit = None ->
   is_Some (Legacy.firstDigitCounts
              (Legacy.processBenfordLaw numbers threshold benfordProbabilities)
            !! digit) ->
   Legacy.firstDigitAccuracy
     (Legacy.processBenfordLaw numbers threshold benfordProbabilities) !! digit
   = Some NaN).
Proof.
  unfold Legacy.processBenfordLaw.
  cbn [Legacy.firstDigitAccuracy Legacy.firstDigitCounts].
  rewrite lookup_legacy_accuracy_of, probabilities_of_fmap, lookup_fmap.
  destruct (count_digits _ !! digit) as [c|]; cbn.
  - split; [split; eauto|]. intros -> _. reflexivity.
  - split; [split; intros [? ?]; discriminate|]. intros _ [? ?]. discriminate.
Qed.

(** X23.  On the empty array the earlier version does not fail: every mapping of
    its report is empty and the verdict is true only for an empty reference
    distribution. *)
Theorem legacy_processBenfordLaw_empty (threshold : number)
    (benfordProbabilities : gmap string Q) :
  Legacy.firstDigitCounts
    (Legacy.processBenfordLaw [] threshold benfordProbabilities) = ∅ /\
  Legacy.firstDigitProbabilities
    (Legacy.processBenfordLaw [] threshold benfordProbabilities) = ∅ /\
  Legacy.firstDigitAccuracy
    (Legacy.processBenfordLaw [] threshold benfordProbabilities) = ∅ /\
  (Legacy.isFollowingBenfordLaw
     (Legacy.processBenfordLaw [] threshold benfordProbabilities) = true
   <-> benfordProbabilities = ∅).
Proof.
  unfold Legacy.processBenfordLaw.
  cbn [Legacy.firstDigitCounts Legacy.firstDigitProbabilities
       Legacy.firstDigitAccuracy Legacy.isFollowingBenfordLaw map length].
  assert (Hp : probabilities_of (count_digits []) 0 = ∅).
  { rewrite probabilities_of_fmap. apply fmap_empty. }
  rewrite Hp. split; [reflexivity|]. split; [reflexivity|]. split; [reflexivity|].
  rewrite legacy_isBenford_iff. split.
  - intros H. apply map_empty. intros digit.
    destruct (benfordProbabilities !! digit) as [p|] eqn:E; [|reflexivity].
    specialize (H digit p E). unfold Legacy.within_threshold in H.
    cbn [fst] in H. rewrite lookup_empty in H. discriminate.
  - intros -> digit p Hp'. rewrite lookup_empty in Hp'. discriminate.
Qed.

(** *** The counting loop of the earlier generator *)

Lemma loop_condition_iff (i : nat) (q : Q) :
  js_lt (Fin (inject_Z (Z.of_nat i))) (Fin q) = true
  <-> (i < Z.to_nat (Qceiling q))%nat.
Proof.
  cbn [js_lt]. rewrite Qlt_bool_iff. split.
  - intros H.
    assert (Hc : (inject_Z (Z.of_nat i) < inject_Z (Qceiling q))%Q)
      by (apply Qlt_le_trans with q; [assumption|apply Qle_ceiling]).
    rewrite <- Zlt_Qlt in Hc. lia.
  - intros H.
    apply Qle_lt_trans with (inject_Z (Qceiling q - 1)); [|apply Qceiling_lt].
    rewrite <- Zle_Qle. lia.
Qed.

Lemma MAX_ARRAY_LENGTH_pos : 0 < MAX_ARRAY_LENGTH.
Proof. reflexivity. Qed.

Lemma Array_push_room (numbers : list R) (x : R) :
  Z.of_nat (length numbers) < MAX_ARRAY_LENGTH ->
  Legacy.Array_push numbers x = Return (numbers ++ [x]).
Proof.
  intros H. unfold Legacy.Array_push.
  replace (MAX_ARRAY_LENGTH <=? Z.of_nat (length numbers)) with false
    by (symmetry; apply Z.leb_gt; assumption).
  reflexivity.
Qed.

Lemma generate_loop_finite (random_draws : nat -> R) (q : Q) (fuel i : nat)
    (numbers : list R) (s : rng) :
  Qceiling q <= MAX_ARRAY_LENGTH ->
  length numbers = i ->
  (i <= Z.to_nat (Qceiling q))%nat ->
  (Z.to_nat (Qceiling q) - i < fuel)%nat ->
  Legacy.generate_loop random_draws fuel i (Fin q) numbers s
  = Some (Return
            (numbers ++ (sample_of random_draws <$> seq s (Z.to_nat (Qceiling q) - i)),
             (s + (Z.to_nat (Qceiling q) - i))%nat)).
Proof.
  intros Hmax. set (n := Z.to_nat (Qceiling q)).
  pose proof MAX_ARRAY_LENGTH_pos as Hpos.
  assert (Hn : Z.of_nat n <= MAX_ARRAY_LENGTH) by lia.
  revert i numbers s. induction fuel as [|fuel IH]; intros i numbers s Hlen Hi Hfuel.
  - lia.
  - cbn [Legacy.generate_loop].
    destruct (js_lt (Fin (inject_Z (Z.of_nat i))) (Fin q)) eqn:E.
    + apply loop_condition_iff in E. fold n in E.
      rewrite generateBenfordLawNumber_eq.
      rewrite Array_push_room by lia.
      rewrite IH; [| rewrite length_app; cbn [length]; lia | lia | lia].
      replace (n - i)%nat with (S (n - S i)) by lia.
      cbn [seq fmap list_fmap]. rewrite <- app_assoc. cbn [app].
      do 3 f_equal. lia.
    + assert (Hz : (n - i = 0)%nat).
      { destruct (Nat.eq_dec (n - i)%nat 0%nat) as [|Hne]; [assumption|exfalso].
        assert (Hlt : (i < n)%nat) by lia.
        apply loop_condition_iff in Hlt. congruence. }
      rewrite Hz. cbn [seq fmap list_fmap]. rewrite app_nil_r.
      do 3 f_equal. lia.
Qed.

(** X24.  For a finite [length] whose ceiling is a length an array can
    have, the earlier generator returns max(0, ceil(length)) numbers, one
    draw each: a fractional length is rounded up and a length of zero or
    less gives the empty array, where the current version throws. *)
Theorem legacy_generateBenfordLawNumbers_count (random_draws : nat -> R)
    (q : Q) (fuel : nat) (s : rng) :
  Qceiling q <= MAX_ARRAY_LENGTH ->
  (Z.to_nat (Qceiling q) < fuel)%nat ->
  Legacy.generateBenfordLawNumbers random_draws fuel (Fin q) s
  = Some (Return (sample_of random_draws <$> seq s (Z.to_nat (Qceiling q)),
                  (s + Z.to_nat (Qceiling q))%nat)).
Proof.
  intros Hmax Hfuel. unfold Legacy.generateBenfordLawNumbers.
  rewrite generate_loop_finite by (try reflexivity; lia).
  rewrite Nat.sub_0_r. reflexivity.
Qed.

Lemma legacy_generateBenfordLawNumbers_count_witness :
  Legacy.generateBenfordLawNumbers (fun i => (/ (INR i + 2))%R) 7 (Fin 5.5) 0%nat
  = Some (Return (sample_of (fun i => (/ (INR i + 2))%R)
                    <$> seq 0 (Z.to_nat (Qceiling 5.5)),
                  (0 + Z.to_nat (Qceiling 5.5))%nat)).
Proof.
  apply (legacy_generateBenfordLawNumbers_count
           (fun i => (/ (INR i + 2))%R) 5.5 7 0%nat).
  - vm_compute. discriminate.
  - vm_compute. lia.
Defined.

(** X25.  On a positive integer up to the largest length of an array both
    generators return the same numbers and leave the same state. *)
Theorem legacy_generateBenfordLawNumbers_agrees (random_draws : nat -> R)
    (n fuel : nat) (s : rng) :
  (0 < n)%nat -> Z.of_nat n <= MAX_ARRAY_LENGTH -> (n < fuel)%nat ->
  exists result,
    generateBenfordLawNumbers random_draws (Fin (inject_Z (Z.of_nat n))) s
    = Return result /\
    Legacy.generateBenfordLawNumbers random_draws fuel
      (Fin (inject_Z (Z.of_nat n))) s = Some (Return result).
Proof.
  intros Hn Hmax Hfuel. eexists. split.
  - apply generateBenfordLawNumbers_nat; assumption.
  - unfold Legacy.generateBenfordLawNumbers.
    rewrite generate_loop_finite; rewrite ?Qceiling_Z, ?Nat2Z.id;
      try reflexivity; try lia.
    rewrite Nat.sub_0_r. reflexivity.
Qed.

Lemma legacy_generateBenfordLawNumbers_agrees_witness :
  exists result,
    generateBenfordLawNumbers (fun i => (/ (INR i + 2))%R)
      (Fin (inject_Z (Z.of_nat 3))) 0%nat = Return result /\
    Legacy.generateBenfordLawNumbers (fun i => (/ (INR i + 2))%R) 4
      (Fin (inject_Z (Z.of_nat 3))) 0%nat = Some (Return result).
Proof.
  apply (legacy_generateBenfordLawNumbers_agrees
           (fun i => (/ (INR i + 2))%R) 3 4 0%nat).
  - lia.
  - vm_compute. discriminate.
  - lia.
Defined.

Lemma generate_loop_Infinity (random_draws : nat -> R) (fuel i : nat)
    (numbers : list R) (s : rng) :
  length numbers = i ->
  Z.of_nat i <= MAX_ARRAY_LENGTH ->
  Legacy.generate_loop random_draws fuel i Infinity numbers s
  = if Z.of_nat fuel + Z.of_nat i <=? MAX_ARRAY_LENGTH then None
    else Some (Throw InvalidArrayLengthError).
Proof.
  revert i numbers s. induction fuel as [|fuel IH]; intros i numbers s Hlen Hi.
  - cbn [Legacy.generate_loop].
    replace (Z.of_nat 0 + Z.of_nat i <=? MAX_ARRAY_LENGTH) with true
      by (symmetry; apply Z.leb_le; lia).
    reflexivity.
  - cbn [Legacy.generate_loop js_lt]. rewrite generateBenfordLawNumber_eq.
    unfold Legacy.Array_push. rewrite Hlen.
    destruct (Z.leb_spec MAX_ARRAY_LENGTH (Z.of_nat i)) as [Hfull|Hroom].
    + replace (Z.of_nat (S fuel) + Z.of_nat i <=? MAX_ARRAY_LENGTH) with false
        by (symmetry; apply Z.leb_gt; lia).
      reflexivity.
    + rewrite IH by (rewrite ?length_app; cbn [length]; lia).
      replace (Z.of_nat fuel + Z.of_nat (S i)) with (Z.of_nat (S fuel) + Z.of_nat i)
        by lia.
      reflexivity.
Qed.

(** X26.  With [Infinity] as length the loop of the earlier generator never
    returns: it fills the array, 2^32 - 1 iterations, and the next [push]
    throws the range error of the engine; with [NaN] or [-Infinity] it exits
    at once with the empty array. *)
Theorem legacy_generateBenfordLawNumbers_non_finite (random_draws : nat -> R)
    (fuel : nat) (s : rng) :
  Legacy.generateBenfordLawNumbers random_draws fuel Infinity s
  = (if Z.of_nat fuel <=? MAX_ARRAY_LENGTH then None
     else Some (Throw InvalidArrayLengthError)) /\
  Legacy.generateBenfordLawNumbers random_draws (S fuel) NaN s
  = Some (Return ([], s)) /\
  Legacy.generateBenfordLawNumbers random_draws (S fuel) NegInfinity s
  = Some (Return ([], s)).
Proof.
  split; [|split; reflexivity].
  unfold Legacy.generateBenfordLawNumbers.
  rewrite generate_loop_Infinity by (try reflexivity; vm_compute; discriminate).
  rewrite Z.add_0_r. reflexivity.
Qed.
